(** * A shallow embedding of the tree-walking evaluator

  The development follows the Go sources: the dispatcher [Evaluate]
  (core/evaluator/evaluator.go), the control constructs [evalIf],
  [evalFor], [evalSwitch], [evalPipe], [evalControl], [evalRange], the
  string-template evaluator [evalStringLiteral] and the builtin function
  object (object/builtin.go).

  Go values that live behind pointers are cells of one heap; an object
  that is compared by identity carries its address.  Every evaluator is a
  function of the machine state and returns an outcome: a value with the
  next state, a Go panic, or exhaustion of the recursion budget that
  makes the definitions structurally recursive. *)

From stdpp Require Import gmap strings list pretty.
From Stdlib Require Import ZArith Lia.

Local Open Scope Z_scope.

(** ** Syntax nodes (package ast) *)

Module ast.

(** A template fragment: literal text, or a placeholder. *)
Record Fragment := { IsVariable : bool; Value : string }.

(** The node kinds the dispatcher switches on; [GoNil] is the nil
    interface value, for an optional child that is not there.  A switch
    case is the triple (IsDefault, Expressions, statements of Block). *)
#[local] Unset Elimination Schemes.
Inductive Node :=
| GoNil
| Program (statements : list Node)
| Block (statements : list Node)
| Prefix (op : string) (right : Node)
| Postfix (name op : string)
| Infix (left : Node) (op : string) (right : Node)
| Ternary (cond ifTrue ifFalse : Node)
| In (left right : Node)
| Ident (literal : string)
| Index (left index : Node)
| Slice (left fromIndex toIndex : Node)
| Bool (value : bool)
| ImportStmt (name : string)
| Var (name : string) (expr : Node)
| Const (name : string) (expr : Node)
| Assign (name op : string) (expr : Node)
| MultiVar (names : list string) (expr : Node)
| Func (params : list string) (body : list Node)
| ObjectCall (obj call : Node)
| Call (function : Node) (arguments : list Node)
| GetAttr (obj : Node) (name : string)
| If (condition consequence alternative : Node)
| For (init condition consequence post : Node)
| Switch (value : Node) (choices : list (bool * list Node * list Node))
| Pipe (exprs : list Node)
| Control (literal : string) (value : Node)
| Range (container : Node)
| Nil
| Int (value : Z)
| Float (bits : Z)
| String (value : string) (template : option (list Fragment))
         (templateExpressions : list Node)
| List (items : list Node)
| Map (items : list (Node * Node))
| SetLit (items : list Node).

#[local] Set Elimination Schemes.

Definition Case : Type := bool * list Node * list Node.
Definition IsDefault (c : Case) : bool := c.1.1.
Definition Expressions (c : Case) : list Node := c.1.2.
Definition CaseBlock (c : Case) : list Node := c.2.

End ast.

(** The part of a token the evaluator reads: [StartPosition.File] and
    [StartPosition.LineNumber()]. *)
Record Token := { tok_file : string; tok_line : Z }.

(** ** Runtime values (package object) *)

Module object.

(** [GoNil] is the nil interface value (no object at all); [Nil] is the
    language's nil object.  Pointer objects compared by identity carry
    their heap address [p]. *)
Inductive Object :=
| GoNil
| Nil
| Bool (value : bool)
| Int (value : Z)
| Float (bits : Z)
| String (value : string)
| Error (p : nat) (err : string)
| Control (keyword : string) (value : Object)
| Function (p : nat)
| Builtin (p : nat)
| Iter (p : nat)
| Opaque (type : string) (p : nat).

(** Modelled from the spec: the error-value kind by which the evaluator
    recognises an Error signal (object.IsError is not among the sources);
    the nil interface is not an error. *)
Definition IsError (o : Object) : bool :=
  match o with Error _ _ => true | _ => false end.

(** The fields of a [*Builtin]; [fn] names the wrapped Go function, and
    [module] holds the module's name when the pointer is not nil. *)
Record BuiltinStruct := {
    fn : nat;
    name : string;
    module : option string;
    moduleName : string;
    isErrorHandler : bool;
    doc : option nat
}.

End object.

Abbreviation Object := object.Object.
Abbreviation Node := ast.Node.

(** ** Evaluator configuration *)

Record Breakpoint := {
  File : string;
  Line : Z;
  Disabled : bool;
  Trace : bool;
  Stop : bool
}.

Record Opts := {
  Importer : option nat;
  DisableDefaultBuiltins : bool;
  Builtins : list nat;
  Breakpoints : list Breakpoint
}.

(** The evaluator: both maps hold pointers, [stack] is the address of its
    execution stack. *)
Record Evaluator := {
  importer : option nat;
  builtins : gmap string nat;
  stack : nat;
  breakpoints : gmap string nat
}.

(** A context: [ctx_err] is what [ctx.Err()] returns, nil ([None]) until
    the Done channel is closed; [ctx_call] is the call-back capability put
    in by [object.WithCallFunc]. *)
Record Context := {
  ctx_err : option string;
  ctx_call : option Evaluator
}.

(** ** The machine state *)

(** Modelled from the spec: a scope is a mapping from name to value (with
    the const flag) plus an optional parent link (package scope is not
    among the sources). *)
Record Scope := {
  scope_name : string;
  scope_parent : option nat;
  scope_store : gmap string (Object * bool)
}.

Inductive Cell :=
| CScope (sc : Scope)
| CBuiltin (b : object.BuiltinStruct)
| CBreakpoint (b : Breakpoint)
| CStack (frames : list (Node * nat))
| CIter (entries : list (Object * Object))
| CFunction (params : list string) (body : list Node) (defScope : nat).

(** Events of the debugging side channel and of node dispatch.  [EvEval]
    is a ghost record of each dispatch: node and scope.  At a breakpoint,
    [EvBreakpoint] is the banner with the position, [EvTrace] the print of
    the stack, [EvLocals] the print of the entries of the top frame's
    scope with the request to continue, and [EvContinuing] the print
    after the operator has answered. *)
Inductive Event :=
| EvEval (node : Node) (s : nat)
| EvBreakpoint (location : string) (b : Breakpoint)
| EvTrace (frames : list (Node * nat))
| EvLocals (contents : gmap string (Object * bool))
| EvContinuing.

Record State := {
  heap : gmap nat Cell;
  next : nat;
  log : list Event
}.

Definition set_heap (h : gmap nat Cell) (st : State) : State :=
  {| heap := h; next := next st; log := log st |}.

Definition emit (ev : Event) (st : State) : State :=
  {| heap := heap st; next := next st; log := log st ++ [ev] |}.

(** ** Outcomes and the evaluation monad *)

Inductive Outcome (A : Type) :=
| Done (a : A) (st : State)
| Panic (msg : string)
| OutOfFuel.
Arguments Done {A} a st.
Arguments Panic {A} msg.
Arguments OutOfFuel {A}.

Definition M (A : Type) : Type := State -> Outcome A.

Definition ret {A} (a : A) : M A := fun st => Done a st.

Definition bind {A B} (m : M A) (k : A -> M B) : M B :=
  fun st => match m st with
            | Done a st' => k a st'
            | Panic msg => Panic msg
            | OutOfFuel => OutOfFuel
            end.

Definition panic {A} (msg : string) : M A := fun _ => Panic msg.
Definition outOfFuel {A} : M A := fun _ => OutOfFuel.
Definition get : M State := fun st => Done st st.
Definition modify (f : State -> State) : M unit := fun st => Done tt (f st).

Notation "'do' x <- m ; k" := (bind m (fun x => k))
  (at level 10, x name, m at level 100, k at level 200,
   format "'[v' 'do'  x  <-  m ; '/' k ']'").
Notation "'run' m ; k" := (bind m (fun _ => k))
  (at level 10, m at level 100, k at level 200,
   format "'[v' 'run'  m ; '/' k ']'").

(** Allocation of a fresh cell. *)
Definition alloc (c : Cell) : M nat :=
  fun st => Done (next st)
    {| heap := <[next st := c]> (heap st); next := S (next st); log := log st |}.

(** [object.NewError] and [object.Errorf]: a fresh [*Error]. *)
Definition NewError (err : string) : M Object :=
  fun st => Done (object.Error (next st) err)
    {| heap := heap st; next := S (next st); log := log st |}.

Definition Errorf (msg : string) : M Object := NewError msg.

(** A method call through an interface value panics on the nil interface. *)
Definition method {A} (o : Object) (f : Object -> A) : M A :=
  match o with
  | object.GoNil => panic "nil pointer dereference"
  | _ => ret (f o)
  end.

(** ** Scopes (package scope) *)

Module scope.

Definition find (s : nat) (st : State) : option Scope :=
  match heap st !! s with
  | Some (CScope sc) => Some sc
  | _ => None
  end.

Definition with_store (sc : Scope) (m : gmap string (Object * bool)) : Scope :=
  {| scope_name := scope_name sc; scope_parent := scope_parent sc;
     scope_store := m |}.

(** Modelled from the spec: [newChild(name) -> Scope], a fresh scope whose
    parent link is the receiver. *)
Definition NewChild (s : nat) (name : string) : M nat :=
  alloc (CScope {| scope_name := name; scope_parent := Some s;
                   scope_store := ∅ |}).

(** Modelled from the spec: [Clear()] removes all entries in exactly one
    scope without severing the parent link. *)
Definition Clear (s : nat) : M unit :=
  fun st => match find s st with
            | Some sc => Done tt (set_heap (<[s := CScope (with_store sc ∅)]> (heap st)) st)
            | None => Panic "nil pointer dereference"
            end.

(** Modelled from the spec: [declare(name, value, isConst) ->
    ok|AlreadyDeclaredError]; declare always targets the local scope only.
    The result is the Go error, [None] for nil. *)
Definition declare (s : nat) (name : string) (value : Object) (readOnly : bool)
  : M (option string) :=
  fun st => match find s st with
            | Some sc =>
                match scope_store sc !! name with
                | Some _ => Done (Some ("name error: " +:+ name +:+ " is already declared")) st
                | None =>
                    Done None
                      (set_heap (<[s := CScope (with_store sc (<[name := (value, readOnly)]> (scope_store sc)))]> (heap st)) st)
                end
            | None => Panic "nil pointer dereference"
            end.

(** Modelled from the spec: lookup walks from the scope outward, stopping
    at the first definition; the result is the defining scope and the
    entry.  [depth] bounds the walk along the parent chain. *)
Fixpoint resolve (depth : nat) (s : nat) (name : string) (st : State)
  : option (nat * (Object * bool)) :=
  match depth with
  | O => None
  | S d =>
      match find s st with
      | Some sc =>
          match scope_store sc !! name with
          | Some entry => Some (s, entry)
          | None =>
              match scope_parent sc with
              | Some p => resolve d p name st
              | None => None
              end
          end
      | None => None
      end
  end.

Definition Get (s : nat) (name : string) (st : State) : option Object :=
  match resolve (S (next st)) s name st with
  | Some (_, (v, _)) => Some v
  | None => None
  end.

(** Modelled from the spec: [assign(name, value) ->
    ok|UndeclaredOrConstError]; assign walks the parent chain. *)
Definition Update (s : nat) (name : string) (value : Object) : M (option string) :=
  fun st => match resolve (S (next st)) s name st with
            | Some (d, (_, true)) =>
                Done (Some ("name error: " +:+ name +:+ " is a constant")) st
            | Some (d, (_, false)) =>
                match find d st with
                | Some sc =>
                    Done None
                      (set_heap (<[d := CScope (with_store sc (<[name := (value, false)]> (scope_store sc)))]> (heap st)) st)
                | None => Panic "nil pointer dereference"
                end
            | None => Done (Some ("name error: " +:+ name +:+ " is not defined")) st
            end.

End scope.

(** Modelled from the spec: the execution stack is an ordered sequence of
    statement frames (statement and its scope), pushed on statement
    dispatch (package stack is not among the sources). *)
Definition TrackStatement (stk : nat) (statement : Node) (s : nat) : M unit :=
  fun st => match heap st !! stk with
            | Some (CStack frames) =>
                Done tt (set_heap (<[stk := CStack (frames ++ [(statement, s)])]> (heap st)) st)
            | _ => Panic "nil pointer dereference"
            end.

(** Modelled from the spec: the iterator protocol [Next() -> (entry,
    hasMore)]; an entry exposes [Key()] and [Value()]. *)
Definition Next (it : nat) : M (option (Object * Object)) :=
  fun st => match heap st !! it with
            | Some (CIter []) => Done None st
            | Some (CIter (entry :: rest)) =>
                Done (Some entry) (set_heap (<[it := CIter rest]> (heap st)) st)
            | _ => Panic "nil pointer dereference"
            end.

(** ** Builtin function objects (object/builtin.go) *)

Module builtin.

Definition deref (b : nat) : M object.BuiltinStruct :=
  fun st => match heap st !! b with
            | Some (CBuiltin r) => Done r st
            | _ => Panic "nil pointer dereference"
            end.

Definition BUILTIN : string := "builtin".

Definition Type_ (b : nat) : string := BUILTIN.

Definition Value (b : nat) : M nat :=
  do r <- deref b; ret (object.fn r).

Definition IsErrorHandler (b : nat) : M bool :=
  do r <- deref b; ret (object.isErrorHandler r).

(** [b.fn(ctx, args...)]; [callGo] runs the Go function a code pointer
    names. *)
Definition Call (callGo : nat -> Context -> list Object -> M Object)
    (b : nat) (ctx : Context) (args : list Object) : M Object :=
  do r <- deref b; callGo (object.fn r) ctx args.

Definition Inspect (b : nat) : M string :=
  do r <- deref b;
  match object.module r with
  | None => ret ("builtin(" +:+ object.name r +:+ ")")
  | Some m => ret ("builtin(" +:+ m +:+ "." +:+ object.name r +:+ ")")
  end.

Definition String (b : nat) : M string := Inspect b.

Definition Name (b : nat) : M string :=
  do r <- deref b; ret (object.name r).

(** A string that uniquely identifies this builtin function. *)
Definition Key (b : nat) : M string :=
  do r <- deref b;
  match object.module r with
  | None =>
      if decide (object.moduleName r = EmptyString) then ret (object.name r)
      else ret (object.moduleName r +:+ "." +:+ object.name r)
  | Some m =>
      if decide (object.moduleName r = EmptyString)
      then ret (m +:+ "." +:+ object.name r)
      else ret (object.moduleName r +:+ "." +:+ object.name r)
  end.

(** [b == other]: the receiver pointer against the interface value; they
    are equal when [other] holds a [*Builtin] and it is the same pointer. *)
Definition Equals (b : nat) (other : Object) : Object :=
  match other with
  | object.Builtin q => if decide (b = q) then object.Bool true else object.Bool false
  | _ => object.Bool false
  end.

Definition RunOperation (b : nat) (opType : string) (right : Object) : M Object :=
  NewError ("eval error: unsupported operation for builtin: " +:+ opType).

Definition NewBuiltin (name : string) (fn : nat) : M nat :=
  alloc (CBuiltin {| object.fn := fn; object.name := name;
                     object.module := None; object.moduleName := EmptyString;
                     object.isErrorHandler := false; object.doc := None |}).

Definition NewErrorHandler (name : string) (fn : nat) : M nat :=
  do b <- NewBuiltin name fn;
  do r <- deref b;
  fun st =>
    Done b (set_heap (<[b := CBuiltin
      {| object.fn := object.fn r; object.name := object.name r;
         object.module := object.module r;
         object.moduleName := object.moduleName r;
         object.isErrorHandler := true; object.doc := object.doc r |}]> (heap st)) st).

End builtin.

(** ** What the evaluator takes from the rest of the repository *)

Definition Eval : Type := Evaluator -> Context -> Node -> nat -> M Object.

(** The capability contracts of runtime values, the ast predicates and
    the evaluator methods that are not among the sources.  An evaluator
    method receives the dispatcher it recurses with.  [Scanln] is
    [fmt.Scanln] on the standard input, where a stopping breakpoint waits
    for the operator: it returns when a line, or the end of the input,
    arrives, and has no outcome as long as none does.  [FormatFunction]
    is what the verb [%v] prints for the method value [Function] of a
    call expression. *)
Record Externs := {
  IsTruthy : Object -> bool;
  Equals : Object -> Object -> bool;
  Inspect : Object -> M string;
  TypeOf : Object -> string;
  AsContainer : Object -> option (M Object);
  callGo : nat -> Context -> list Object -> M Object;
  AsStatement : Node -> option Token;
  IsSimpleLoop : Node -> bool;
  IsIteratorLoop : Node -> bool;
  GlobalBuiltins : list nat;
  evalBlockStatement : Eval -> Evaluator -> Context -> list Node -> nat -> M Object;
  evalExpressions : Eval -> Evaluator -> Context -> list Node -> nat -> M (list Object);
  applyFunction : Eval -> Evaluator -> Context -> nat -> Object -> list Object -> M Object;
  evalObjectCall : Eval -> Evaluator -> Context -> nat -> Object -> string -> list Object -> M Object;
  evalOther : Eval -> Evaluator -> Context -> Node -> nat -> M Object;
  Scanln : M unit;
  FormatFunction : Node -> string
}.

(** [fmt.Sprintf("%s:%d", file, line)] *)
Definition location (file : string) (line : Z) : string :=
  file +:+ ":" +:+ pretty line.

(** Modelled from the spec: [break] and [continue] carry no payload,
    [return] carries its value (object.NewBreak, NewContinue and NewReturn
    are not among the sources). *)
Definition NewBreak : Object := object.Control "break" object.GoNil.
Definition NewContinue : Object := object.Control "continue" object.GoNil.
Definition NewReturn (v : Object) : Object := object.Control "return" v.

(** [append(slice, nil)], [copy(slice[1:], slice)], [slice[0] = obj] *)
Definition prependObject (slice : list Object) (obj : Object) : list Object :=
  let slice1 := slice ++ [object.GoNil] in
  let slice2 := take 1 slice1 ++ take (length slice1 - 1) slice1 in
  <[0%nat := obj]> slice2.

Definition GetBreakpoint (e : Evaluator) (tok : Token) : option nat :=
  if decide (size (breakpoints e) = 0%nat) then None
  else breakpoints e !! location (tok_file tok) (tok_line tok).

Definition derefBreakpoint (p : nat) : M Breakpoint :=
  fun st => match heap st !! p with
            | Some (CBreakpoint b) => Done b st
            | _ => Panic "nil pointer dereference"
            end.

(** Modelled from the spec: the frames of the execution stack, which
    [e.stack.String()] prints, and its top frame, [e.stack.Top()], the
    frame pushed last. *)
Definition Frames (stk : nat) : M (list (Node * nat)) :=
  fun st => match heap st !! stk with
            | Some (CStack frames) => Done frames st
            | _ => Panic "nil pointer dereference"
            end.

Definition Top (stk : nat) : M (Node * nat) :=
  do frames <- Frames stk;
  match last frames with
  | Some frame => ret frame
  | None => panic "nil pointer dereference"
  end.

(** Modelled from the spec: the entries of one scope, which
    [frame.Scope().Contents()] and [frame.Scope().Keys()] read. *)
Definition Contents (s : nat) : M (gmap string (Object * bool)) :=
  fun st => match scope.find s st with
            | Some sc => Done (scope_store sc) st
            | None => Panic "nil pointer dereference"
            end.

(** The prints of one step of the debugging channel are one event of the
    log; with [Stop] the evaluation waits in [Scanln] for the operator. *)
Definition trackExecution (X : Externs) (e : Evaluator) (statement : Node)
    (tok : Token) (s : nat) : M Object :=
  run TrackStatement (stack e) statement s;
  match GetBreakpoint e tok with
  | Some p =>
      do b <- derefBreakpoint p;
      if negb (Disabled b)
      then
        run modify (emit (EvBreakpoint (location (tok_file tok) (tok_line tok)) b));
        run (if Trace b
             then do frames <- Frames (stack e); modify (emit (EvTrace frames))
             else ret tt);
        run (if Stop b
             then do frame <- Top (stack e);
                  do contents <- Contents frame.2;
                  run modify (emit (EvLocals contents));
                  run Scanln X;
                  modify (emit EvContinuing)
             else ret tt);
        ret object.GoNil
      else ret object.GoNil
  | None => ret object.GoNil
  end.

Definition getCallFunc (e : Evaluator) : Evaluator := e.

Definition WithCallFunc (ctx : Context) (f : Evaluator) : Context :=
  {| ctx_err := ctx_err ctx; ctx_call := Some f |}.

(** ** The evaluator (core/evaluator) *)

Section Evaluator.

Variable X : Externs.

(** *** New (evaluator.go) *)

Fixpoint registerBuiltins (bs : list nat) (m : gmap string nat)
  : M (gmap string nat) :=
  match bs with
  | [] => ret m
  | b :: rest => do k <- builtin.Key b; registerBuiltins rest (<[k := b]> m)
  end.

(** [for _, b := range opts.Breakpoints { e.breakpoints[key] = &b }]: the
    sources are written for the Go in which a range clause declares one
    variable [b] for the whole loop; [pb] is its address, each iteration
    assigns the next element to it, and the map receives [&b]. *)
Fixpoint indexBreakpoints (pb : nat) (bs : list Breakpoint) (m : gmap string nat)
  : M (gmap string nat) :=
  match bs with
  | [] => ret m
  | x :: rest =>
      run modify (fun st => set_heap (<[pb := CBreakpoint x]> (heap st)) st);
      indexBreakpoints pb rest (<[location (File x) (Line x) := pb]> m)
  end.

Definition zeroBreakpoint : Breakpoint :=
  {| File := EmptyString; Line := 0; Disabled := false; Trace := false; Stop := false |}.

Definition New (opts : Opts) : M Evaluator :=
  do stk <- alloc (CStack []);
  do bi <- (if DisableDefaultBuiltins opts then ret ∅
            else registerBuiltins (GlobalBuiltins X) ∅);
  do bi <- registerBuiltins (Builtins opts) bi;
  do pb <- alloc (CBreakpoint zeroBreakpoint);
  do bp <- indexBreakpoints pb (Breakpoints opts) ∅;
  ret {| importer := Importer opts; builtins := bi; stack := stk;
         breakpoints := bp |}.

Definition emptyOpts : Opts :=
  {| Importer := None; DisableDefaultBuiltins := false; Builtins := [];
     Breakpoints := [] |}.

(** *** The constructs, over the dispatcher [E] they recurse with *)

Section Constructs.

Variable E : Eval.
Variable e : Evaluator.
Variable ctx : Context.

Definition evalIf (condition consequence alternative : Node) (s : nat)
  : M Object :=
  do condition <- E e ctx condition s;
  if object.IsError condition then ret condition else
  do truthy <- method condition (IsTruthy X);
  if truthy then E e ctx consequence s
  else match alternative with
       | ast.GoNil => ret object.Nil
       | _ => E e ctx alternative s
       end.

(** The loops take the number of iterations they may still start. *)
Fixpoint evalSimpleForLoop (k : nat) (consequence : Node) (s : nat)
    (latestValue : Object) : M Object :=
  match k with
  | O => outOfFuel
  | S k' =>
      run scope.Clear s;
      do result <- E e ctx consequence s;
      match result with
      | object.Error _ _ => ret result
      | object.Control keyword _ =>
          if decide (keyword = "break") then ret latestValue
          else if decide (keyword = "continue")
               then evalSimpleForLoop k' consequence s latestValue
          else if decide (keyword = "return") then ret result
          else evalSimpleForLoop k' consequence s result
      | _ => evalSimpleForLoop k' consequence s result
      end
  end.

Fixpoint iteratorLoop (k : nat) (iterator : nat) (names : list string)
    (consequence : Node) (s : nat) (latestValue : Object) : M Object :=
  match k with
  | O => outOfFuel
  | S k' =>
      run scope.Clear s;
      do entry <- Next iterator;
      match entry with
      | None => ret latestValue
      | Some (key, value) =>
          match names with
          | [] => panic "index out of range"
          | name0 :: others =>
              do err <- scope.declare s name0 key false;
              match err with
              | Some err => NewError err
              | None =>
                  do err <- match others with
                            | name1 :: _ => scope.declare s name1 value false
                            | [] => ret None
                            end;
                  match err with
                  | Some err => NewError err
                  | None =>
                      do rt <- E e ctx consequence s;
                      match rt with
                      | object.Error _ _ => ret rt
                      | object.Control keyword _ =>
                          if decide (keyword = "break") then ret latestValue
                          else if decide (keyword = "return") then ret rt
                          else iteratorLoop k' iterator names consequence s latestValue
                      | _ => iteratorLoop k' iterator names consequence s rt
                      end
                  end
              end
          end
      end
  end.

Definition evalIteratorForLoop (k : nat) (condition consequence : Node)
    (s : nat) : M Object :=
  let latestValue := object.Nil in
  match (match condition with
         | ast.Var name expr => Some ([name] : list string, expr)
         | ast.MultiVar names expr => Some (names, expr)
         | _ => None
         end) with
  | None => Errorf "eval error: invalid for loop condition"
  | Some (names, iterExpr) =>
      if ((length names <? 1) || (2 <? length names))%nat
      then Errorf "eval error: invalid for loop condition"
      else
        do iterObj <- E e ctx iterExpr s;
        if object.IsError iterObj then ret iterObj else
        match iterObj with
        | object.Iter iterator =>
            iteratorLoop k iterator names consequence s latestValue
        | _ =>
            do ty <- method iterObj (TypeOf X);
            Errorf ("eval error: cannot iterate over " +:+ ty)
        end
  end.

Fixpoint forLoop (k : nat) (condition consequence post : Node)
    (forScope loopScope : nat) (latestValue : Object) : M Object :=
  match k with
  | O => outOfFuel
  | S k' =>
      run scope.Clear loopScope;
      do condition' <- E e ctx condition forScope;
      if object.IsError condition' then ret condition' else
      do truthy <- method condition' (IsTruthy X);
      if truthy then
        do rt <- E e ctx consequence loopScope;
        let continue latestValue :=
          match post with
          | ast.GoNil =>
              forLoop k' condition consequence post forScope loopScope latestValue
          | _ =>
              do res <- E e ctx post forScope;
              if object.IsError res then ret res
              else forLoop k' condition consequence post forScope loopScope latestValue
          end in
        match rt with
        | object.Error _ _ => ret rt
        | object.Control keyword _ =>
            if decide (keyword = "break") then ret latestValue
            else if decide (keyword = "return") then ret rt
            else continue latestValue
        | _ => continue rt
        end
      else ret latestValue
  end.

Definition evalFor (k : nat) (fle : Node) (init condition consequence post : Node)
    (s : nat) : M Object :=
  do forScope <- scope.NewChild s "for";
  do loopScope <- scope.NewChild forScope "for-loop";
  do early <- match init with
              | ast.GoNil => ret None
              | _ => do res <- E e ctx init forScope;
                     if object.IsError res then ret (Some res) else ret None
              end;
  match early with
  | Some res => ret res
  | None =>
      if IsSimpleLoop X fle then
        evalSimpleForLoop k consequence loopScope object.Nil
      else if IsIteratorLoop X fle then
        evalIteratorForLoop k condition consequence loopScope
      else
        forLoop k condition consequence post forScope loopScope object.Nil
  end.

(** The two loops of [evalSwitch]; [rest] is what runs when the loop
    falls through. *)
Fixpoint switchExpressions (value : Object) (exprs : list Node)
    (block : list Node) (s : nat) (rest : M Object) : M Object :=
  match exprs with
  | [] => rest
  | val :: exprs' =>
      do out <- E e ctx val s;
      if object.IsError out then ret out
      else if Equals X value out then evalBlockStatement X E e ctx block s
      else switchExpressions value exprs' block s rest
  end.

Fixpoint switchChoices (value : Object) (choices : list ast.Case) (s : nat)
    (rest : M Object) : M Object :=
  match choices with
  | [] => rest
  | opt :: more =>
      if ast.IsDefault opt then switchChoices value more s rest
      else switchExpressions value (ast.Expressions opt) (ast.CaseBlock opt) s
             (switchChoices value more s rest)
  end.

Fixpoint switchDefault (choices : list ast.Case) (s : nat) : M Object :=
  match choices with
  | [] => ret object.Nil
  | opt :: more =>
      if ast.IsDefault opt then evalBlockStatement X E e ctx (ast.CaseBlock opt) s
      else switchDefault more s
  end.

Definition evalSwitch (value : Node) (choices : list ast.Case) (s : nat)
  : M Object :=
  do value <- E e ctx value s;
  if object.IsError value then ret value
  else switchChoices value choices s (switchDefault choices s).

(** The call arguments of a pipe stage; [inl] is the early return. *)
Definition pipeArguments (arguments : list Node) (s : nat)
  : M (Object + list Object) :=
  if (0 <? length arguments)%nat then
    do args <- evalExpressions X E e ctx arguments s;
    match args with
    | [a] => if object.IsError a then ret (inl a) else ret (inr args)
    | _ => ret (inr args)
    end
  else ret (inr []).

Definition pipePrepend (args : list Object) (nextArg : Object) : list Object :=
  match nextArg with
  | object.GoNil => args
  | _ => prependObject args nextArg
  end.

(** One turn of the loop of [evalPipe] over [exprs[1:]]: [inl] is what
    [evalPipe] returns at once, [inr] the next [nextArg]. *)
Definition pipeStage (i : nat) (expr : Node) (s : nat) (nextArg : Object)
  : M (Object + Object) :=
  match expr with
  | ast.Call function arguments =>
      do function <- E e ctx function s;
      if object.IsError function then ret (inl function) else
      do resolved <- pipeArguments arguments s;
      match resolved with
      | inl err => ret (inl err)
      | inr args =>
          let args := pipePrepend args nextArg in
          do res <- applyFunction X E e ctx s function args;
          if object.IsError res then ret (inl res) else ret (inr res)
      end
  | ast.ObjectCall obj call =>
      do obj <- E e ctx obj s;
      if object.IsError obj then ret (inl obj) else
      match call with
      | ast.Call function arguments =>
          do resolved <- pipeArguments arguments s;
          match resolved with
          | inl err => ret (inl err)
          | inr args =>
              let args := pipePrepend args nextArg in
              match function with
              | ast.Ident literal =>
                  do res <- evalObjectCall X E e ctx s obj literal args;
                  if object.IsError res then ret (inl res) else ret (inr res)
              | _ =>
                  do err <- Errorf ("invalid function in pipe expression: "
                                    +:+ FormatFunction X call);
                  ret (inl err)
              end
          end
      | _ => panic "interface conversion: not *ast.Call"
      end
  | _ =>
      do obj <- E e ctx expr s;
      if object.IsError obj then ret (inl obj) else
      match obj with
      | object.Function _ | object.Builtin _ =>
          let args := match nextArg with
                      | object.GoNil => []
                      | _ => [nextArg]
                      end in
          do res <- applyFunction X E e ctx s obj args;
          if object.IsError res then ret (inl res) else ret (inr res)
      | _ =>
          if decide (i = 0%nat) then ret (inr obj)
          else
            do ty <- method obj (TypeOf X);
            do err <- Errorf ("type error: unexpected " +:+ ty +:+ " object in pipe expression");
            ret (inl err)
      end
  end.

Fixpoint pipeStages (i : nat) (stages : list Node) (s : nat) (nextArg : Object)
  : M Object :=
  match stages with
  | [] => match nextArg with
          | object.GoNil => ret object.Nil
          | _ => ret nextArg
          end
  | expr :: more =>
      do r <- pipeStage i expr s nextArg;
      match r with
      | inl result => ret result
      | inr nextArg' => pipeStages (S i) more s nextArg'
      end
  end.

Definition evalPipe (exprs : list Node) (s : nat) : M Object :=
  if (length exprs <? 2)%nat then
    Errorf ("eval error: invalid pipe expression (got only "
            +:+ pretty (length exprs) +:+ " arguments)")
  else
    match exprs with
    | [] => panic "index out of range"
    | first :: stages =>
        do nextArg <- E e ctx first s;
        if object.IsError nextArg then ret nextArg
        else pipeStages 0 stages s nextArg
    end.

Definition evalControl (literal : string) (nodeVal : Node) (s : nat) : M Object :=
  if decide (literal = "break") then ret NewBreak
  else if decide (literal = "continue") then ret NewContinue
  else if decide (literal = "return") then
    match nodeVal with
    | ast.GoNil => ret (NewReturn object.Nil)
    | _ =>
        do value <- E e ctx nodeVal s;
        if object.IsError value then ret value else ret (NewReturn value)
    end
  else Errorf ("eval error: invalid control keyword: " +:+ literal).

Definition upwrapReturnValue (obj : Object) : Object :=
  match obj with
  | object.Control _ value => value
  | _ => obj
  end.

Definition evalRange (container : Node) (s : nat) : M Object :=
  do value <- E e ctx container s;
  if object.IsError value then ret value else
  match (match value with
         | object.GoNil => None
         | _ => AsContainer X value
         end) with
  | Some iter => iter
  | None =>
      do ty <- method value (TypeOf X);
      Errorf ("type error: " +:+ ty +:+ " is not a container")
  end.

(** *** String templates (evalStringLiteral) *)

Definition inspect (obj : Object) : M string :=
  match obj with
  | object.GoNil => panic "nil pointer dereference"
  | _ => Inspect X obj
  end.

Fixpoint templateFragments (fragments : list ast.Fragment) (exprs : list Node)
    (exprIndex : nat) (parts : list string) (s : nat) : M Object :=
  match fragments with
  | [] => ret (object.String (String.concat EmptyString parts))
  | f :: rest =>
      if ast.IsVariable f then
        match exprs !! exprIndex with
        | None => panic "index out of range"
        | Some expr =>
            let exprIndex := S exprIndex in
            match expr with
            | ast.GoNil => templateFragments rest exprs exprIndex (parts ++ [EmptyString]) s
            | _ =>
                do fresh <- New emptyOpts;
                do obj <- E fresh ctx expr s;
                match obj with
                | object.Error _ _ => ret obj
                | object.String value =>
                    templateFragments rest exprs exprIndex (parts ++ [value]) s
                | _ =>
                    do text <- inspect obj;
                    templateFragments rest exprs exprIndex (parts ++ [text]) s
                end
            end
        end
      else templateFragments rest exprs exprIndex (parts ++ [ast.Value f]) s
  end.

Definition evalStringLiteral (value : string)
    (template : option (list ast.Fragment)) (templateExpressions : list Node)
    (s : nat) : M Object :=
  match template with
  | None => ret (object.String value)
  | Some fragments => templateFragments fragments templateExpressions 0 [] s
  end.

End Constructs.

(** *** The dispatcher (Evaluate) *)

Fixpoint Evaluate (fuel : nat) (e : Evaluator) (ctx : Context) (node : Node)
    (s : nat) : M Object :=
  match fuel with
  | O => outOfFuel
  | S n =>
      let ctx := WithCallFunc ctx (getCallFunc e) in
      match ctx_err ctx with
      | Some err => NewError err
      | None =>
          do result <- match (match node with
                              | ast.GoNil => None
                              | _ => AsStatement X node
                              end) with
                       | Some tok => trackExecution X e node tok s
                       | None => ret object.GoNil
                       end;
          match result with
          | object.GoNil =>
              run modify (emit (EvEval node s));
              match node with
              | ast.Program _ => evalOther X (Evaluate n) e ctx node s
              | ast.Block statements =>
                  evalBlockStatement X (Evaluate n) e ctx statements s
              | ast.Prefix _ _ | ast.Postfix _ _ | ast.Infix _ _ _
              | ast.Ternary _ _ _ | ast.In _ _ =>
                  evalOther X (Evaluate n) e ctx node s
              | ast.Ident _ | ast.Index _ _ | ast.Slice _ _ _ =>
                  evalOther X (Evaluate n) e ctx node s
              | ast.Bool value => ret (object.Bool value)
              | ast.ImportStmt _ => evalOther X (Evaluate n) e ctx node s
              | ast.Var _ _ | ast.Const _ _ | ast.Assign _ _ _
              | ast.MultiVar _ _ =>
                  evalOther X (Evaluate n) e ctx node s
              | ast.Func _ _ => evalOther X (Evaluate n) e ctx node s
              | ast.ObjectCall _ _ | ast.Call _ _ | ast.GetAttr _ _ =>
                  evalOther X (Evaluate n) e ctx node s
              | ast.If condition consequence alternative =>
                  evalIf (Evaluate n) e ctx condition consequence alternative s
              | ast.For init condition consequence post =>
                  evalFor (Evaluate n) e ctx n node init condition consequence post s
              | ast.Switch value choices =>
                  evalSwitch (Evaluate n) e ctx value choices s
              | ast.Pipe exprs => evalPipe (Evaluate n) e ctx exprs s
              | ast.Control literal value =>
                  evalControl (Evaluate n) e ctx literal value s
              | ast.Range container => evalRange (Evaluate n) e ctx container s
              | ast.Nil => ret object.Nil
              | ast.Int value => ret (object.Int value)
              | ast.Float bits => ret (object.Float bits)
              | ast.String value template templateExpressions =>
                  evalStringLiteral (Evaluate n) ctx value template
                    templateExpressions s
              | ast.List _ | ast.Map _ | ast.SetLit _ =>
                  evalOther X (Evaluate n) e ctx node s
              | ast.GoNil => panic "unknown ast node type"
              end
          | _ => ret result
          end
      end
  end.

End Evaluator.

(** ** The parts of the repository the examples run on

    The sources at hand hold the dispatcher and the control constructs.
    The examples of the specification also need blocks, identifiers,
    declarations, integer arithmetic and calls; these are modelled here, as
    small as the examples need them. *)

Module Std.

(** Modelled from the spec: every value type defines its own truthiness;
    only booleans and nil are needed. *)
Definition IsTruthy (o : Object) : bool :=
  match o with
  | object.Bool b => b
  | object.Nil => false
  | _ => true
  end.

(** Modelled from the spec: structural equality of values; on a builtin
    receiver it is the [Equals] method of object/builtin.go. *)
Definition Equals (a b : Object) : bool :=
  match a, b with
  | object.Nil, object.Nil => true
  | object.Bool x, object.Bool y => bool_decide (x = y)
  | object.Int x, object.Int y => bool_decide (x = y)
  | object.String x, object.String y => bool_decide (x = y)
  | object.Builtin p, _ =>
      match builtin.Equals p b with
      | object.Bool r => r
      | _ => false
      end
  | object.Function p, object.Function q => bool_decide (p = q)
  | _, _ => false
  end.

Definition quote : string := String (Ascii.ascii_of_nat 34) EmptyString.

(** Modelled from the spec: the human-readable representation of a value;
    for a builtin it is the [Inspect] method of object/builtin.go. *)
Definition Inspect (o : Object) : M string :=
  match o with
  | object.Nil => ret "nil"
  | object.Bool true => ret "true"
  | object.Bool false => ret "false"
  | object.Int z => ret (pretty z)
  | object.String s => ret (quote +:+ s +:+ quote)
  | object.Builtin p => builtin.Inspect p
  | _ => ret "object"
  end.

Definition TypeOf (o : Object) : string :=
  match o with
  | object.Nil => "nil"
  | object.Bool _ => "bool"
  | object.Int _ => "int"
  | object.Float _ => "float"
  | object.String _ => "string"
  | object.Error _ _ => "error"
  | object.Control _ _ => "control"
  | object.Function _ => "function"
  | object.Builtin _ => builtin.BUILTIN
  | object.Iter _ => "iterator"
  | object.Opaque ty _ => ty
  | object.GoNil => EmptyString
  end.

(** Modelled from the spec: an iterable container exposes
    [Iter() -> Iterator]; a list hands out a fresh iterator over its
    entries. *)
Definition AsContainer (o : Object) : option (M Object) :=
  match o with
  | object.Opaque ty p =>
      if decide (ty = "list") then
        Some (fun st => match heap st !! p with
                        | Some (CIter entries) =>
                            (do q <- alloc (CIter entries); ret (object.Iter q)) st
                        | _ => Panic "nil pointer dereference"
                        end)
      else None
  | _ => None
  end.

(** A 64-bit signed integer result. *)
Definition wrap64 (z : Z) : Z := (z + 2 ^ 63) mod 2 ^ 64 - 2 ^ 63.

(** The Go functions the example builtins wrap: [1] is [sub(a, b) = a - b],
    [2] is [error()], which makes an error value, [3] is a Go function
    that returns the nil interface. *)
Definition callGo (fn : nat) (ctx : Context) (args : list Object) : M Object :=
  match fn with
  | 1%nat =>
      match args with
      | [object.Int a; object.Int b] => ret (object.Int (wrap64 (a - b)))
      | _ => Errorf "type error: sub() takes two integers"
      end
  | 2%nat => Errorf "error"
  | 3%nat => ret object.GoNil
  | _ => panic "unknown Go function"
  end.

(** Nodes carry no position here; every statement starts at main:1. *)
Definition AsStatement (node : Node) : option Token :=
  match node with
  | ast.Var _ _ | ast.Const _ _ | ast.Assign _ _ _ | ast.MultiVar _ _
  | ast.Control _ _ | ast.Block _ | ast.Postfix _ _ | ast.ImportStmt _ =>
      Some {| tok_file := "main"; tok_line := 1 |}
  | _ => None
  end.

(** Modelled from the spec: the simple form is [for { ... }], the
    iterator form binds one or two names to a range. *)
Definition IsSimpleLoop (fle : Node) : bool :=
  match fle with
  | ast.For _ ast.GoNil _ _ => true
  | _ => false
  end.

Definition IsIteratorLoop (fle : Node) : bool :=
  match fle with
  | ast.For _ (ast.Var _ (ast.Range _)) _ _
  | ast.For _ (ast.MultiVar _ (ast.Range _)) _ _ => true
  | _ => false
  end.

Section Methods.

Variable E : Eval.
Variable e : Evaluator.
Variable ctx : Context.

(** Modelled from the spec: a block runs its statements in order and
    relays an Error or a Control signal at once. *)
Fixpoint blockStatements (statements : list Node) (s : nat) (result : Object)
  : M Object :=
  match statements with
  | [] => ret result
  | statement :: rest =>
      do r <- E e ctx statement s;
      match r with
      | object.Error _ _ | object.Control _ _ => ret r
      | _ => blockStatements rest s r
      end
  end.

Definition evalBlockStatement (statements : list Node) (s : nat) : M Object :=
  blockStatements statements s object.GoNil.

(** Modelled from the spec: the explicit arguments are evaluated in their
    declared order; an Error ends the evaluation and is the only element
    of the result. *)
Fixpoint evalExpressions (exps : list Node) (s : nat) : M (list Object) :=
  match exps with
  | [] => ret []
  | x :: rest =>
      do v <- E e ctx x s;
      if object.IsError v then ret [v]
      else
        do vs <- evalExpressions rest s;
        match vs with
        | [object.Error _ _ as err] => ret [err]
        | _ => ret (v :: vs)
        end
  end.

Fixpoint declareParams (s : nat) (params : list string) (args : list Object)
  : M (option string) :=
  match params, args with
  | [], [] => ret None
  | p :: ps, a :: rest =>
      do err <- scope.declare s p a false;
      match err with
      | Some _ => ret err
      | None => declareParams s ps rest
      end
  | _, _ => ret (Some "type error: wrong number of arguments")
  end.

(** Modelled from the spec: invoking a callable; a builtin runs its Go
    function, a user function runs its body in a child of its defining
    scope, where a return signal is consumed. *)
Definition applyFunction (s : nat) (fn : Object) (args : list Object)
  : M Object :=
  match fn with
  | object.Builtin p => builtin.Call callGo p ctx args
  | object.Function p =>
      do st <- get;
      match heap st !! p with
      | Some (CFunction params body defScope) =>
          do child <- scope.NewChild defScope "function";
          do err <- declareParams child params args;
          match err with
          | Some err => NewError err
          | None =>
              do r <- evalBlockStatement body child;
              ret (upwrapReturnValue r)
          end
      | _ => panic "nil pointer dereference"
      end
  | _ =>
      do ty <- method fn TypeOf;
      Errorf ("type error: " +:+ ty +:+ " is not callable")
  end.

Definition evalObjectCall (s : nat) (obj : Object) (name : string)
    (args : list Object) : M Object :=
  Errorf ("attribute error: no method " +:+ name).

(** Modelled from the spec: lookup walks the scope chain; a name that no
    scope defines may name a builtin of the registry. *)
Definition evalIdentifier (name : string) (s : nat) : M Object :=
  do st <- get;
  match scope.Get s name st with
  | Some v => ret v
  | None =>
      match builtins e !! name with
      | Some p => ret (object.Builtin p)
      | None => Errorf ("name error: " +:+ name +:+ " is not defined")
      end
  end.

Definition intOperation (op : string) (a b : Z) : M Object :=
  if decide (op = "+") then ret (object.Int (wrap64 (a + b)))
  else if decide (op = "-") then ret (object.Int (wrap64 (a - b)))
  else if decide (op = "*") then ret (object.Int (wrap64 (a * b)))
  else if decide (op = "<") then ret (object.Bool (a <? b))
  else if decide (op = ">") then ret (object.Bool (b <? a))
  else if decide (op = "==") then ret (object.Bool (a =? b))
  else if decide (op = "!=") then ret (object.Bool (negb (a =? b)))
  else Errorf ("eval error: unsupported operation for int: " +:+ op).

Definition evalInfixExpression (lhs : Node) (op : string) (rhs : Node)
    (s : nat) : M Object :=
  do l <- E e ctx lhs s;
  if object.IsError l then ret l else
  do r <- E e ctx rhs s;
  if object.IsError r then ret r else
  match l, r with
  | object.Int a, object.Int b => intOperation op a b
  | _, _ => Errorf ("type error: unsupported operand types for " +:+ op)
  end.

(** Modelled from the spec: a declaration evaluates its expression and
    declares the name in the local scope; an assignment walks the chain. *)
Definition evalDeclaration (name : string) (expr : Node) (readOnly : bool)
    (s : nat) : M Object :=
  do v <- E e ctx expr s;
  if object.IsError v then ret v else
  do err <- scope.declare s name v readOnly;
  match err with
  | Some err => NewError err
  | None => ret object.Nil
  end.

Definition evalAssignStatement (name op : string) (expr : Node) (s : nat)
  : M Object :=
  if decide (op = "=") then
    do v <- E e ctx expr s;
    if object.IsError v then ret v else
    do err <- scope.Update s name v;
    match err with
    | Some err => NewError err
    | None => ret object.Nil
    end
  else Errorf ("eval error: unsupported assignment operator " +:+ op).

Definition evalCallExpression (function : Node) (arguments : list Node)
    (s : nat) : M Object :=
  do f <- E e ctx function s;
  if object.IsError f then ret f else
  do args <- evalExpressions arguments s;
  match args with
  | [object.Error _ _ as err] => ret err
  | _ => applyFunction s f args
  end.

(** Modelled from the spec: a list literal makes an iterable container;
    its entries are the indices and the elements. *)
Definition evalListLiteral (items : list Node) (s : nat) : M Object :=
  do vs <- evalExpressions items s;
  match vs with
  | [object.Error _ _ as err] => ret err
  | _ =>
      do p <- alloc (CIter (imap (fun i v => (object.Int (Z.of_nat i), v)) vs));
      ret (object.Opaque "list" p)
  end.

Definition evalOther (node : Node) (s : nat) : M Object :=
  match node with
  | ast.Program statements =>
      do r <- evalBlockStatement statements s;
      ret (upwrapReturnValue r)
  | ast.Ident name => evalIdentifier name s
  | ast.Infix lhs op rhs => evalInfixExpression lhs op rhs s
  | ast.Var name expr => evalDeclaration name expr false s
  | ast.Const name expr => evalDeclaration name expr true s
  | ast.Assign name op expr => evalAssignStatement name op expr s
  | ast.Func params body =>
      do p <- alloc (CFunction params body s);
      ret (object.Function p)
  | ast.Call function arguments => evalCallExpression function arguments s
  | ast.List items => evalListLiteral items s
  | _ => panic "node kind outside the examples"
  end.

End Methods.

(** The operator of the examples answers a stopping breakpoint at once. *)
Definition X : Externs :=
  Build_Externs IsTruthy Equals Inspect TypeOf AsContainer callGo
    AsStatement IsSimpleLoop IsIteratorLoop [1; 2; 3]%nat
    evalBlockStatement evalExpressions applyFunction
    (fun _ _ _ => evalObjectCall) evalOther (ret tt) (fun _ => "0x0").

End Std.

(** ** Running a program *)

Module Run.

Definition subBuiltin : object.BuiltinStruct :=
  {| object.fn := 1; object.name := "sub"; object.module := None;
     object.moduleName := EmptyString; object.isErrorHandler := false;
     object.doc := None |}.

Definition errorBuiltin : object.BuiltinStruct :=
  {| object.fn := 2; object.name := "error"; object.module := None;
     object.moduleName := EmptyString; object.isErrorHandler := false;
     object.doc := None |}.

Definition quietBuiltin : object.BuiltinStruct :=
  {| object.fn := 3; object.name := "quiet"; object.module := None;
     object.moduleName := EmptyString; object.isErrorHandler := false;
     object.doc := None |}.

Definition globalScope : Scope :=
  {| scope_name := "global"; scope_parent := None; scope_store := ∅ |}.

(** The global scope is cell 0, the global builtins are cells 1 to 3. *)
Definition initial : State :=
  {| heap := <[0%nat := CScope globalScope]>
             (<[1%nat := CBuiltin subBuiltin]>
             (<[2%nat := CBuiltin errorBuiltin]>
             (<[3%nat := CBuiltin quietBuiltin]> ∅)));
     next := 4;
     log := [] |}.

Definition background : Context := {| ctx_err := None; ctx_call := None |}.

Definition cancelled (cause : string) : Context :=
  {| ctx_err := Some cause; ctx_call := None |}.

(** A new evaluator, then the statements one after the other in the
    global scope; the outcome is that of the last one. *)
Fixpoint statements (fuel : nat) (e : Evaluator) (ctx : Context)
    (nodes : list Node) (last : Object) : M Object :=
  match nodes with
  | [] => ret last
  | node :: rest =>
      do r <- Evaluate Std.X fuel e ctx node 0;
      statements fuel e ctx rest r
  end.

Definition exec (fuel : nat) (nodes : list Node) : Outcome Object :=
  (do e <- New Std.X emptyOpts;
   statements fuel e background nodes object.GoNil) initial.

(** The evaluator [New] makes from the initial state, and the state that
    holds its stack. *)
Definition evaluator : Evaluator :=
  match New Std.X emptyOpts initial with
  | Done e _ => e
  | _ => {| importer := None; builtins := ∅; stack := 0; breakpoints := ∅ |}
  end.

Definition ready : State :=
  match New Std.X emptyOpts initial with
  | Done _ st => st
  | _ => initial
  end.

Definition value {A} (o : Outcome A) : option A :=
  match o with
  | Done a _ => Some a
  | _ => None
  end.

Definition final {A} (o : Outcome A) : option State :=
  match o with
  | Done _ st => Some st
  | _ => None
  end.

(** The state an outcome leaves. *)
Definition after {A} (o : Outcome A) : State :=
  match o with
  | Done _ st => st
  | _ => initial
  end.

Definition reached (r : option (Object * State)) : State :=
  match r with
  | Some (_, st) => st
  | None => initial
  end.

(** The nodes of the log that were dispatched in scope [s]. *)
Definition dispatched (st : State) : list (Node * nat) :=
  omap (fun ev => match ev with
                  | EvEval node s => Some (node, s)
                  | _ => None
                  end) (log st).

End Run.

(** ** Definitions the statements are written with *)

(** The breakpoint a lookup by [(file, line)] hands out, read through the
    pointer that [GetBreakpoint] returns. *)
Definition breakpointAt (X : Externs) (opts : Opts) (file : string) (line : Z)
  : M (option Breakpoint) :=
  do e <- New X opts;
  match GetBreakpoint e {| tok_file := file; tok_line := line |} with
  | Some p => do b <- derefBreakpoint p; ret (Some b)
  | None => ret None
  end.

(** The state left by an evaluation that only makes an error object. *)
Definition allocated (st : State) : State :=
  {| heap := heap st; next := S (next st); log := log st |}.

(** The two scopes [evalFor] makes, the outer "for" scope and the inner
    "for-loop" scope, and the state that holds them. *)
Definition forScope (st : State) : nat := next st.
Definition loopScope (st : State) : nat := S (next st).
Definition forEntered (s : nat) (st : State) : State :=
  {| heap := <[loopScope st := CScope {| scope_name := "for-loop";
                                          scope_parent := Some (forScope st);
                                          scope_store := ∅ |}]>
             (<[forScope st := CScope {| scope_name := "for";
                                         scope_parent := Some s;
                                         scope_store := ∅ |}]> (heap st));
     next := S (S (next st));
     log := log st |}.

(** The loop variables of the iterator form bound to an entry: the first
    name to the key, the second, when there is one, to the value. *)
Definition bindEntry (s : nat) (names : list string) (key value : Object)
  : M (option string) :=
  match names with
  | [] => panic "index out of range"
  | name0 :: others =>
      do err <- scope.declare s name0 key false;
      match err with
      | Some _ => ret err
      | None =>
          match others with
          | name1 :: _ => scope.declare s name1 value false
          | [] => ret None
          end
      end
  end.

(** *** The switch, as the specification words it *)

(** The candidate expressions of the non-default cases in their declared
    order, cases top to bottom, each with the block of its case. *)
Definition candidates (choices : list ast.Case) : list (Node * list Node) :=
  flat_map (fun opt =>
              if ast.IsDefault opt then []
              else map (fun c => (c, ast.CaseBlock opt)) (ast.Expressions opt))
           choices.

Fixpoint firstDefault (choices : list ast.Case) : option (list Node) :=
  match choices with
  | [] => None
  | opt :: more =>
      if ast.IsDefault opt then Some (ast.CaseBlock opt) else firstDefault more
  end.

Section SwitchSpec.

Variable X : Externs.
Variable E : Eval.
Variable e : Evaluator.
Variable ctx : Context.

(** The search for the first candidate equal to the subject: [inl] is the
    Error of a candidate, [inr (Some block)] the block of the first match,
    [inr None] no match. *)
Fixpoint firstMatch (value : Object) (cands : list (Node * list Node)) (s : nat)
  : M (Object + option (list Node)) :=
  match cands with
  | [] => ret (inr None)
  | (c, block) :: more =>
      do out <- E e ctx c s;
      if object.IsError out then ret (inl out)
      else if Equals X value out then ret (inr (Some block))
      else firstMatch value more s
  end.

Definition switchSpec (value : Node) (choices : list ast.Case) (s : nat)
  : M Object :=
  do subject <- E e ctx value s;
  if object.IsError subject then ret subject else
  do found <- firstMatch subject (candidates choices) s;
  match found with
  | inl err => ret err
  | inr (Some block) => evalBlockStatement X E e ctx block s
  | inr None =>
      match firstDefault choices with
      | Some block => evalBlockStatement X E e ctx block s
      | None => ret object.Nil
      end
  end.

(** The candidates [cands], evaluated one after the other from [st], are
    neither an Error nor equal to the subject; the result is the state
    they leave. *)
Fixpoint rejected (value : Object) (cands : list Node) (s : nat) (st : State)
  : option State :=
  match cands with
  | [] => Some st
  | c :: more =>
      match E e ctx c s st with
      | Done out st' =>
          if object.IsError out || Equals X value out then None
          else rejected value more s st'
      | _ => None
      end
  end.

End SwitchSpec.

(** *** Pipes *)

(** A stage that is not written as a call, and a value [evalPipe] invokes. *)
Definition isBare (expr : Node) : bool :=
  match expr with
  | ast.Call _ _ | ast.ObjectCall _ _ => false
  | _ => true
  end.

Definition isCallable (obj : Object) : bool :=
  match obj with
  | object.Function _ | object.Builtin _ => true
  | _ => false
  end.

(** The stages [pre] run one after the other from index [i]: [inl] is an
    early return of [evalPipe], [inr] the value piped out of them. *)
Fixpoint pipeThrough (X : Externs) (E : Eval) (e : Evaluator) (ctx : Context)
    (i : nat) (pre : list Node) (s : nat) (nextArg : Object)
  : M (Object + Object) :=
  match pre with
  | [] => ret (inr nextArg)
  | expr :: more =>
      do r <- pipeStage X E e ctx i expr s nextArg;
      match r with
      | inl result => ret (inl result)
      | inr nextArg' => pipeThrough X E e ctx (S i) more s nextArg'
      end
  end.

(** What a stage does with the outcome of its call. *)
Definition pipeResult (res : Object) : M (Object + Object) :=
  if object.IsError res then ret (inl res) else ret (inr res).

(** *** String templates, as the specification words them *)

Section TemplateSpec.

Variable X : Externs.
Variable E : Eval.
Variable ctx : Context.



End TemplateSpec.

(** *** The condition form of the for loop, iteration by iteration *)

(** What the result of the body does to the value of the loop: an ordinary
    value becomes the latest value, a control signal other than break and
    return (that is, continue) leaves the latest value as it is; [None]
    when the result ends the loop. *)
Definition latest (rt latestValue : Object) : option Object :=
  match rt with
  | object.Error _ _ => None
  | object.Control keyword _ =>
      if decide (keyword = "break") then None
      else if decide (keyword = "return") then None
      else Some latestValue
  | _ => Some rt
  end.

Section ForSpec.

Variable X : Externs.
Variable E : Eval.
Variable e : Evaluator.
Variable ctx : Context.

(** The post statement, evaluated in the outer scope when there is one;
    [None] when it gives an Error. *)
Definition afterPost (post : Node) (fs : nat) (st : State) : option State :=
  match post with
  | ast.GoNil => Some st
  | _ =>
      match E e ctx post fs st with
      | Done res st' => if object.IsError res then None else Some st'
      | _ => None
      end
  end.

(** [n] complete iterations: the loop scope is cleared, the condition is
    evaluated in the outer scope and is truthy, the body is evaluated in
    the loop scope and does not end the loop, the post statement is
    evaluated in the outer scope.  The result is the latest value and the
    state after them. *)
Fixpoint iterate (c body post : Node) (fs ls : nat) (n : nat)
    (latestValue : Object) (st : State) : option (Object * State) :=
  match n with
  | O => Some (latestValue, st)
  | S n' =>
      match scope.Clear ls st with
      | Done _ st1 =>
          match E e ctx c fs st1 with
          | Done cv st2 =>
              if object.IsError cv then None
              else match cv with
                   | object.GoNil => None
                   | _ =>
                       if IsTruthy X cv then
                         match E e ctx body ls st2 with
                         | Done rt st3 =>
                             match latest rt latestValue with
                             | Some lv =>
                                 match afterPost post fs st3 with
                                 | Some st4 => iterate c body post fs ls n' lv st4
                                 | None => None
                                 end
                             | None => None
                             end
                         | _ => None
                         end
                       else None
                   end
          | _ => None
          end
      | _ => None
      end
  end.

End ForSpec.

(** The number of times a block was dispatched in scope [s]. *)
Definition blockRuns (s : nat) (st : State) : nat :=
  length (List.filter (fun ev => match ev with
                                 | EvEval (ast.Block _) s' => Nat.eqb s' s
                                 | _ => false
                                 end) (log st)).

(** *** The loop scope *)

(** The state in which the local entries of scope [s] are [m]. *)
Definition withLocals (s : nat) (m : gmap string (Object * bool)) (st : State)
  : State :=
  match scope.find s st with
  | Some sc => set_heap (<[s := CScope (scope.with_store sc m)]> (heap st)) st
  | None => st
  end.

(** Case analysis on the innermost outcome a goal inspects. *)
Ltac case_outcome :=
  match goal with
  | |- context [match ?o with Done _ _ => _ | Panic _ => _ | OutOfFuel => _ end] =>
      lazymatch o with
      | context [match _ with Done _ _ => _ | Panic _ => _ | OutOfFuel => _ end] =>
          fail
      | _ => destruct o as [? ?| |] eqn:?; try reflexivity
      end
  end.

Ltac run_with H := unfold bind; rewrite H; simpl.
Ltac run_hyps :=
  unfold bind;
  repeat match goal with
         | H : ?m = Done _ _ |- context [?m] => rewrite H; simpl
         end.

(** * Further parts of the sources *)

(** ** The builtin registry and the breakpoint table of [New] *)

(** The key of the builtin at [b], when [b] points at a builtin. *)
Definition keyOf (st : State) (b : nat) : option string :=
  match builtin.Key b st with
  | Done k _ => Some k
  | _ => None
  end.

(** The state in which [New] has made the stack of the evaluator. *)
Definition stackAllocated (st : State) : State :=
  {| heap := <[next st := CStack []]> (heap st); next := S (next st);
     log := log st |}.

(** The builtins [New] registers, in the order in which it registers
    them: the defaults unless they are disabled, then the overrides. *)
Definition registered (X : Externs) (opts : Opts) : list nat :=
  (if DisableDefaultBuiltins opts then [] else GlobalBuiltins X)
  ++ Builtins opts.

(** No character of the text is a colon. *)
Definition colon : Ascii.ascii := Eval cbv in Ascii.ascii_of_nat 58.

Fixpoint NoColon (s : string) : Prop :=
  match s with
  | EmptyString => True
  | String c rest => c <> colon /\ NoColon rest
  end.

(** ** The debugging step of [trackExecution] *)

(** The state after the report of an enabled breakpoint [b] at [loc]: the
    banner, and the stack when the breakpoint traces. *)
Definition stepped (loc : string) (b : Breakpoint) (frames : list (Node * nat))
    (st : State) : State :=
  if Trace b then emit (EvTrace frames) (emit (EvBreakpoint loc b) st)
  else emit (EvBreakpoint loc b) st.

(** ** The simple form of the for loop, iteration by iteration *)

(** What the result of the body does to the value of the simple loop:
    [continue] leaves the latest value, every other result that does not
    end the loop becomes the latest value; [None] when the result ends the
    loop. *)
Definition latestSimple (result latestValue : Object) : option Object :=
  match result with
  | object.Error _ _ => None
  | object.Control keyword _ =>
      if decide (keyword = "break") then None
      else if decide (keyword = "continue") then Some latestValue
      else if decide (keyword = "return") then None
      else Some result
  | _ => Some result
  end.

(** [n] iterations of the simple loop that do not end it: the latest
    value and the state after them. *)
Fixpoint iterateSimple (E : Eval) (e : Evaluator) (ctx : Context)
    (body : Node) (s : nat) (n : nat) (latestValue : Object) (st : State)
  : option (Object * State) :=
  match n with
  | O => Some (latestValue, st)
  | S n' =>
      match scope.Clear s st with
      | Done _ st1 =>
          match E e ctx body s st1 with
          | Done result st2 =>
              match latestSimple result latestValue with
              | Some lv => iterateSimple E e ctx body s n' lv st2
              | None => None
              end
          | _ => None
          end
      | _ => None
      end
  end.

(** Normal form of string appends with a known head. *)
Ltac norm_append :=
  repeat (change (String.append EmptyString ?b) with b
          || change (String.append (String ?c ?a) ?b)
               with (String c (String.append a b))).

(** The key of a breakpoint in the table of the evaluator. *)
Definition locationOf (b : Breakpoint) : string := location (File b) (Line b).

(** The evaluator [New] makes, when it makes one. *)
Definition made (X : Externs) (opts : Opts) (st : State) : option Evaluator :=
  match New X opts st with
  | Done e _ => Some e
  | _ => None
  end.

(** The value of a loop whose body gave a result that ends it: the latest
    value on [break], the result itself on an Error and on [return]. *)
Definition loopExit (result latestValue : Object) : Object :=
  match result with
  | object.Control keyword _ =>
      if decide (keyword = "break") then latestValue else result
  | _ => result
  end.

Section ForExits.

Variable X : Externs.
Variable E : Eval.
Variable e : Evaluator.
Variable ctx : Context.

(** The ways out of the condition form, after [n] complete iterations: the
    condition is an Error or falsy, the body ends the loop, or the post
    statement is an Error. *)
Inductive ForExit (c body post : Node) (fs ls : nat) (lvn : Object)
    (stn : State) (r : Object) (st' : State) : Prop :=
| exit_condition_error st1 :
    scope.Clear ls stn = Done tt st1 ->
    E e ctx c fs st1 = Done r st' ->
    object.IsError r = true ->
    ForExit c body post fs ls lvn stn r st'
| exit_condition_falsy st1 cv :
    scope.Clear ls stn = Done tt st1 ->
    E e ctx c fs st1 = Done cv st' ->
    object.IsError cv = false -> cv <> object.GoNil -> IsTruthy X cv = false ->
    r = lvn ->
    ForExit c body post fs ls lvn stn r st'
| exit_body st1 cv st2 rt :
    scope.Clear ls stn = Done tt st1 ->
    E e ctx c fs st1 = Done cv st2 ->
    object.IsError cv = false -> cv <> object.GoNil -> IsTruthy X cv = true ->
    E e ctx body ls st2 = Done rt st' ->
    latest rt lvn = None ->
    r = loopExit rt lvn ->
    ForExit c body post fs ls lvn stn r st'
| exit_post_error st1 cv st2 rt st3 lv' :
    scope.Clear ls stn = Done tt st1 ->
    E e ctx c fs st1 = Done cv st2 ->
    object.IsError cv = false -> cv <> object.GoNil -> IsTruthy X cv = true ->
    E e ctx body ls st2 = Done rt st3 ->
    latest rt lvn = Some lv' ->
    post <> ast.GoNil ->
    E e ctx post fs st3 = Done r st' ->
    object.IsError r = true ->
    ForExit c body post fs ls lvn stn r st'.

End ForExits.

(** ** The range form of the for loop, entry by entry *)

Section RangeExits.

Variable E : Eval.
Variable e : Evaluator.
Variable ctx : Context.

(** [n] complete iterations of the range form: the loop scope is cleared,
    the iterator hands out an entry, the loop variables are declared, and
    the body gives a result that does not end the loop. *)
Fixpoint iterateEntries (iterator : nat) (names : list string) (body : Node)
    (s : nat) (n : nat) (latestValue : Object) (st : State)
  : option (Object * State) :=
  match n with
  | O => Some (latestValue, st)
  | S n' =>
      match scope.Clear s st with
      | Done _ st1 =>
          match Next iterator st1 with
          | Done (Some (key, value)) st2 =>
              match bindEntry s names key value st2 with
              | Done None st3 =>
                  match E e ctx body s st3 with
                  | Done rt st4 =>
                      match latest rt latestValue with
                      | Some lv =>
                          iterateEntries iterator names body s n' lv st4
                      | None => None
                      end
                  | _ => None
                  end
              | _ => None
              end
          | _ => None
          end
      | _ => None
      end
  end.

(** The ways out of the range form, after [n] complete iterations: the
    iterator has no more entries, a loop variable cannot be declared, or
    the body ends the loop. *)
Inductive RangeExit (iterator : nat) (names : list string) (body : Node)
    (s : nat) (lvn : Object) (stn : State) (r : Object) (st' : State) : Prop :=
| exit_exhausted st1 :
    scope.Clear s stn = Done tt st1 ->
    Next iterator st1 = Done None st' ->
    r = lvn ->
    RangeExit iterator names body s lvn stn r st'
| exit_declare st1 key value st2 st3 err :
    scope.Clear s stn = Done tt st1 ->
    Next iterator st1 = Done (Some (key, value)) st2 ->
    bindEntry s names key value st2 = Done (Some err) st3 ->
    r = object.Error (next st3) err ->
    st' = allocated st3 ->
    RangeExit iterator names body s lvn stn r st'
| exit_range_body st1 key value st2 st3 rt :
    scope.Clear s stn = Done tt st1 ->
    Next iterator st1 = Done (Some (key, value)) st2 ->
    bindEntry s names key value st2 = Done None st3 ->
    E e ctx body s st3 = Done rt st' ->
    latest rt lvn = None ->
    r = loopExit rt lvn ->
    RangeExit iterator names body s lvn stn r st'.

End RangeExits.

(** ** Templates *)

(** The number of variable fragments of a template. *)
Definition variables (fragments : list ast.Fragment) : nat :=
  length (List.filter ast.IsVariable fragments).

(** ** More of the builtin function objects (object/builtin.go) *)

Module Builtin.

(** What [GetAttr] hands out: an object of the language, or the
    documentation or the module of the builtin behind its pointer; the
    module is known by its name, as in [object.BuiltinStruct]. *)
Inductive Attr :=
| AttrObject (o : Object)
| AttrDoc (doc : nat)
| AttrModule (name : string).

Definition store (b : nat) (r : object.BuiltinStruct) : M unit :=
  modify (fun st => set_heap (<[b := CBuiltin r]> (heap st)) st).

(** [b.doc = doc; return b] *)
Definition WithDoc (b : nat) (doc : option nat) : M nat :=
  do r <- builtin.deref b;
  run store b {| object.fn := object.fn r; object.name := object.name r;
                 object.module := object.module r;
                 object.moduleName := object.moduleName r;
                 object.isErrorHandler := object.isErrorHandler r;
                 object.doc := doc |};
  ret b.

(** The pair [(Object, bool)] of the source is [Some] of the attribute
    when the flag is true and [None] when it is false. *)
Definition GetAttr (b : nat) (name : string) : M (option Attr) :=
  if decide (name = "__doc__") then
    do r <- builtin.deref b;
    match object.doc r with
    | None => ret (Some (AttrObject object.Nil))
    | Some doc => ret (Some (AttrDoc doc))
    end
  else if decide (name = "__name__") then
    do key <- builtin.Key b; ret (Some (AttrObject (object.String key)))
  else if decide (name = "__module__") then
    do r <- builtin.deref b;
    match object.module r with
    | Some m => ret (Some (AttrModule m))
    | None => ret (Some (AttrObject object.Nil))
    end
  else ret None.

(** [noop] names the function literal of the source, which returns the
    nil object. *)
Definition NewNoopBuiltin (noop : nat) (name : string) (module : option string)
  : M nat :=
  do b <- alloc (CBuiltin {| object.fn := noop; object.name := name;
                             object.module := module;
                             object.moduleName := EmptyString;
                             object.isErrorHandler := false;
                             object.doc := None |});
  match module with
  | Some m =>
      do r <- builtin.deref b;
      run store b {| object.fn := object.fn r; object.name := object.name r;
                     object.module := object.module r;
                     object.moduleName := m;
                     object.isErrorHandler := object.isErrorHandler r;
                     object.doc := object.doc r |};
      ret b
  | None => ret b
  end.

(** The module name of the struct is the name of its module, and empty
    without a module: what the three constructors establish. *)
Definition constructed (r : object.BuiltinStruct) : Prop :=
  object.moduleName r = default EmptyString (object.module r).

(** The builtin in the cell [b]. *)
Definition at_ (st : State) (b : nat) : option object.BuiltinStruct :=
  match heap st !! b with
  | Some (CBuiltin r) => Some r
  | _ => None
  end.

End Builtin.

(** ** The line editor of the read-eval-print loop (repl/repl.go) *)

Module repl.

(** Go strings are sequences of bytes; [len], the slices [s[lo:]] and
    [s[:hi]] and the index [l[i]] fault out of range ([None]). *)
Definition len {A} (l : list A) : Z := Z.of_nat (length l).

Definition from (s : list Ascii.ascii) (lo : Z) : option (list Ascii.ascii) :=
  if (0 <=? lo) && (lo <=? len s) then Some (drop (Z.to_nat lo) s) else None.

Definition upto (s : list Ascii.ascii) (hi : Z) : option (list Ascii.ascii) :=
  if (0 <=? hi) && (hi <=? len s) then Some (take (Z.to_nat hi) s) else None.

Definition index {A} (l : list A) (i : Z) : option A :=
  if 0 <=? i then l !! Z.to_nat i else None.

(** [int] is 64 bits wide: [x++] and [x--] wrap around. *)
Definition wrap (z : Z) : Z := (z + 2 ^ 63) mod 2 ^ 64 - 2 ^ 63.
Definition inc (z : Z) : Z := wrap (z + 1).
Definition dec (z : Z) : Z := wrap (z - 1).

Definition text (s : string) : list Ascii.ascii := String.list_ascii_of_string s.

Definition esc : Ascii.ascii := Eval cbv in Ascii.ascii_of_nat 27.
Definition backspace : Ascii.ascii := Eval cbv in Ascii.ascii_of_nat 8.
Definition newline : Ascii.ascii := Eval cbv in Ascii.ascii_of_nat 10.
Definition carriageReturn : Ascii.ascii := Eval cbv in Ascii.ascii_of_nat 13.
Definition blank : Ascii.ascii := Eval cbv in Ascii.ascii_of_nat 32.

Definition clearLine : list Ascii.ascii := esc :: text "[2K" ++ [carriageReturn].
Definition moveBack : list Ascii.ascii := esc :: text "[%dD".
Definition moveForward : list Ascii.ascii := esc :: text "[%dC".
Definition prompt : list Ascii.ascii := text ">>> ".

(** [fmt.Sprintf(moveBack, n)] *)
Definition SprintfMoveBack (n : Z) : list Ascii.ascii :=
  esc :: text ("[" +:+ pretty n +:+ "D").

(** [strings.Split(s, "\n")] *)
Fixpoint Split (s : list Ascii.ascii) : list (list Ascii.ascii) :=
  match s with
  | [] => [[]]
  | c :: rest =>
      if decide (c = newline) then [] :: Split rest
      else match Split rest with
           | first :: more => (c :: first) :: more
           | [] => [[c]]
           end
  end.

(** [strings.Repeat(s, count)]; it panics on a negative count, which
    [len] never is. *)
Definition Repeat (s : list Ascii.ascii) (count : Z) : list Ascii.ascii :=
  mjoin (replicate (Z.to_nat count) s).

(** The keys of atomicgo.dev/keyboard that the handler tells apart;
    [Runes] is [string(key.Runes)], the text of the key. *)
Inductive KeyCode :=
| Enter | RuneKey | Space | Tab | Backspace | Up | Down | Left | Right
| CtrlA | CtrlE | CtrlC | CtrlD | OtherKey.

Record Key := { Code : KeyCode; Runes : list Ascii.ascii }.

(** What the loop does to the world around it, in order: the terminal
    output ([PrintFormat] is a call of [fmt.Printf] and keeps the format
    and its arguments apart, [PrintText] is [fmt.Print] or [fmt.Println]), the
    execution of a line ([execute], with the evaluation and the print of
    its result), the line written to the history file. *)
Inductive Effect :=
| PrintText (s : list Ascii.ascii)
| PrintFormat (format : list Ascii.ascii) (args : list Z)
| ColorPrintln (s : list Ascii.ascii)
| Execute (code : list Ascii.ascii)
| AppendLine (path line : list Ascii.ascii).

(** The variables of [Run] that its key handler captures. *)
Record Session := {
  column : Z;
  historyIndex : Z;
  history : list (list Ascii.ascii);
  accumulate : list Ascii.ascii;
  historyPath : list Ascii.ascii;
  effects : list Effect
}.

Definition with_column (c : Z) (st : Session) : Session :=
  {| column := c; historyIndex := historyIndex st; history := history st;
     accumulate := accumulate st; historyPath := historyPath st;
     effects := effects st |}.

Definition with_historyIndex (i : Z) (st : Session) : Session :=
  {| column := column st; historyIndex := i; history := history st;
     accumulate := accumulate st; historyPath := historyPath st;
     effects := effects st |}.

Definition with_history (h : list (list Ascii.ascii)) (st : Session) : Session :=
  {| column := column st; historyIndex := historyIndex st; history := h;
     accumulate := accumulate st; historyPath := historyPath st;
     effects := effects st |}.

Definition with_accumulate (a : list Ascii.ascii) (st : Session) : Session :=
  {| column := column st; historyIndex := historyIndex st;
     history := history st; accumulate := a; historyPath := historyPath st;
     effects := effects st |}.

Definition effect (f : Effect) (st : Session) : Session :=
  {| column := column st; historyIndex := historyIndex st;
     history := history st; accumulate := accumulate st;
     historyPath := historyPath st; effects := effects st ++ [f] |}.

(** The start of [Run]: the banner and the prompt, and the history read
    from the file in the home directory when there is one; [home] is the
    path of that file when the home directory is known, [historyData]
    its content when it can be read. *)
Definition start (home : option (list Ascii.ascii)) (historyData : option (list Ascii.ascii))
  : Session :=
  let st := {| column := 0; historyIndex := 0; history := [];
               accumulate := []; historyPath := [];
               effects := [ColorPrintln (text "Tamarin");
                           PrintText [newline];
                           PrintFormat prompt []] |} in
  match home with
  | Some path =>
      let st := {| column := column st; historyIndex := historyIndex st;
                   history := history st; accumulate := accumulate st;
                   historyPath := path; effects := effects st |} in
      match historyData with
      | Some data =>
          let st := with_history (Split data) st in
          with_historyIndex (len (history st) - 1) st
      | None => st
      end
  | None => st
  end.

Section Handler.

(** [os.OpenFile] on the history file: whether the file can be opened
    for appending, in the world as the effects so far have left it. *)
Variable OpenFile : list Ascii.ascii -> list Effect -> bool.

(** [appendToHistory]: nothing without a history path, and nothing when
    the file cannot be opened; [AppendLine] is the call of
    [f.WriteString] on the opened file, whose error the source ignores. *)
Definition appendToHistory (line : list Ascii.ascii) (st : Session) : Session :=
  if decide (historyPath st = []) then st
  else if OpenFile (historyPath st) (effects st)
       then effect (AppendLine (historyPath st) (line ++ [newline])) st
       else st.

(** The branches of the key handler; [None] is a run-time fault of a
    slice or an index out of range. *)
Definition onEnter (st : Session) : option Session :=
  let st := effect (PrintFormat [newline] []) st in
  let st := effect (Execute (accumulate st)) st in
  let st := appendToHistory (accumulate st) st in
  let st := with_history (history st ++ [accumulate st]) st in
  let st := with_historyIndex (len (history st)) st in
  let st := with_accumulate [] st in
  let st := effect (PrintText prompt) st in
  Some (with_column 0 st).

Definition onRune (key : Key) (st : Session) : option Session :=
  st ← (if column st <? len (accumulate st) then
          rest ← from (accumulate st) (column st);
          let restLen := len rest in
          front ← upto (accumulate st) (column st);
          let st := with_accumulate (front ++ Runes key ++ rest) st in
          Some (effect (PrintFormat (clearLine ++ prompt ++ accumulate st
                                ++ SprintfMoveBack restLen) []) st)
        else
          let st := with_accumulate (accumulate st ++ Runes key) st in
          Some (effect (PrintText (Runes key)) st));
  Some (with_column (inc (column st)) st).

Definition onBackspace (st : Session) : option Session :=
  if 0 <? len (accumulate st) then
    st ← (if column st <? len (accumulate st) then
            rest ← from (accumulate st) (column st);
            let restLen := len rest in
            st ← (if 0 <? column st then
                    front ← upto (accumulate st) (column st - 1);
                    Some (with_accumulate (front ++ rest) st)
                  else Some st);
            Some (effect (PrintFormat (clearLine ++ prompt ++ accumulate st
                                  ++ SprintfMoveBack restLen) []) st)
          else
            front ← upto (accumulate st) (len (accumulate st) - 1);
            let st := with_accumulate front st in
            Some (effect (PrintFormat [backspace; blank; backspace] []) st));
    if 0 <? column st then Some (with_column (dec (column st)) st)
    else Some st
  else Some st.

(** [accumulate = history[historyIndex]] and what follows it. *)
Definition recall (st : Session) : option Session :=
  line ← index (history st) (historyIndex st);
  let st := with_accumulate line st in
  let st := with_column (len (accumulate st)) st in
  Some (effect (PrintFormat (clearLine ++ prompt ++ accumulate st) []) st).

Definition onUp (st : Session) : option Session :=
  let st := if 0 <? historyIndex st
            then with_historyIndex (dec (historyIndex st)) st else st in
  if historyIndex st <? len (history st) then recall st else Some st.

Definition onDown (st : Session) : option Session :=
  let st := if historyIndex st <? len (history st) - 1
            then with_historyIndex (inc (historyIndex st)) st else st in
  if historyIndex st <? len (history st) then recall st
  else
    let st := effect (PrintFormat (clearLine ++ prompt) []) st in
    let st := with_column 0 st in
    Some (with_accumulate [] st).

Definition onLeft (st : Session) : option Session :=
  if 0 <? column st then
    let st := effect (PrintFormat moveBack [1]) st in
    Some (with_column (dec (column st)) st)
  else Some st.

Definition onRight (st : Session) : option Session :=
  if column st <? len (accumulate st) then
    let st := effect (PrintFormat moveForward [1]) st in
    Some (with_column (inc (column st)) st)
  else Some st.

Definition onCtrlA (st : Session) : option Session :=
  let st := effect (PrintFormat (clearLine ++ prompt ++ accumulate st
                            ++ Repeat [backspace] (len (accumulate st))) []) st in
  Some (with_column 0 st).

Definition onCtrlE (st : Session) : option Session :=
  let st := effect (PrintFormat moveForward
                      [wrap (len (accumulate st) - column st)]) st in
  Some (with_column (len (accumulate st)) st).

(** What a call of the handler comes to: it returns and the listener goes
    on, the process exits, or the process dies of a run-time fault. *)
Inductive Result :=
| Continue (st : Session)
| Exit (code : Z) (st : Session)
| Fault.

Definition continue (r : option Session) : Result :=
  match r with
  | Some st => Continue st
  | None => Fault
  end.

(** The function handed to [keyboard.Listen]. *)
Definition handle (key : Key) (st : Session) : Result :=
  match Code key with
  | Enter => continue (onEnter st)
  | RuneKey | Space | Tab => continue (onRune key st)
  | Backspace => continue (onBackspace st)
  | Up => continue (onUp st)
  | Down => continue (onDown st)
  | Left => continue (onLeft st)
  | Right => continue (onRight st)
  | CtrlA => continue (onCtrlA st)
  | CtrlE => continue (onCtrlE st)
  | CtrlC | CtrlD => Exit 0 (effect (PrintText [newline]) st)
  | OtherKey => Continue st
  end.

(** The listener calls the handler for every key, until the process
    ends. *)
Fixpoint listen (keys : list Key) (st : Session) : Result :=
  match keys with
  | [] => Continue st
  | key :: rest =>
      match handle key st with
      | Continue st' => listen rest st'
      | r => r
      end
  end.

End Handler.

(** A key that types the one byte [c]. *)
Definition typed (c : Ascii.ascii) : Key := {| Code := RuneKey; Runes := [c] |}.

(** The cursor is in the line and the history index is in the history or
    just behind it. *)
Definition inLine (st : Session) : Prop :=
  0 <= column st <= len (accumulate st) /\
  0 <= historyIndex st <= len (history st).

(** The key types some text when it is a key that inserts. *)
Definition types (key : Key) : Prop :=
  match Code key with
  | RuneKey | Space | Tab => Runes key <> []
  | _ => True
  end.

(** The length of the widest line the session holds. *)
Definition widest (st : Session) : Z :=
  Z.max (len (accumulate st)) (foldr Z.max 0 (len <$> history st)).

(** The key is one of those that insert their text. *)
Definition inserts (key : Key) : bool :=
  match Code key with
  | RuneKey | Space | Tab => true
  | _ => false
  end.

(** A key that carries no text. *)
Definition pressed (code : KeyCode) : Key := {| Code := code; Runes := [] |}.

(** The lines handed to [execute], in their order. *)
Definition executed (effs : list Effect) : list (list Ascii.ascii) :=
  omap (fun f => match f with Execute code => Some code | _ => None end) effs.

(** The lines handed to [WriteString] on the history file, in their
    order. *)
Definition written (effs : list Effect) : list (list Ascii.ascii) :=
  omap (fun f => match f with AppendLine _ line => Some line | _ => None end)
       effs.

(** A line as it is written to the history file. *)
Definition withNewline (line : list Ascii.ascii) : list Ascii.ascii :=
  line ++ [newline].

(** From [st] to [st'] the history has grown by [lines], these lines were
    executed, and [logged] was written to the history file: nothing
    without a history path, a line for every open that succeeded
    otherwise. *)
Definition records (OpenFile : list Ascii.ascii -> list Effect -> bool)
    (st st' : Session) (lines logged : list (list Ascii.ascii)) : Prop :=
  history st' = history st ++ lines /\
  executed (effects st') = executed (effects st) ++ lines /\
  written (effects st') = written (effects st) ++ logged /\
  logged `sublist_of` (withNewline <$> lines) /\
  (historyPath st = [] -> logged = []) /\
  (historyPath st <> [] ->
   (forall effs, OpenFile (historyPath st) effs = true) ->
   logged = withNewline <$> lines) /\
  ((forall effs, OpenFile (historyPath st) effs = false) -> logged = []) /\
  historyPath st' = historyPath st.

(** The session a result leaves, when the process has not died. *)
Definition session (r : Result) : option Session :=
  match r with
  | Continue st | Exit _ st => Some st
  | Fault => None
  end.

(** The bytes the keys type, altogether. *)
Definition typedBytes (keys : list Key) : Z :=
  foldr Z.add 0 ((fun key => len (Runes key)) <$> keys).

End repl.

(** Case analysis on the tests and the slices of a handler branch. *)
Ltac split_handler :=
  repeat (simpl;
          match goal with
          | |- repl.session ?r = _ -> _ =>
              match r with
              | context [if ?b then _ else _] =>
                  lazymatch b with
                  | context [if _ then _ else _] => fail
                  | _ => destruct b
                  end
              | context [repl.from ?s ?i] => destruct (repl.from s i)
              | context [repl.upto ?s ?i] => destruct (repl.upto s i)
              | context [repl.index ?l ?i] => destruct (repl.index l i)
              end
          end).

(** * Properties *)

(** ** Builtin equality (object/builtin.go) *)

Lemma builtin_Equals_true (b : nat) (o : Object) :
  builtin.Equals b o = object.Bool true <-> o = object.Builtin b.
Proof.
  unfold builtin.Equals. split.
  - destruct o; try discriminate. case_decide; [congruence | discriminate].
  - intros ->. by rewrite decide_True.
Qed.

Lemma NewBuiltin_twice (name : string) (fn : nat) (st : State) :
  exists b1 b2 st1 st2 r,
    builtin.NewBuiltin name fn st = Done b1 st1 /\
    builtin.NewBuiltin name fn st1 = Done b2 st2 /\
    heap st2 !! b1 = Some (CBuiltin r) /\
    heap st2 !! b2 = Some (CBuiltin r) /\
    b1 <> b2.
Proof.
  unfold builtin.NewBuiltin, alloc. do 5 eexists.
  split; [reflexivity |]. split; [reflexivity |]. simpl.
  split; [| split].
  - rewrite lookup_insert_ne by lia. apply lookup_insert_eq.
  - apply lookup_insert_eq.
  - lia.
Qed.

(** C10: [b.Equals(o)] is True exactly when [o] is the builtin instance [b]
    itself; on another builtin pointer it is False whatever the two cells
    hold, so two builtins made with the same name and wrapped function are
    not equal; and the structural equality that [evalSwitch] matches with
    is, on a builtin subject, this identity test. *)
Theorem builtin_Equals_is_identity :
  forall (b : nat) (o : Object),
    (builtin.Equals b o = object.Bool true <-> o = object.Builtin b) /\
    (builtin.Equals b o = object.Bool true \/
     builtin.Equals b o = object.Bool false) /\
    (forall q, builtin.Equals b (object.Builtin q) = object.Bool (bool_decide (b = q))) /\
    (forall name fn st, exists b1 b2 st1 st2 r,
        builtin.NewBuiltin name fn st = Done b1 st1 /\
        builtin.NewBuiltin name fn st1 = Done b2 st2 /\
        heap st2 !! b1 = Some (CBuiltin r) /\
        heap st2 !! b2 = Some (CBuiltin r) /\
        builtin.Equals b1 (object.Builtin b2) = object.Bool false /\
        builtin.Equals b2 (object.Builtin b1) = object.Bool false) /\
    (Std.Equals (object.Builtin b) o = true <-> o = object.Builtin b).
Proof.
  intros b o. split; [apply builtin_Equals_true |]. split; [| split; [| split]].
  - unfold builtin.Equals. destruct o; auto. case_decide; auto.
  - intros q. unfold builtin.Equals. by case_bool_decide; case_decide.
  - intros name fn st.
    destruct (NewBuiltin_twice name fn st)
      as (b1 & b2 & st1 & st2 & r & H1 & H2 & H3 & H4 & Hne).
    exists b1, b2, st1, st2, r. repeat split; try assumption.
    + unfold builtin.Equals. by rewrite decide_False.
    + unfold builtin.Equals. by rewrite decide_False.
  - rewrite <- builtin_Equals_true. unfold Std.Equals.
    destruct (builtin.Equals b o) as [| |[]| | | | | | | | |] eqn:Heq;
      split; intros; congruence.
Qed.

(** ** The breakpoint table (New, GetBreakpoint) *)

Lemma set_heap_set_heap (h1 h2 : gmap nat Cell) (st : State) :
  set_heap h2 (set_heap h1 st) = set_heap h2 st.
Proof. reflexivity. Qed.

Lemma set_heap_id (st : State) : set_heap (heap st) st = st.
Proof. by destruct st. Qed.

(** After the loop every key of the list leads to the one cell of the
    range variable, and that cell holds the last element. *)
Lemma indexBreakpoints_spec (pb : nat) (bs : list Breakpoint) :
  forall (m : gmap string nat) (st : State),
  exists m',
    indexBreakpoints pb bs m st =
      Done m' (set_heap (match last bs with
                         | Some x => <[pb := CBreakpoint x]> (heap st)
                         | None => heap st
                         end) st) /\
    (forall b, b ∈ bs -> m' !! location (File b) (Line b) = Some pb) /\
    (forall k, m !! k = Some pb -> m' !! k = Some pb).
Proof.
  induction bs as [| x rest IH]; intros m st.
  - exists m. simpl. rewrite set_heap_id. split; [reflexivity |].
    split; [intros b Hb; by apply elem_of_nil in Hb | auto].
  - destruct (IH (<[location (File x) (Line x) := pb]> m)
                 (set_heap (<[pb := CBreakpoint x]> (heap st)) st))
      as (m' & Hrun & Hkeys & Hkeep).
    exists m'. split; [| split].
    + simpl. unfold bind, modify. rewrite Hrun. f_equal.
      rewrite set_heap_set_heap. destruct rest as [| y rest'].
      * reflexivity.
      * rewrite last_cons_cons. simpl heap.
        destruct (last (y :: rest')) as [z |] eqn:Hz.
        -- by rewrite insert_insert_eq.
        -- by apply last_None in Hz.
    + intros b Hb. apply elem_of_cons in Hb as [-> | Hb].
      * apply Hkeep, lookup_insert_eq.
      * by apply Hkeys.
    + intros k Hk. apply Hkeep.
      destruct (decide (location (File x) (Line x) = k)) as [-> | Hne].
      * apply lookup_insert_eq.
      * by rewrite lookup_insert_ne.
Qed.

(** Whatever breakpoint of the list is looked up, the lookup hands out the
    last one of the list. *)
Lemma breakpointAt_last (X : Externs) (opts : Opts) (st st' : State)
    (e : Evaluator) (b final : Breakpoint) :
  New X opts st = Done e st' ->
  b ∈ Breakpoints opts ->
  last (Breakpoints opts) = Some final ->
  breakpointAt X opts (File b) (Line b) st = Done (Some final) st'.
Proof.
  intros Hnew Hb Hlast. unfold breakpointAt, bind. rewrite Hnew.
  revert Hnew. unfold New, bind, alloc.
  destruct (if DisableDefaultBuiltins opts then _ else _) as [bi0 st0| |];
    try discriminate.
  destruct (registerBuiltins (Builtins opts) bi0 st0) as [bi st1| |];
    try discriminate.
  match goal with
  | |- context [indexBreakpoints ?pb ?bs ?m ?s] =>
      destruct (indexBreakpoints_spec pb bs m s) as (m' & Hrun & Hkeys & _)
  end.
  rewrite Hrun, Hlast. unfold ret. intros [= <- <-].
  unfold GetBreakpoint. simpl.
  rewrite decide_False.
  - rewrite (Hkeys b Hb). unfold derefBreakpoint. simpl.
    by rewrite lookup_insert_eq.
  - apply map_size_ne_0_lookup_2 with (location (File b) (Line b)).
    rewrite (Hkeys b Hb). eauto.
Qed.

(** C4, at a list of two breakpoints: the lookup of the first one by its
    own file and line returns the flags of the second; the first one's
    Trace flag is lost and Stop is set.  Two breakpoints on one line share
    their key, and the lookup returns the second as well. *)
Theorem breakpoint_lookup_returns_last_registered :
  let first := {| File := "a.tm"; Line := 1; Disabled := false;
                  Trace := true; Stop := false |} in
  let second := {| File := "b.tm"; Line := 2; Disabled := false;
                   Trace := false; Stop := true |} in
  let again := {| File := "a.tm"; Line := 1; Disabled := true;
                  Trace := false; Stop := false |} in
  let opts bs := {| Importer := None; DisableDefaultBuiltins := false;
                    Builtins := []; Breakpoints := bs |} in
  Run.value (breakpointAt Std.X (opts [first; second]) "a.tm" 1 Run.initial)
    = Some (Some second) /\
  Run.value (breakpointAt Std.X (opts [first; second]) "b.tm" 2 Run.initial)
    = Some (Some second) /\
  Run.value (breakpointAt Std.X (opts [first; again]) "a.tm" 1 Run.initial)
    = Some (Some again) /\
  Run.value (breakpointAt Std.X (opts [first]) "a.tm" 1 Run.initial)
    = Some (Some first).
Proof. repeat split; vm_compute; reflexivity. Qed.

(** ** Cancellation (Evaluate) *)

(** C8: when the context is already cancelled, a call of [Evaluate] on any
    node, in any scope and state, returns at once an Error that carries
    the cause; the heap (scopes, execution stack) and the log are those of
    the call's start, so the node was neither tracked nor dispatched and no
    sub-node was evaluated.  The statement holds for every call, so also
    for the recursive ones, which receive the same context. *)
Theorem Evaluate_cancelled :
  forall (X : Externs) (n : nat) (e : Evaluator) (cause : string)
         (call : option Evaluator) (node : Node) (s : nat) (st : State),
    Evaluate X (S n) e {| ctx_err := Some cause; ctx_call := call |} node s st
      = Done (object.Error (next st) cause) (allocated st) /\
    heap (allocated st) = heap st /\
    log (allocated st) = log st /\
    ctx_err (WithCallFunc {| ctx_err := Some cause; ctx_call := call |}
                          (getCallFunc e)) = Some cause.
Proof. intros. repeat split. Qed.

(** ** Error propagation *)

Section Propagation.

Variable X : Externs.
Variable E : Eval.
Variable e : Evaluator.
Variable ctx : Context.

Lemma evalIf_error c t a s st p msg st' :
  E e ctx c s st = Done (object.Error p msg) st' ->
  evalIf X E e ctx c t a s st = Done (object.Error p msg) st'.
Proof. intros H. unfold evalIf. by run_with H. Qed.

(** [evalFor] first makes its two scopes. *)
Lemma evalFor_enter k fle init c body post s st :
  evalFor X E e ctx k fle init c body post s st =
  (do early <- match init with
               | ast.GoNil => ret None
               | _ => do res <- E e ctx init (forScope st);
                      if object.IsError res then ret (Some res) else ret None
               end;
   match early with
   | Some res => ret res
   | None =>
       if IsSimpleLoop X fle then
         evalSimpleForLoop E e ctx k body (loopScope st) object.Nil
       else if IsIteratorLoop X fle then
         evalIteratorForLoop X E e ctx k c body (loopScope st)
       else
         forLoop X E e ctx k c body post (forScope st) (loopScope st) object.Nil
   end) (forEntered s st).
Proof. reflexivity. Qed.

Lemma evalFor_init_error k fle init c body post s st p msg st' :
  init <> ast.GoNil ->
  E e ctx init (forScope st) (forEntered s st) = Done (object.Error p msg) st' ->
  evalFor X E e ctx k fle init c body post s st = Done (object.Error p msg) st'.
Proof.
  intros Hinit H. rewrite evalFor_enter. unfold bind.
  destruct init; try congruence; by rewrite H.
Qed.

Lemma evalSimpleForLoop_error k body s lv st st1 p msg st' :
  scope.Clear s st = Done tt st1 ->
  E e ctx body s st1 = Done (object.Error p msg) st' ->
  evalSimpleForLoop E e ctx (S k) body s lv st = Done (object.Error p msg) st'.
Proof. intros H1 H2. simpl. by run_hyps. Qed.

Lemma iteratorLoop_error k it names body s lv st st1 key value st2 st3 p msg st' :
  scope.Clear s st = Done tt st1 ->
  Next it st1 = Done (Some (key, value)) st2 ->
  bindEntry s names key value st2 = Done None st3 ->
  E e ctx body s st3 = Done (object.Error p msg) st' ->
  iteratorLoop E e ctx (S k) it names body s lv st = Done (object.Error p msg) st'.
Proof.
  intros H1 H2 H3 H4. simpl. run_hyps. revert H3. unfold bindEntry, bind.
  destruct names as [| name0 others]; [discriminate |].
  destruct (scope.declare s name0 key false st2) as [[err|] stx| |];
    try discriminate.
  destruct others as [| name1 more].
  - intros [= ->]. simpl. unfold bind, ret. by rewrite H4.
  - intros H3. simpl. unfold bind. rewrite H3. by rewrite H4.
Qed.

Lemma evalIteratorForLoop_error k c body s names iterExpr st p msg st' :
  (c = ast.Var (hd EmptyString names) iterExpr /\ length names = 1%nat \/
   c = ast.MultiVar names iterExpr /\ (1 <= length names <= 2)%nat) ->
  E e ctx iterExpr s st = Done (object.Error p msg) st' ->
  evalIteratorForLoop X E e ctx k c body s st = Done (object.Error p msg) st'.
Proof.
  intros Hc H. unfold evalIteratorForLoop.
  destruct Hc as [[-> Hlen] | [-> Hlen]].
  - simpl. by run_with H.
  - destruct names as [| n0 [| n1 [| n2 more]]]; simpl in Hlen; try lia;
      simpl; by run_with H.
Qed.

Lemma forLoop_condition_error k c body post fs ls lv st st1 p msg st' :
  scope.Clear ls st = Done tt st1 ->
  E e ctx c fs st1 = Done (object.Error p msg) st' ->
  forLoop X E e ctx (S k) c body post fs ls lv st = Done (object.Error p msg) st'.
Proof. intros H1 H2. simpl. by run_hyps. Qed.

Lemma forLoop_body_error k c body post fs ls lv st st1 cv st2 p msg st' :
  scope.Clear ls st = Done tt st1 ->
  E e ctx c fs st1 = Done cv st2 ->
  object.IsError cv = false -> cv <> object.GoNil -> IsTruthy X cv = true ->
  E e ctx body ls st2 = Done (object.Error p msg) st' ->
  forLoop X E e ctx (S k) c body post fs ls lv st = Done (object.Error p msg) st'.
Proof.
  intros H1 H2 Hne Hnil Ht H3. simpl. run_hyps. rewrite Hne.
  unfold method. destruct cv; try congruence; unfold ret; rewrite Ht;
    by rewrite H3.
Qed.

End Propagation.

(** ** The switch (evalSwitch) *)

Section Switch.

Variable X : Externs.
Variable E : Eval.
Variable e : Evaluator.
Variable ctx : Context.

Lemma firstMatch_app value pre post s st :
  firstMatch X E e ctx value (pre ++ post) s st =
  (do r <- firstMatch X E e ctx value pre s;
   match r with
   | inr None => firstMatch X E e ctx value post s
   | _ => ret r
   end) st.
Proof.
  revert st. induction pre as [| [c block] pre IH]; intros st; simpl.
  - reflexivity.
  - unfold bind. destruct (E e ctx c s st) as [out st'| |]; try reflexivity.
    destruct (object.IsError out); [reflexivity |].
    destruct (Equals X value out); [reflexivity |]. apply IH.
Qed.

Lemma switchExpressions_firstMatch value exprs block s rest st :
  switchExpressions X E e ctx value exprs block s rest st =
  (do r <- firstMatch X E e ctx value (map (fun c => (c, block)) exprs) s;
   match r with
   | inl err => ret err
   | inr (Some b) => evalBlockStatement X E e ctx b s
   | inr None => rest
   end) st.
Proof.
  revert st. induction exprs as [| c exprs IH]; intros st; simpl.
  - reflexivity.
  - unfold bind. destruct (E e ctx c s st) as [out st'| |]; try reflexivity.
    destruct (object.IsError out); [reflexivity |].
    destruct (Equals X value out); [reflexivity |]. apply IH.
Qed.

Lemma candidates_cons opt more :
  candidates (opt :: more) =
  (if ast.IsDefault opt then []
   else map (fun c => (c, ast.CaseBlock opt)) (ast.Expressions opt))
  ++ candidates more.
Proof. reflexivity. Qed.

Lemma switchChoices_firstMatch value choices s rest st :
  switchChoices X E e ctx value choices s rest st =
  (do r <- firstMatch X E e ctx value (candidates choices) s;
   match r with
   | inl err => ret err
   | inr (Some b) => evalBlockStatement X E e ctx b s
   | inr None => rest
   end) st.
Proof.
  revert st. induction choices as [| opt more IH]; intros st.
  - reflexivity.
  - rewrite candidates_cons. cbn [switchChoices].
    destruct (ast.IsDefault opt).
    + apply IH.
    + rewrite switchExpressions_firstMatch. unfold bind at 2.
      rewrite firstMatch_app. unfold bind.
      destruct (firstMatch X E e ctx value _ s st) as [[err | [b |]] st'| |];
        try reflexivity.
      apply IH.
Qed.

Lemma switchDefault_firstDefault choices s :
  switchDefault X E e ctx choices s =
  match firstDefault choices with
  | Some block => evalBlockStatement X E e ctx block s
  | None => ret object.Nil
  end.
Proof.
  induction choices as [| opt more IH]; simpl; [reflexivity |].
  by destruct (ast.IsDefault opt).
Qed.

(** [evalSwitch] is the search of the specification. *)
Lemma evalSwitch_spec value choices s st :
  evalSwitch X E e ctx value choices s st = switchSpec X E e ctx value choices s st.
Proof.
  unfold evalSwitch, switchSpec, bind.
  destruct (E e ctx value s st) as [subject st0| |]; try reflexivity.
  destruct (object.IsError subject); [reflexivity |].
  rewrite switchChoices_firstMatch, switchDefault_firstDefault. reflexivity.
Qed.

Lemma firstMatch_rejected value cands s st st' :
  rejected X E e ctx value (map fst cands) s st = Some st' ->
  firstMatch X E e ctx value cands s st = Done (inr None) st'.
Proof.
  revert st. induction cands as [| [c block] cands IH]; intros st; simpl.
  - by intros [= ->].
  - unfold bind. destruct (E e ctx c s st) as [out st1| |]; try discriminate.
    destruct (object.IsError out); [discriminate |].
    destruct (Equals X value out); [discriminate |]. apply IH.
Qed.

(** The candidates before the first match are evaluated and rejected,
    then the matching one; nothing of [post] is evaluated. *)
Lemma firstMatch_match value pre c block post s st st1 out st2 :
  rejected X E e ctx value (map fst pre) s st = Some st1 ->
  E e ctx c s st1 = Done out st2 ->
  object.IsError out = false ->
  Equals X value out = true ->
  firstMatch X E e ctx value (pre ++ (c, block) :: post) s st =
  Done (inr (Some block)) st2.
Proof.
  intros Hrej Hc Herr Heq. rewrite firstMatch_app. unfold bind.
  rewrite (firstMatch_rejected _ _ _ _ _ Hrej). simpl. unfold bind.
  by rewrite Hc, Herr, Heq.
Qed.

Lemma firstMatch_error value pre c block post s st st1 p msg st2 :
  rejected X E e ctx value (map fst pre) s st = Some st1 ->
  E e ctx c s st1 = Done (object.Error p msg) st2 ->
  firstMatch X E e ctx value (pre ++ (c, block) :: post) s st =
  Done (inl (object.Error p msg)) st2.
Proof.
  intros Hrej Hc. rewrite firstMatch_app. unfold bind.
  rewrite (firstMatch_rejected _ _ _ _ _ Hrej). simpl. unfold bind.
  by rewrite Hc.
Qed.

Lemma evalSwitch_subject_error value choices s st p msg st' :
  E e ctx value s st = Done (object.Error p msg) st' ->
  evalSwitch X E e ctx value choices s st = Done (object.Error p msg) st'.
Proof. intros H. unfold evalSwitch. by run_with H. Qed.

Lemma evalSwitch_candidate_error value choices s st subject st0 pre c block post
    st1 p msg st2 :
  E e ctx value s st = Done subject st0 ->
  object.IsError subject = false ->
  candidates choices = pre ++ (c, block) :: post ->
  rejected X E e ctx subject (map fst pre) s st0 = Some st1 ->
  E e ctx c s st1 = Done (object.Error p msg) st2 ->
  evalSwitch X E e ctx value choices s st = Done (object.Error p msg) st2.
Proof.
  intros Hv Hne Hc Hrej Herr. rewrite evalSwitch_spec. unfold switchSpec, bind.
  rewrite Hv, Hne, Hc.
  by rewrite (firstMatch_error _ _ _ _ _ _ _ _ _ _ _ Hrej Herr).
Qed.

Lemma evalSwitch_first_match value choices s st subject st0 pre c block post
    st1 out st2 :
  E e ctx value s st = Done subject st0 ->
  object.IsError subject = false ->
  candidates choices = pre ++ (c, block) :: post ->
  rejected X E e ctx subject (map fst pre) s st0 = Some st1 ->
  E e ctx c s st1 = Done out st2 ->
  object.IsError out = false ->
  Equals X subject out = true ->
  evalSwitch X E e ctx value choices s st = evalBlockStatement X E e ctx block s st2.
Proof.
  intros Hv Hne Hc Hrej Hout Herr Heq. rewrite evalSwitch_spec.
  unfold switchSpec, bind. rewrite Hv, Hne, Hc.
  by rewrite (firstMatch_match _ _ _ _ _ _ _ _ _ _ Hrej Hout Herr Heq).
Qed.

Lemma evalSwitch_no_match value choices s st subject st0 st1 :
  E e ctx value s st = Done subject st0 ->
  object.IsError subject = false ->
  rejected X E e ctx subject (map fst (candidates choices)) s st0 = Some st1 ->
  evalSwitch X E e ctx value choices s st =
  match firstDefault choices with
  | Some block => evalBlockStatement X E e ctx block s st1
  | None => Done object.Nil st1
  end.
Proof.
  intros Hv Hne Hrej. rewrite evalSwitch_spec. unfold switchSpec, bind.
  rewrite Hv, Hne, (firstMatch_rejected _ _ _ _ _ Hrej).
  by destruct (firstDefault choices).
Qed.

End Switch.

(** The dispatcher on an integer literal and on a switch, when the
    context is live and the node is no statement. *)
Lemma Evaluate_Int X n e ctx z s st :
  ctx_err ctx = None ->
  AsStatement X (ast.Int z) = None ->
  Evaluate X (S n) e ctx (ast.Int z) s st =
  Done (object.Int z) (emit (EvEval (ast.Int z) s) st).
Proof. intros H1 H2. simpl. rewrite H1, H2. reflexivity. Qed.

Lemma Evaluate_Switch X n e ctx value choices s st :
  ctx_err ctx = None ->
  AsStatement X (ast.Switch value choices) = None ->
  Evaluate X (S n) e ctx (ast.Switch value choices) s st =
  evalSwitch X (Evaluate X n) e (WithCallFunc ctx (getCallFunc e)) value choices s
    (emit (EvEval (ast.Switch value choices) s) st).
Proof. intros H1 H2. simpl. rewrite H1, H2. reflexivity. Qed.

(** The example of the specification: cases [1, 2] -> A and [2] -> B,
    subject 2.  Whatever the blocks are, the outcome is that of block A,
    run after the subject and the candidates 1 and 2 of the first case
    were dispatched, in this order, and nothing else. *)
Lemma switch_example (A B : list Node) (n : nat) (e : Evaluator) (s : nat)
    (st : State) :
  let node := ast.Switch (ast.Int 2)
                [(false, [ast.Int 1; ast.Int 2], A); (false, [ast.Int 2], B)] in
  Evaluate Std.X (S (S n)) e Run.background node s st =
  Std.evalBlockStatement (Evaluate Std.X (S n)) e
    (WithCallFunc Run.background (getCallFunc e)) A s
    (emit (EvEval (ast.Int 2) s)
       (emit (EvEval (ast.Int 1) s)
          (emit (EvEval (ast.Int 2) s) (emit (EvEval node s) st)))).
Proof.
  intros node. unfold node. rewrite Evaluate_Switch by reflexivity.
  eapply eq_trans.
  - eapply evalSwitch_first_match with (pre := [(ast.Int 1, A)]).
    + by apply Evaluate_Int.
    + reflexivity.
    + reflexivity.
    + cbn [map fst rejected]. by rewrite Evaluate_Int.
    + by apply Evaluate_Int.
    + reflexivity.
    + reflexivity.
  - reflexivity.
Qed.

(** C5: [evalSwitch] evaluates the subject once, then the candidates of the
    non-default cases left to right and top to bottom ([switchSpec] over
    [candidates]); the block of the first candidate equal to the subject
    runs in the state that candidate left, so no later candidate is
    evaluated, and its outcome is the outcome of the switch; when every
    candidate is rejected the first default block runs, and without one the
    result is nil.  With cases [1, 2] -> A and [2] -> B and subject 2 the
    outcome is that of A, for all blocks A and B. *)
Theorem evalSwitch_first_match_wins :
  forall (X : Externs) (E : Eval) (e : Evaluator) (ctx : Context)
         (value : Node) (choices : list ast.Case) (s : nat) (st : State),
    evalSwitch X E e ctx value choices s st
      = switchSpec X E e ctx value choices s st /\
    (forall subject st0 pre c block post st1 out st2,
        E e ctx value s st = Done subject st0 ->
        object.IsError subject = false ->
        candidates choices = pre ++ (c, block) :: post ->
        rejected X E e ctx subject (map fst pre) s st0 = Some st1 ->
        E e ctx c s st1 = Done out st2 ->
        object.IsError out = false ->
        Equals X subject out = true ->
        evalSwitch X E e ctx value choices s st
          = evalBlockStatement X E e ctx block s st2) /\
    (forall subject st0 st1,
        E e ctx value s st = Done subject st0 ->
        object.IsError subject = false ->
        rejected X E e ctx subject (map fst (candidates choices)) s st0 = Some st1 ->
        evalSwitch X E e ctx value choices s st =
        match firstDefault choices with
        | Some block => evalBlockStatement X E e ctx block s st1
        | None => Done object.Nil st1
        end) /\
    (forall (A B : list Node) (n : nat),
        let node := ast.Switch (ast.Int 2)
                      [(false, [ast.Int 1; ast.Int 2], A);
                       (false, [ast.Int 2], B)] in
        Evaluate Std.X (S (S n)) e Run.background node s st =
        Std.evalBlockStatement (Evaluate Std.X (S n)) e
          (WithCallFunc Run.background (getCallFunc e)) A s
          (emit (EvEval (ast.Int 2) s)
             (emit (EvEval (ast.Int 1) s)
                (emit (EvEval (ast.Int 2) s) (emit (EvEval node s) st))))).
Proof.
  intros. split; [apply evalSwitch_spec |]. split; [| split].
  - intros. eapply evalSwitch_first_match; eassumption.
  - intros. eapply evalSwitch_no_match; eassumption.
  - intros. apply switch_example.
Qed.

Lemma evalSwitch_first_match_wins_witness :
  let A := [ast.String "A" None []] in
  let B := [ast.String "B" None []] in
  let choices := [(false, [ast.Int 1; ast.Int 2], A); (false, [ast.Int 2], B)] in
  evalSwitch Std.X (Evaluate Std.X 3) Run.evaluator Run.background
    (ast.Int 2) choices 0 Run.ready
  = Done (object.String "A")
      (emit (EvEval (ast.String "A" None []) 0)
         (emit (EvEval (ast.Int 2) 0)
            (emit (EvEval (ast.Int 1) 0)
               (emit (EvEval (ast.Int 2) 0) Run.ready)))) /\
  evalSwitch Std.X (Evaluate Std.X 3) Run.evaluator Run.background
    (ast.Int 3) choices 0 Run.ready
  = Done object.Nil
      (emit (EvEval (ast.Int 2) 0)
         (emit (EvEval (ast.Int 2) 0)
            (emit (EvEval (ast.Int 1) 0)
               (emit (EvEval (ast.Int 3) 0) Run.ready)))).
Proof.
  intros A B choices. split.
  - eapply eq_trans.
    + eapply (proj1 (proj2 (evalSwitch_first_match_wins Std.X (Evaluate Std.X 3)
                Run.evaluator Run.background (ast.Int 2) choices 0 Run.ready)))
        with (pre := [(ast.Int 1, A)]); reflexivity.
    + reflexivity.
  - eapply eq_trans.
    + eapply (proj1 (proj2 (proj2 (evalSwitch_first_match_wins Std.X
                (Evaluate Std.X 3) Run.evaluator Run.background (ast.Int 3)
                choices 0 Run.ready)))); reflexivity.
    + reflexivity.
Defined.

(** ** Pipes (evalPipe) *)

Lemma prependObject_cons (slice : list Object) (obj : Object) :
  prependObject slice obj = obj :: slice.
Proof.
  unfold prependObject. rewrite length_app. simpl.
  replace (length slice + 1 - 1)%nat with (length slice) by lia.
  rewrite take_app_length. by destruct slice.
Qed.

Section Pipe.

Variable X : Externs.
Variable E : Eval.
Variable e : Evaluator.
Variable ctx : Context.

Lemma pipeStages_app i pre post s a st :
  pipeStages X E e ctx i (pre ++ post) s a st =
  (do r <- pipeThrough X E e ctx i pre s a;
   match r with
   | inl result => ret result
   | inr a' => pipeStages X E e ctx (i + length pre) post s a'
   end) st.
Proof.
  revert i a st. induction pre as [| expr more IH]; intros i a st; simpl.
  - unfold bind, ret. by rewrite Nat.add_0_r.
  - unfold bind. destruct (pipeStage X E e ctx i expr s a st) as [[r | a'] st'| |];
      try reflexivity.
    rewrite IH. unfold bind. by rewrite Nat.add_succ_r.
Qed.

(** The stage after the stages [pre] is run with the index [length pre]
    and the value piped out of them. *)
Lemma evalPipe_stage first pre expr post s st a0 st0 a st1 :
  E e ctx first s st = Done a0 st0 ->
  object.IsError a0 = false ->
  pipeThrough X E e ctx 0 pre s a0 st0 = Done (inr a) st1 ->
  evalPipe X E e ctx (first :: pre ++ expr :: post) s st =
  (do r <- pipeStage X E e ctx (length pre) expr s a;
   match r with
   | inl result => ret result
   | inr a' => pipeStages X E e ctx (S (length pre)) post s a'
   end) st1.
Proof.
  intros Hfirst Hne Hpre. unfold evalPipe.
  replace (length (first :: pre ++ expr :: post) <? 2)%nat with false.
  - unfold bind at 1. rewrite Hfirst, Hne, pipeStages_app. unfold bind at 1.
    rewrite Hpre. reflexivity.
  - symmetry. apply Nat.ltb_ge. simpl. rewrite length_app. simpl. lia.
Qed.

Lemma evalPipe_first_error first stage stages s st p msg st' :
  E e ctx first s st = Done (object.Error p msg) st' ->
  evalPipe X E e ctx (first :: stage :: stages) s st = Done (object.Error p msg) st'.
Proof. intros H. unfold evalPipe. simpl. by run_with H. Qed.

Lemma pipeStage_bare i expr s nextArg st obj st1 :
  isBare expr = true ->
  E e ctx expr s st = Done obj st1 ->
  pipeStage X E e ctx i expr s nextArg st =
  (if object.IsError obj then ret (inl obj)
   else if isCallable obj then
     do res <- applyFunction X E e ctx s obj
                 match nextArg with
                 | object.GoNil => []
                 | _ => [nextArg]
                 end;
     pipeResult res
   else if decide (i = 0%nat) then ret (inr obj)
   else
     do ty <- method obj (TypeOf X);
     do err <- Errorf ("type error: unexpected " +:+ ty +:+ " object in pipe expression");
     ret (inl err)) st1.
Proof.
  intros Hbare H. unfold pipeStage.
  destruct expr; try discriminate; run_with H; by destruct obj.
Qed.

Lemma pipeStage_call i function arguments s nextArg st f st1 :
  E e ctx function s st = Done f st1 ->
  pipeStage X E e ctx i (ast.Call function arguments) s nextArg st =
  (if object.IsError f then ret (inl f) else
   do resolved <- pipeArguments X E e ctx arguments s;
   match resolved with
   | inl err => ret (inl err)
   | inr args =>
       do res <- applyFunction X E e ctx s f (pipePrepend args nextArg);
       pipeResult res
   end) st1.
Proof. intros H. unfold pipeStage. by run_with H. Qed.

Lemma pipeStage_objectCall i obj function arguments s nextArg st o st1 :
  E e ctx obj s st = Done o st1 ->
  pipeStage X E e ctx i (ast.ObjectCall obj (ast.Call function arguments)) s
    nextArg st =
  (if object.IsError o then ret (inl o) else
   do resolved <- pipeArguments X E e ctx arguments s;
   match resolved with
   | inl err => ret (inl err)
   | inr args =>
       match function with
       | ast.Ident literal =>
           do res <- evalObjectCall X E e ctx s o literal (pipePrepend args nextArg);
           pipeResult res
       | _ =>
           do err <- Errorf ("invalid function in pipe expression: "
                             +:+ FormatFunction X (ast.Call function arguments));
           ret (inl err)
       end
   end) st1.
Proof. intros H. unfold pipeStage. by run_with H. Qed.

Lemma pipeArguments_explicit arguments s st args st' :
  arguments <> [] ->
  evalExpressions X E e ctx arguments s st = Done args st' ->
  (forall a, args = [a] -> object.IsError a = false) ->
  pipeArguments X E e ctx arguments s st = Done (inr args) st'.
Proof.
  intros Hne H Hargs. unfold pipeArguments.
  destruct arguments; [congruence |]. simpl. run_with H.
  destruct args as [| a [| b more]]; try reflexivity.
  by rewrite (Hargs a eq_refl).
Qed.

Lemma pipeArguments_error arguments s st p msg st' :
  arguments <> [] ->
  evalExpressions X E e ctx arguments s st = Done [object.Error p msg] st' ->
  pipeArguments X E e ctx arguments s st = Done (inl (object.Error p msg)) st'.
Proof.
  intros Hne H. unfold pipeArguments.
  destruct arguments; [congruence |]. simpl. by run_with H.
Qed.

Lemma pipePrepend_cons args nextArg :
  nextArg <> object.GoNil -> pipePrepend args nextArg = nextArg :: args.
Proof.
  intros H. unfold pipePrepend.
  destruct nextArg; try congruence; apply prependObject_cons.
Qed.

End Pipe.




(** The claim C2 as it is stated fails where the previous stage left the
    nil interface value: in [5 |> quiet |> sub(10, 3)] the builtin [quiet]
    returns no object, the guard [nextArg != nil] skips the prepending, and
    [sub] is invoked with its explicit arguments alone, [10 - 3]; with the
    previous result as argument 0, [sub] would have reported its three
    arguments. *)
Lemma pipe_call_stage_without_piped_value :
  Run.value (Run.exec 6
    [ast.Pipe [ast.Int 5; ast.Ident "quiet";
               ast.Call (ast.Ident "sub") [ast.Int 10; ast.Int 3]]])
    = Some (object.Int 7) /\
  Run.value (pipeStage Std.X (Evaluate Std.X 3) Run.evaluator Run.background 1
               (ast.Call (ast.Ident "sub") [ast.Int 10; ast.Int 3]) 0
               object.GoNil Run.ready)
    = Run.value ((do res <- Std.applyFunction (Evaluate Std.X 3) Run.evaluator Run.background 0
                 (object.Builtin 1)
                              [object.Int 10; object.Int 3];
                  pipeResult res) Run.ready) /\
  Run.value (Std.applyFunction (Evaluate Std.X 3) Run.evaluator Run.background 0
                 (object.Builtin 1)
               [object.GoNil; object.Int 10; object.Int 3] Run.ready)
    = Some (object.Error 6 "type error: sub() takes two integers").
Proof. repeat split; vm_compute; reflexivity. Qed.

(** C2, amended: a stage written as a call, or as a method-style call,
    with explicit arguments invokes its callee with the previous stage's
    result, when that result is not the nil interface value, as the first
    argument, followed by the explicit arguments in the order in which
    [evalExpressions] returned them; when the previous stage left the nil
    interface value the callee receives the explicit arguments alone.
    [5 |> sub(10)] with [sub(a, b) = a - b] yields [-5]. *)
Theorem evalPipe_call_stage_prepends :
  forall (X : Externs) (E : Eval) (e : Evaluator) (ctx : Context) (i : nat)
         (s : nat) (nextArg : Object) (st : State) (arguments : list Node)
         (args : list Object) (st1 st2 : State),
    arguments <> [] ->
    evalExpressions X E e ctx arguments s st1 = Done args st2 ->
    (forall a, args = [a] -> object.IsError a = false) ->
    (forall function f,
        E e ctx function s st = Done f st1 ->
        object.IsError f = false ->
        pipeStage X E e ctx i (ast.Call function arguments) s nextArg st =
        (do res <- applyFunction X E e ctx s f
                     match nextArg with
                     | object.GoNil => args
                     | _ => nextArg :: args
                     end;
         pipeResult res) st2) /\
    (forall obj o name,
        E e ctx obj s st = Done o st1 ->
        object.IsError o = false ->
        pipeStage X E e ctx i
          (ast.ObjectCall obj (ast.Call (ast.Ident name) arguments)) s nextArg st =
        (do res <- evalObjectCall X E e ctx s o name
                     match nextArg with
                     | object.GoNil => args
                     | _ => nextArg :: args
                     end;
         pipeResult res) st2) /\
    prependObject args nextArg = nextArg :: args /\
    Run.value (Run.exec 5
      [ast.Pipe [ast.Int 5; ast.Call (ast.Ident "sub") [ast.Int 10]]])
      = Some (object.Int (-5)).
Proof.
  intros X E e ctx i s nextArg st arguments args st1 st2 Hne Hargs Hone.
  assert (Hpre : pipePrepend args nextArg =
                 match nextArg with
                 | object.GoNil => args
                 | _ => nextArg :: args
                 end).
  { destruct nextArg; try reflexivity; by apply pipePrepend_cons. }
  repeat split.
  - intros function f Hf Herr.
    rewrite (pipeStage_call X E e ctx i function arguments s nextArg st f st1 Hf).
    rewrite Herr. unfold bind at 1.
    rewrite (pipeArguments_explicit X E e ctx arguments s st1 args st2 Hne Hargs Hone).
    by rewrite Hpre.
  - intros obj o name Ho Herr.
    rewrite (pipeStage_objectCall X E e ctx i obj (ast.Ident name) arguments s
               nextArg st o st1 Ho).
    rewrite Herr. unfold bind at 1.
    rewrite (pipeArguments_explicit X E e ctx arguments s st1 args st2 Hne Hargs Hone).
    by rewrite Hpre.
  - apply prependObject_cons.
Qed.

Lemma evalPipe_call_stage_prepends_witness :
  pipeStage Std.X (Evaluate Std.X 3) Run.evaluator Run.background 0
    (ast.Call (ast.Ident "sub") [ast.Int 10]) 0 (object.Int 5) Run.ready
  = Done (inr (object.Int (-5)))
      (emit (EvEval (ast.Int 10) 0) (emit (EvEval (ast.Ident "sub") 0) Run.ready)).
Proof.
  destruct (evalPipe_call_stage_prepends Std.X (Evaluate Std.X 3) Run.evaluator
              Run.background 0 0 (object.Int 5) Run.ready [ast.Int 10]
              [object.Int 10] (emit (EvEval (ast.Ident "sub") 0) Run.ready)
              (emit (EvEval (ast.Int 10) 0)
                 (emit (EvEval (ast.Ident "sub") 0) Run.ready)))
    as (H & _).
  - discriminate.
  - reflexivity.
  - by intros a [= <-].
  - etrans; [apply (H (ast.Ident "sub") (object.Builtin 1)); reflexivity |].
    reflexivity.
Defined.

(** ** Error propagation, the remaining constructs *)

Section PropagationRest.

Variable X : Externs.
Variable E : Eval.
Variable e : Evaluator.
Variable ctx : Context.

Lemma forLoop_post_error k c body post fs ls lv st st1 cv st2 rt st3 p msg st' :
  scope.Clear ls st = Done tt st1 ->
  E e ctx c fs st1 = Done cv st2 ->
  object.IsError cv = false -> cv <> object.GoNil -> IsTruthy X cv = true ->
  E e ctx body ls st2 = Done rt st3 ->
  object.IsError rt = false ->
  (forall keyword value, rt = object.Control keyword value ->
                         keyword <> "break" /\ keyword <> "return") ->
  post <> ast.GoNil ->
  E e ctx post fs st3 = Done (object.Error p msg) st' ->
  forLoop X E e ctx (S k) c body post fs ls lv st = Done (object.Error p msg) st'.
Proof.
  intros H1 H2 Hne Hnil Ht H3 Hrt Hctl Hpost H4. simpl. run_hyps. rewrite Hne.
  unfold method.
  assert (Hrun : forall v, (match post with
            | ast.GoNil => forLoop X E e ctx k c body post fs ls v
            | _ => do res <- E e ctx post fs;
                   if object.IsError res then ret res
                   else forLoop X E e ctx k c body post fs ls v
            end) st3 = Done (object.Error p msg) st').
  { intros v. destruct post; try congruence; by run_with H4. }
  destruct cv; try congruence; unfold ret; rewrite Ht, H3;
    destruct rt; try discriminate; try apply Hrun;
    destruct (Hctl _ _ eq_refl) as [Hb Hr];
    rewrite !decide_False by assumption; apply Hrun.
Qed.

Lemma evalFor_simple_body_error k fle c body post s st st1 p msg st' :
  IsSimpleLoop X fle = true ->
  scope.Clear (loopScope st) (forEntered s st) = Done tt st1 ->
  E e ctx body (loopScope st) st1 = Done (object.Error p msg) st' ->
  evalFor X E e ctx (S k) fle ast.GoNil c body post s st
    = Done (object.Error p msg) st'.
Proof.
  intros Hs H1 H2. rewrite evalFor_enter. unfold bind, ret. rewrite Hs.
  by apply evalSimpleForLoop_error with st1.
Qed.

Lemma evalPipe_stage_error first pre expr post s st a0 st0 a st1 p msg st' :
  E e ctx first s st = Done a0 st0 ->
  object.IsError a0 = false ->
  pipeThrough X E e ctx 0 pre s a0 st0 = Done (inr a) st1 ->
  pipeStage X E e ctx (length pre) expr s a st1 = Done (inl (object.Error p msg)) st' ->
  evalPipe X E e ctx (first :: pre ++ expr :: post) s st = Done (object.Error p msg) st'.
Proof.
  intros H1 H2 H3 H4.
  rewrite (evalPipe_stage X E e ctx first pre expr post s st a0 st0 a st1 H1 H2 H3).
  by run_with H4.
Qed.

Lemma pipeStage_call_function_error i function arguments s nextArg st p msg st' :
  E e ctx function s st = Done (object.Error p msg) st' ->
  pipeStage X E e ctx i (ast.Call function arguments) s nextArg st
    = Done (inl (object.Error p msg)) st'.
Proof. intros H. by rewrite (pipeStage_call _ _ _ _ _ _ _ _ _ _ _ _ H). Qed.

Lemma pipeStage_call_argument_error i function arguments s nextArg st f st1 p msg st' :
  E e ctx function s st = Done f st1 ->
  object.IsError f = false ->
  arguments <> [] ->
  evalExpressions X E e ctx arguments s st1 = Done [object.Error p msg] st' ->
  pipeStage X E e ctx i (ast.Call function arguments) s nextArg st
    = Done (inl (object.Error p msg)) st'.
Proof.
  intros H Hf Hne Hargs. rewrite (pipeStage_call _ _ _ _ _ _ _ _ _ _ _ _ H), Hf.
  unfold bind. by rewrite (pipeArguments_error _ _ _ _ _ _ _ _ _ _ Hne Hargs).
Qed.

Lemma pipeStage_object_error i obj call s nextArg st p msg st' :
  E e ctx obj s st = Done (object.Error p msg) st' ->
  pipeStage X E e ctx i (ast.ObjectCall obj call) s nextArg st
    = Done (inl (object.Error p msg)) st'.
Proof. intros H. unfold pipeStage. by run_with H. Qed.

Lemma pipeStage_bare_error i expr s nextArg st p msg st' :
  isBare expr = true ->
  E e ctx expr s st = Done (object.Error p msg) st' ->
  pipeStage X E e ctx i expr s nextArg st = Done (inl (object.Error p msg)) st'.
Proof. intros Hb H. by rewrite (pipeStage_bare _ _ _ _ _ _ _ _ _ _ _ Hb H). Qed.

Lemma evalSwitch_block_error value choices s st subject st0 pre c block post
    st1 out st2 p msg st' :
  E e ctx value s st = Done subject st0 ->
  object.IsError subject = false ->
  candidates choices = pre ++ (c, block) :: post ->
  rejected X E e ctx subject (map fst pre) s st0 = Some st1 ->
  E e ctx c s st1 = Done out st2 ->
  object.IsError out = false ->
  Equals X subject out = true ->
  evalBlockStatement X E e ctx block s st2 = Done (object.Error p msg) st' ->
  evalSwitch X E e ctx value choices s st = Done (object.Error p msg) st'.
Proof.
  intros Hv Hne Hc Hrej Hout Herr Heq Hblock. rewrite <- Hblock.
  by eapply evalSwitch_first_match.
Qed.

Lemma pipeStage_call_result_error i function arguments s nextArg st f st1
    args st2 p msg st' :
  E e ctx function s st = Done f st1 ->
  object.IsError f = false ->
  pipeArguments X E e ctx arguments s st1 = Done (inr args) st2 ->
  applyFunction X E e ctx s f (pipePrepend args nextArg) st2
    = Done (object.Error p msg) st' ->
  pipeStage X E e ctx i (ast.Call function arguments) s nextArg st
    = Done (inl (object.Error p msg)) st'.
Proof.
  intros H Hf Hargs Hres. rewrite (pipeStage_call _ _ _ _ _ _ _ _ _ _ _ _ H), Hf.
  unfold bind. by rewrite Hargs, Hres.
Qed.

Lemma pipeStage_objectCall_argument_error i obj function arguments s nextArg st
    o st1 p msg st' :
  E e ctx obj s st = Done o st1 ->
  object.IsError o = false ->
  arguments <> [] ->
  evalExpressions X E e ctx arguments s st1 = Done [object.Error p msg] st' ->
  pipeStage X E e ctx i (ast.ObjectCall obj (ast.Call function arguments)) s
    nextArg st = Done (inl (object.Error p msg)) st'.
Proof.
  intros H Ho Hne Hargs.
  rewrite (pipeStage_objectCall _ _ _ _ _ _ _ _ _ _ _ _ _ H), Ho.
  unfold bind. by rewrite (pipeArguments_error _ _ _ _ _ _ _ _ _ _ Hne Hargs).
Qed.

Lemma pipeStage_objectCall_result_error i obj literal arguments s nextArg st
    o st1 args st2 p msg st' :
  E e ctx obj s st = Done o st1 ->
  object.IsError o = false ->
  pipeArguments X E e ctx arguments s st1 = Done (inr args) st2 ->
  evalObjectCall X E e ctx s o literal (pipePrepend args nextArg) st2
    = Done (object.Error p msg) st' ->
  pipeStage X E e ctx i
    (ast.ObjectCall obj (ast.Call (ast.Ident literal) arguments)) s nextArg st
    = Done (inl (object.Error p msg)) st'.
Proof.
  intros H Ho Hargs Hres.
  rewrite (pipeStage_objectCall _ _ _ _ _ _ _ _ _ _ _ _ _ H), Ho.
  unfold bind. by rewrite Hargs, Hres.
Qed.

Lemma pipeStage_bare_result_error i expr s nextArg st obj st1 p msg st' :
  isBare expr = true ->
  E e ctx expr s st = Done obj st1 ->
  isCallable obj = true ->
  applyFunction X E e ctx s obj
    match nextArg with
    | object.GoNil => []
    | _ => [nextArg]
    end st1 = Done (object.Error p msg) st' ->
  pipeStage X E e ctx i expr s nextArg st = Done (inl (object.Error p msg)) st'.
Proof.
  intros Hb H Hc Hres. rewrite (pipeStage_bare _ _ _ _ _ _ _ _ _ _ _ Hb H), Hc.
  replace (object.IsError obj) with false by (by destruct obj).
  unfold bind. by rewrite Hres.
Qed.

Lemma evalSwitch_default_error value choices s st subject st0 st1 block
    p msg st' :
  E e ctx value s st = Done subject st0 ->
  object.IsError subject = false ->
  rejected X E e ctx subject (map fst (candidates choices)) s st0 = Some st1 ->
  firstDefault choices = Some block ->
  evalBlockStatement X E e ctx block s st1 = Done (object.Error p msg) st' ->
  evalSwitch X E e ctx value choices s st = Done (object.Error p msg) st'.
Proof.
  intros Hv Hne Hrej Hd Hblock.
  by rewrite (evalSwitch_no_match X E e ctx value choices s st subject st0 st1
                Hv Hne Hrej), Hd.
Qed.

Lemma evalIf_consequence_error c t a s st cv st1 p msg st' :
  E e ctx c s st = Done cv st1 ->
  object.IsError cv = false -> cv <> object.GoNil -> IsTruthy X cv = true ->
  E e ctx t s st1 = Done (object.Error p msg) st' ->
  evalIf X E e ctx c t a s st = Done (object.Error p msg) st'.
Proof.
  intros H1 Hne Hnil Ht H2. unfold evalIf. run_hyps. rewrite Hne.
  unfold method. destruct cv; try congruence; unfold ret; by rewrite Ht.
Qed.

Lemma evalIf_alternative_error c t a s st cv st1 p msg st' :
  E e ctx c s st = Done cv st1 ->
  object.IsError cv = false -> cv <> object.GoNil -> IsTruthy X cv = false ->
  a <> ast.GoNil ->
  E e ctx a s st1 = Done (object.Error p msg) st' ->
  evalIf X E e ctx c t a s st = Done (object.Error p msg) st'.
Proof.
  intros H1 Hne Hnil Ht Ha H2. unfold evalIf. run_hyps. rewrite Hne.
  unfold method.
  destruct cv; try congruence; unfold ret; rewrite Ht;
    destruct a; congruence.
Qed.

Lemma evalIteratorForLoop_body_error k c body s names iterExpr st it st0 st1
    key value st2 st3 p msg st' :
  (c = ast.Var (hd EmptyString names) iterExpr /\ length names = 1%nat \/
   c = ast.MultiVar names iterExpr /\ (1 <= length names <= 2)%nat) ->
  E e ctx iterExpr s st = Done (object.Iter it) st0 ->
  scope.Clear s st0 = Done tt st1 ->
  Next it st1 = Done (Some (key, value)) st2 ->
  bindEntry s names key value st2 = Done None st3 ->
  E e ctx body s st3 = Done (object.Error p msg) st' ->
  evalIteratorForLoop X E e ctx (S k) c body s st = Done (object.Error p msg) st'.
Proof.
  intros Hc H0 H1 H2 H3 H4.
  pose proof (iteratorLoop_error E e ctx k it names body s object.Nil st0 st1
                key value st2 st3 p msg st' H1 H2 H3 H4) as Hloop.
  unfold evalIteratorForLoop. destruct Hc as [[-> Hlen] | [-> Hlen]].
  - destruct names as [| n0 [| n1 more]]; simpl in Hlen; try lia.
    cbn -[iteratorLoop]. unfold bind. rewrite H0. cbn -[iteratorLoop].
    exact Hloop.
  - destruct names as [| n0 [| n1 [| n2 more]]]; simpl in Hlen; try lia;
      (cbn -[iteratorLoop]; unfold bind; rewrite H0; cbn -[iteratorLoop];
       exact Hloop).
Qed.

Lemma evalControl_return_error nodeVal s st p msg st' :
  nodeVal <> ast.GoNil ->
  E e ctx nodeVal s st = Done (object.Error p msg) st' ->
  evalControl E e ctx "return" nodeVal s st = Done (object.Error p msg) st'.
Proof.
  intros Hn H. unfold evalControl. simpl.
  destruct nodeVal; try congruence; by run_with H.
Qed.

Lemma evalRange_error container s st p msg st' :
  E e ctx container s st = Done (object.Error p msg) st' ->
  evalRange X E e ctx container s st = Done (object.Error p msg) st'.
Proof. intros H. unfold evalRange. by run_with H. Qed.

End PropagationRest.

(** C1: when the evaluation of a sub-node (the condition of an if; the
    init, condition, body or post of a for; the range expression or the
    body of an iterator loop; the subject or a candidate of a switch; the
    source of a pipe or the callee, object, arguments or bare expression of
    a stage, the stage being a call, a method-style call or bare; the
    expression of a return; the container of a range), or the block of a
    switch case or of its default, or the call a pipe stage makes (of its
    callee, of the method of its object, of the value of a bare stage), or
    the branch an if takes, produces an Error, the construct returns that very [*Error] and the
    state is the one the failing evaluation left: nothing is evaluated
    after it.  In [for { error() }] the loop returns the error object its
    body made, the one [error()] makes; in [1 |> 5.m(error())] the pipe
    returns the error of the argument, in [1 |> 5.m()] the one of the
    method call, and in [1 |> error |> quiet] the one the bare stage
    [error] returns. *)
Theorem error_propagates_unchanged :
  forall (X : Externs) (E : Eval) (e : Evaluator) (ctx : Context)
         (p : nat) (msg : string) (st' : State),
    let err := object.Error p msg in
    (forall c t a s st,
        E e ctx c s st = Done err st' ->
        evalIf X E e ctx c t a s st = Done err st') /\
    (forall k fle init c body post s st,
        init <> ast.GoNil ->
        E e ctx init (forScope st) (forEntered s st) = Done err st' ->
        evalFor X E e ctx k fle init c body post s st = Done err st') /\
    (forall k fle c body post s st st1,
        IsSimpleLoop X fle = true ->
        scope.Clear (loopScope st) (forEntered s st) = Done tt st1 ->
        E e ctx body (loopScope st) st1 = Done err st' ->
        evalFor X E e ctx (S k) fle ast.GoNil c body post s st = Done err st') /\
    (forall k body s lv st st1,
        scope.Clear s st = Done tt st1 ->
        E e ctx body s st1 = Done err st' ->
        evalSimpleForLoop E e ctx (S k) body s lv st = Done err st') /\
    (forall k c body s names iterExpr st,
        (c = ast.Var (hd EmptyString names) iterExpr /\ length names = 1%nat \/
         c = ast.MultiVar names iterExpr /\ (1 <= length names <= 2)%nat) ->
        E e ctx iterExpr s st = Done err st' ->
        evalIteratorForLoop X E e ctx k c body s st = Done err st') /\
    (forall k it names body s lv st st1 key value st2 st3,
        scope.Clear s st = Done tt st1 ->
        Next it st1 = Done (Some (key, value)) st2 ->
        bindEntry s names key value st2 = Done None st3 ->
        E e ctx body s st3 = Done err st' ->
        iteratorLoop E e ctx (S k) it names body s lv st = Done err st') /\
    (forall k c body post fs ls lv st st1,
        scope.Clear ls st = Done tt st1 ->
        E e ctx c fs st1 = Done err st' ->
        forLoop X E e ctx (S k) c body post fs ls lv st = Done err st') /\
    (forall k c body post fs ls lv st st1 cv st2,
        scope.Clear ls st = Done tt st1 ->
        E e ctx c fs st1 = Done cv st2 ->
        object.IsError cv = false -> cv <> object.GoNil ->
        IsTruthy X cv = true ->
        E e ctx body ls st2 = Done err st' ->
        forLoop X E e ctx (S k) c body post fs ls lv st = Done err st') /\
    (forall k c body post fs ls lv st st1 cv st2 rt st3,
        scope.Clear ls st = Done tt st1 ->
        E e ctx c fs st1 = Done cv st2 ->
        object.IsError cv = false -> cv <> object.GoNil ->
        IsTruthy X cv = true ->
        E e ctx body ls st2 = Done rt st3 ->
        object.IsError rt = false ->
        (forall keyword value, rt = object.Control keyword value ->
                               keyword <> "break" /\ keyword <> "return") ->
        post <> ast.GoNil ->
        E e ctx post fs st3 = Done err st' ->
        forLoop X E e ctx (S k) c body post fs ls lv st = Done err st') /\
    (forall value choices s st,
        E e ctx value s st = Done err st' ->
        evalSwitch X E e ctx value choices s st = Done err st') /\
    (forall value choices s st subject st0 pre c block post st1,
        E e ctx value s st = Done subject st0 ->
        object.IsError subject = false ->
        candidates choices = pre ++ (c, block) :: post ->
        rejected X E e ctx subject (map fst pre) s st0 = Some st1 ->
        E e ctx c s st1 = Done err st' ->
        evalSwitch X E e ctx value choices s st = Done err st') /\
    (forall value choices s st subject st0 pre c block post st1 out st2,
        E e ctx value s st = Done subject st0 ->
        object.IsError subject = false ->
        candidates choices = pre ++ (c, block) :: post ->
        rejected X E e ctx subject (map fst pre) s st0 = Some st1 ->
        E e ctx c s st1 = Done out st2 ->
        object.IsError out = false ->
        Equals X subject out = true ->
        evalBlockStatement X E e ctx block s st2 = Done err st' ->
        evalSwitch X E e ctx value choices s st = Done err st') /\
    (forall first stage stages s st,
        E e ctx first s st = Done err st' ->
        evalPipe X E e ctx (first :: stage :: stages) s st = Done err st') /\
    (forall first pre expr post s st a0 st0 a st1,
        E e ctx first s st = Done a0 st0 ->
        object.IsError a0 = false ->
        pipeThrough X E e ctx 0 pre s a0 st0 = Done (inr a) st1 ->
        pipeStage X E e ctx (length pre) expr s a st1 = Done (inl err) st' ->
        evalPipe X E e ctx (first :: pre ++ expr :: post) s st = Done err st') /\
    (forall i function arguments s nextArg st,
        E e ctx function s st = Done err st' ->
        pipeStage X E e ctx i (ast.Call function arguments) s nextArg st
          = Done (inl err) st') /\
    (forall i function arguments s nextArg st f st1,
        E e ctx function s st = Done f st1 ->
        object.IsError f = false ->
        arguments <> [] ->
        evalExpressions X E e ctx arguments s st1 = Done [err] st' ->
        pipeStage X E e ctx i (ast.Call function arguments) s nextArg st
          = Done (inl err) st') /\
    (forall i function arguments s nextArg st f st1 args st2,
        E e ctx function s st = Done f st1 ->
        object.IsError f = false ->
        pipeArguments X E e ctx arguments s st1 = Done (inr args) st2 ->
        applyFunction X E e ctx s f (pipePrepend args nextArg) st2 = Done err st' ->
        pipeStage X E e ctx i (ast.Call function arguments) s nextArg st
          = Done (inl err) st') /\
    (forall i obj call s nextArg st,
        E e ctx obj s st = Done err st' ->
        pipeStage X E e ctx i (ast.ObjectCall obj call) s nextArg st
          = Done (inl err) st') /\
    (forall i expr s nextArg st,
        isBare expr = true ->
        E e ctx expr s st = Done err st' ->
        pipeStage X E e ctx i expr s nextArg st = Done (inl err) st') /\
    (forall i obj function arguments s nextArg st o st1,
        E e ctx obj s st = Done o st1 ->
        object.IsError o = false ->
        arguments <> [] ->
        evalExpressions X E e ctx arguments s st1 = Done [err] st' ->
        pipeStage X E e ctx i (ast.ObjectCall obj (ast.Call function arguments))
          s nextArg st = Done (inl err) st') /\
    (forall i obj literal arguments s nextArg st o st1 args st2,
        E e ctx obj s st = Done o st1 ->
        object.IsError o = false ->
        pipeArguments X E e ctx arguments s st1 = Done (inr args) st2 ->
        evalObjectCall X E e ctx s o literal (pipePrepend args nextArg) st2
          = Done err st' ->
        pipeStage X E e ctx i
          (ast.ObjectCall obj (ast.Call (ast.Ident literal) arguments))
          s nextArg st = Done (inl err) st') /\
    (forall i expr s nextArg st obj st1,
        isBare expr = true ->
        E e ctx expr s st = Done obj st1 ->
        isCallable obj = true ->
        applyFunction X E e ctx s obj
          match nextArg with
          | object.GoNil => []
          | _ => [nextArg]
          end st1 = Done err st' ->
        pipeStage X E e ctx i expr s nextArg st = Done (inl err) st') /\
    (forall value choices s st subject st0 st1 block,
        E e ctx value s st = Done subject st0 ->
        object.IsError subject = false ->
        rejected X E e ctx subject (map fst (candidates choices)) s st0
          = Some st1 ->
        firstDefault choices = Some block ->
        evalBlockStatement X E e ctx block s st1 = Done err st' ->
        evalSwitch X E e ctx value choices s st = Done err st') /\
    (forall c t a s st cv st1,
        E e ctx c s st = Done cv st1 ->
        object.IsError cv = false -> cv <> object.GoNil ->
        IsTruthy X cv = true ->
        E e ctx t s st1 = Done err st' ->
        evalIf X E e ctx c t a s st = Done err st') /\
    (forall c t a s st cv st1,
        E e ctx c s st = Done cv st1 ->
        object.IsError cv = false -> cv <> object.GoNil ->
        IsTruthy X cv = false ->
        a <> ast.GoNil ->
        E e ctx a s st1 = Done err st' ->
        evalIf X E e ctx c t a s st = Done err st') /\
    (forall k c body s names iterExpr st it st0 st1 key value st2 st3,
        (c = ast.Var (hd EmptyString names) iterExpr /\ length names = 1%nat \/
         c = ast.MultiVar names iterExpr /\ (1 <= length names <= 2)%nat) ->
        E e ctx iterExpr s st = Done (object.Iter it) st0 ->
        scope.Clear s st0 = Done tt st1 ->
        Next it st1 = Done (Some (key, value)) st2 ->
        bindEntry s names key value st2 = Done None st3 ->
        E e ctx body s st3 = Done err st' ->
        evalIteratorForLoop X E e ctx (S k) c body s st = Done err st') /\
    (forall nodeVal s st,
        nodeVal <> ast.GoNil ->
        E e ctx nodeVal s st = Done err st' ->
        evalControl E e ctx "return" nodeVal s st = Done err st') /\
    (forall container s st,
        E e ctx container s st = Done err st' ->
        evalRange X E e ctx container s st = Done err st') /\
    (let call := ast.Call (ast.Ident "error") [] in
     Run.value (Run.exec 6 [ast.For ast.GoNil ast.GoNil (ast.Block [call]) ast.GoNil])
       = Some (object.Error 8 "error") /\
     Run.value (Evaluate Std.X 5 Run.evaluator Run.background (ast.Block [call])
                  (loopScope Run.ready) (forEntered 0 Run.ready))
       = Some (object.Error 8 "error") /\
     Run.value (Run.exec 6 [call]) = Some (object.Error 6 "error") /\
     Run.value (Run.exec 6
       [ast.Pipe [ast.Int 1;
                  ast.ObjectCall (ast.Int 5) (ast.Call (ast.Ident "m") [call])]])
       = Some (object.Error 6 "error") /\
     Run.value (Run.exec 6
       [ast.Pipe [ast.Int 1;
                  ast.ObjectCall (ast.Int 5) (ast.Call (ast.Ident "m") [])]])
       = Some (object.Error 6 "attribute error: no method m") /\
     Run.value (Run.exec 6
       [ast.Pipe [ast.Int 1; ast.Ident "error"; ast.Ident "quiet"]])
       = Some (object.Error 6 "error")).
Proof.
  intros X E e ctx p msg st' err. unfold err.
  repeat lazymatch goal with |- _ /\ _ => split end.
  - intros. by apply evalIf_error.
  - intros. by apply evalFor_init_error.
  - intros. by eapply evalFor_simple_body_error.
  - intros. by eapply evalSimpleForLoop_error.
  - intros. by eapply evalIteratorForLoop_error.
  - intros. by eapply iteratorLoop_error.
  - intros. by eapply forLoop_condition_error.
  - intros. by eapply forLoop_body_error.
  - intros. by eapply forLoop_post_error.
  - intros. by apply evalSwitch_subject_error.
  - intros. by eapply evalSwitch_candidate_error.
  - intros. by eapply evalSwitch_block_error.
  - intros. by apply evalPipe_first_error.
  - intros. by eapply evalPipe_stage_error.
  - intros. by apply pipeStage_call_function_error.
  - intros. by eapply pipeStage_call_argument_error.
  - intros. by eapply pipeStage_call_result_error.
  - intros. by apply pipeStage_object_error.
  - intros. by apply pipeStage_bare_error.
  - intros. by eapply pipeStage_objectCall_argument_error.
  - intros. by eapply pipeStage_objectCall_result_error.
  - intros. by eapply pipeStage_bare_result_error.
  - intros. by eapply evalSwitch_default_error.
  - intros. by eapply evalIf_consequence_error.
  - intros. by eapply evalIf_alternative_error.
  - intros. by eapply evalIteratorForLoop_body_error.
  - intros. by apply evalControl_return_error.
  - intros. by apply evalRange_error.
  - vm_compute. reflexivity.
  - vm_compute. reflexivity.
  - vm_compute. reflexivity.
  - vm_compute. reflexivity.
  - vm_compute. reflexivity.
  - vm_compute. reflexivity.
Qed.

Lemma error_propagates_unchanged_witness :
  let call := ast.Call (ast.Ident "error") [] in
  let cleared := Run.after (scope.Clear (loopScope Run.ready)
                              (forEntered 0 Run.ready)) in
  evalFor Std.X (Evaluate Std.X 4) Run.evaluator Run.background 3
    (ast.For ast.GoNil ast.GoNil (ast.Block [call]) ast.GoNil)
    ast.GoNil ast.GoNil (ast.Block [call]) ast.GoNil 0 Run.ready
  = Done (object.Error 8 "error")
      (Run.after (Evaluate Std.X 4 Run.evaluator Run.background
                    (ast.Block [call]) (loopScope Run.ready) cleared)).
Proof.
  intros call cleared.
  destruct (error_propagates_unchanged Std.X (Evaluate Std.X 4) Run.evaluator
              Run.background 8 "error"
              (Run.after (Evaluate Std.X 4 Run.evaluator Run.background
                            (ast.Block [call]) (loopScope Run.ready) cleared)))
    as (_ & _ & H & _).
  apply H with (st1 := cleared); vm_compute; reflexivity.
Defined.

(** ** String templates (evalStringLiteral) *)


Lemma append_assoc (a b c : string) : (a +:+ b) +:+ c = a +:+ (b +:+ c).
Proof.
  induction a as [| x a IH]; [reflexivity |].
  change (String x ((a +:+ b) +:+ c) = String x (a +:+ (b +:+ c))). by f_equal.
Qed.



Section Template.

Variable X : Externs.
Variable E : Eval.
Variable ctx : Context.



End Template.


(** ** The condition form of the for loop (evalFor) *)

Section ForLoop.

Variable X : Externs.
Variable E : Eval.
Variable e : Evaluator.
Variable ctx : Context.

(** The condition form: the init statement is evaluated once, in the outer
    scope, before the loop starts with nil as its value. *)
Lemma evalFor_condition_form k fle init c body post s st :
  IsSimpleLoop X fle = false ->
  IsIteratorLoop X fle = false ->
  init <> ast.GoNil ->
  evalFor X E e ctx k fle init c body post s st =
  (do res <- E e ctx init (forScope st);
   if object.IsError res then ret res
   else forLoop X E e ctx k c body post (forScope st) (loopScope st) object.Nil)
    (forEntered s st).
Proof.
  intros Hs Hi Hinit. rewrite evalFor_enter, Hs, Hi. unfold bind.
  destruct init; try congruence;
    (case_outcome;
     match goal with
     | |- context [object.IsError ?a] => by destruct (object.IsError a)
     end).
Qed.

(** One complete iteration, then the loop goes on. *)
Lemma forLoop_step k c body post fs ls lv st st1 cv st2 rt st3 lv' st4 :
  scope.Clear ls st = Done tt st1 ->
  E e ctx c fs st1 = Done cv st2 ->
  object.IsError cv = false -> cv <> object.GoNil -> IsTruthy X cv = true ->
  E e ctx body ls st2 = Done rt st3 ->
  latest rt lv = Some lv' ->
  afterPost E e ctx post fs st3 = Some st4 ->
  forLoop X E e ctx (S k) c body post fs ls lv st =
  forLoop X E e ctx k c body post fs ls lv' st4.
Proof.
  intros H1 H2 Hne Hnil Ht H3 Hl Hp. simpl. run_hyps. rewrite Hne.
  assert (Hrun : forall v, (match post with
            | ast.GoNil => forLoop X E e ctx k c body post fs ls v
            | _ => do res <- E e ctx post fs;
                   if object.IsError res then ret res
                   else forLoop X E e ctx k c body post fs ls v
            end) st3 = forLoop X E e ctx k c body post fs ls v st4).
  { intros v. revert Hp. unfold afterPost.
    destruct post; try (by intros [= ->]);
      (unfold bind; case_outcome; try discriminate;
       match goal with
       | |- context [object.IsError ?a] => destruct (object.IsError a)
       end; [discriminate | by intros [= ->]]). }
  unfold method. destruct cv; try congruence; unfold ret; rewrite Ht, H3;
    revert Hl; unfold latest; destruct rt; try discriminate;
    try (intros [= <-]; apply Hrun);
    repeat case_decide; try discriminate; intros [= <-]; apply Hrun.
Qed.

Lemma forLoop_iterate c body post fs ls n :
  forall k lv st lvn stn,
    iterate X E e ctx c body post fs ls n lv st = Some (lvn, stn) ->
    forLoop X E e ctx (n + k) c body post fs ls lv st =
    forLoop X E e ctx k c body post fs ls lvn stn.
Proof.
  induction n as [| n IH]; intros k lv st lvn stn; simpl iterate.
  - by intros [= -> ->].
  - destruct (scope.Clear ls st) as [[] st1| |] eqn:H1; try discriminate.
    destruct (E e ctx c fs st1) as [cv st2| |] eqn:H2; try discriminate.
    destruct (object.IsError cv) eqn:Hne; try discriminate.
    assert (cv = object.GoNil \/ cv <> object.GoNil) as [-> | Hnil]
      by (destruct cv; (by left) || (by right)); [discriminate |].
    assert (Hiter : (if IsTruthy X cv
                     then match E e ctx body ls st2 with
                          | Done rt st3 =>
                              match latest rt lv with
                              | Some lv0 =>
                                  match afterPost E e ctx post fs st3 with
                                  | Some st4 =>
                                      iterate X E e ctx c body post fs ls n lv0 st4
                                  | None => None
                                  end
                              | None => None
                              end
                          | _ => None
                          end
                     else None) = Some (lvn, stn) ->
                    forLoop X E e ctx (S n + k) c body post fs ls lv st =
                    forLoop X E e ctx k c body post fs ls lvn stn).
    { destruct (IsTruthy X cv) eqn:Ht; try discriminate.
      destruct (E e ctx body ls st2) as [rt st3| |] eqn:H3; try discriminate.
      destruct (latest rt lv) as [lv' |] eqn:Hl; try discriminate.
      destruct (afterPost E e ctx post fs st3) as [st4 |] eqn:Hp; try discriminate.
      intros Hrest. rewrite <- (IH k lv' st4 lvn stn Hrest).
      by apply forLoop_step with st1 cv st2 rt st3. }
    destruct cv; try congruence; exact Hiter.
Qed.

(** The loop ends when the condition is falsy, with the latest value. *)
Lemma forLoop_falsy k c body post fs ls lv st st1 cv st2 :
  scope.Clear ls st = Done tt st1 ->
  E e ctx c fs st1 = Done cv st2 ->
  object.IsError cv = false -> cv <> object.GoNil -> IsTruthy X cv = false ->
  forLoop X E e ctx (S k) c body post fs ls lv st = Done lv st2.
Proof.
  intros H1 H2 Hne Hnil Ht. simpl. run_hyps. rewrite Hne. unfold method.
  destruct cv; try congruence; unfold ret; by rewrite Ht.
Qed.

(** The loop ends on break, with the latest value; the post statement is
    not evaluated. *)
Lemma forLoop_break k c body post fs ls lv st st1 cv st2 v st3 :
  scope.Clear ls st = Done tt st1 ->
  E e ctx c fs st1 = Done cv st2 ->
  object.IsError cv = false -> cv <> object.GoNil -> IsTruthy X cv = true ->
  E e ctx body ls st2 = Done (object.Control "break" v) st3 ->
  forLoop X E e ctx (S k) c body post fs ls lv st = Done lv st3.
Proof.
  intros H1 H2 Hne Hnil Ht H3. simpl. run_hyps. rewrite Hne. unfold method.
  destruct cv; try congruence; unfold ret; by rewrite Ht, H3.
Qed.

End ForLoop.

(** The example of the specification as it is written: the post statement
    [i := i + 1] declares [i] again in the outer for scope, where the init
    statement has declared it, so the first evaluation of the post
    statement is an Error and the loop returns it: the body ran once and
    [sum] is [0]. *)
Lemma condition_loop_with_declaring_post :
  let loop :=
    ast.For (ast.Var "i" (ast.Int 0))
            (ast.Infix (ast.Ident "i") "<" (ast.Int 3))
            (ast.Block [ast.Assign "sum" "="
                          (ast.Infix (ast.Ident "sum") "+" (ast.Ident "i"))])
            (ast.Var "i" (ast.Infix (ast.Ident "i") "+" (ast.Int 1))) in
  let program := [ast.Var "sum" (ast.Int 0); loop] in
  Run.value (Run.exec 7 program)
    = Some (object.Error 8 "name error: i is already declared") /\
  Run.value (Run.exec 7 (program ++ [ast.Ident "sum"])) = Some (object.Int 0) /\
  option_map (blockRuns 7) (Run.final (Run.exec 7 program)) = Some 1%nat.
Proof. repeat split; vm_compute; reflexivity. Qed.

(** C6, amended in its example: in the condition form the init statement
    is evaluated once in the outer for scope; each iteration clears the
    loop scope, evaluates the condition in the outer scope and, when it is
    truthy, the body in the loop scope and then the post statement in the
    outer scope ([iterate]); after [n] such iterations the loop ends on a
    falsy condition or on break, and its value is the last ordinary body
    result, nil when the body never ran.  With the post statement written
    as the assignment [i = i + 1], the loop
    [for i := 0; i < 3; i = i + 1 { sum = sum + i }] runs its body exactly
    3 times and leaves [sum == 3]. *)
Theorem evalFor_condition_form_iterates :
  forall (X : Externs) (E : Eval) (e : Evaluator) (ctx : Context)
         (c body post : Node),
    (forall k fle init s st,
        IsSimpleLoop X fle = false ->
        IsIteratorLoop X fle = false ->
        init <> ast.GoNil ->
        evalFor X E e ctx k fle init c body post s st =
        (do res <- E e ctx init (forScope st);
         if object.IsError res then ret res
         else forLoop X E e ctx k c body post (forScope st) (loopScope st)
                object.Nil) (forEntered s st)) /\
    (forall fs ls n k lv st lvn stn st1 cv st2,
        iterate X E e ctx c body post fs ls n lv st = Some (lvn, stn) ->
        scope.Clear ls stn = Done tt st1 ->
        E e ctx c fs st1 = Done cv st2 ->
        object.IsError cv = false -> cv <> object.GoNil ->
        IsTruthy X cv = false ->
        forLoop X E e ctx (n + S k) c body post fs ls lv st = Done lvn st2) /\
    (forall fs ls n k lv st lvn stn st1 cv st2 v st3,
        iterate X E e ctx c body post fs ls n lv st = Some (lvn, stn) ->
        scope.Clear ls stn = Done tt st1 ->
        E e ctx c fs st1 = Done cv st2 ->
        object.IsError cv = false -> cv <> object.GoNil ->
        IsTruthy X cv = true ->
        E e ctx body ls st2 = Done (object.Control "break" v) st3 ->
        forLoop X E e ctx (n + S k) c body post fs ls lv st = Done lvn st3) /\
    (forall fs ls st,
        iterate X E e ctx c body post fs ls 0 object.Nil st
          = Some (object.Nil, st)) /\
    (let loop :=
       ast.For (ast.Var "i" (ast.Int 0))
               (ast.Infix (ast.Ident "i") "<" (ast.Int 3))
               (ast.Block [ast.Assign "sum" "="
                             (ast.Infix (ast.Ident "sum") "+" (ast.Ident "i"))])
               (ast.Assign "i" "=" (ast.Infix (ast.Ident "i") "+" (ast.Int 1))) in
     let program := [ast.Var "sum" (ast.Int 0); loop] in
     Run.value (Run.exec 7 (program ++ [ast.Ident "sum"])) = Some (object.Int 3) /\
     option_map (blockRuns 7) (Run.final (Run.exec 7 program)) = Some 3%nat).
Proof.
  intros X E e ctx c body post. split; [| split; [| split; [| split]]].
  - intros. by apply evalFor_condition_form.
  - intros fs ls n k lv st lvn stn st1 cv st2 Hit H1 H2 Hne Hnil Ht.
    rewrite (forLoop_iterate X E e ctx c body post fs ls n (S k) lv st lvn stn Hit).
    by apply forLoop_falsy with st1 cv.
  - intros fs ls n k lv st lvn stn st1 cv st2 v st3 Hit H1 H2 Hne Hnil Ht H3.
    rewrite (forLoop_iterate X E e ctx c body post fs ls n (S k) lv st lvn stn Hit).
    by apply forLoop_break with st1 cv st2 v.
  - reflexivity.
  - split; vm_compute; reflexivity.
Qed.

Lemma evalFor_condition_form_iterates_witness :
  let E := Evaluate Std.X 5 in
  let c := ast.Infix (ast.Ident "i") "<" (ast.Int 3) in
  let body := ast.Block [ast.Assign "sum" "="
                           (ast.Infix (ast.Ident "sum") "+" (ast.Ident "i"))] in
  let post := ast.Assign "i" "=" (ast.Infix (ast.Ident "i") "+" (ast.Int 1)) in
  let declared := Run.after (E Run.evaluator Run.background
                               (ast.Var "sum" (ast.Int 0)) 0%nat Run.ready) in
  let fs := forScope declared in
  let ls := loopScope declared in
  let started := Run.after (E Run.evaluator Run.background
                              (ast.Var "i" (ast.Int 0)) fs
                              (forEntered 0 declared)) in
  let three := iterate Std.X E Run.evaluator Run.background c body post fs ls 3
                 object.Nil started in
  let cleared := Run.after (scope.Clear ls (Run.reached three)) in
  let finished := Run.after (E Run.evaluator Run.background c fs cleared) in
  forLoop Std.X E Run.evaluator Run.background 4 c body post fs ls object.Nil
    started = Done object.Nil finished /\
  scope.Get 0 "sum" finished = Some (object.Int 3) /\
  blockRuns ls finished = 3%nat.
Proof.
  intros E c body post declared fs ls started three cleared finished.
  split; [| split; vm_compute; reflexivity].
  destruct (evalFor_condition_form_iterates Std.X E Run.evaluator Run.background
              c body post) as (_ & H & _).
  apply (H fs ls 3%nat 0%nat object.Nil started object.Nil (Run.reached three)
           cleared (object.Bool false) finished);
    try (vm_compute; reflexivity); discriminate.
Defined.

(** ** The loop scope is cleared at the top of every iteration *)

Lemma Clear_withLocals s m st :
  scope.Clear s (withLocals s m st) = scope.Clear s st.
Proof.
  unfold withLocals, scope.Clear.
  destruct (scope.find s st) as [sc |] eqn:Hs; [| by rewrite Hs].
  unfold scope.find. simpl. rewrite lookup_insert_eq. simpl.
  by rewrite set_heap_set_heap, insert_insert_eq.
Qed.

(** What [Clear] leaves: the scope keeps its name and its parent link, its
    store is empty, a name resolves from it as it resolves from its
    parent, and nothing else changes. *)
Lemma Clear_spec s st st1 :
  scope.Clear s st = Done tt st1 ->
  exists sc,
    scope.find s st = Some sc /\
    scope.find s st1 = Some (scope.with_store sc ∅) /\
    scope_parent (scope.with_store sc ∅) = scope_parent sc /\
    scope_store (scope.with_store sc ∅) = ∅ /\
    (forall d x,
        scope.resolve (S d) s x st1 =
        match scope_parent sc with
        | Some p => scope.resolve d p x st1
        | None => None
        end) /\
    (forall p, p <> s -> heap st1 !! p = heap st !! p).
Proof.
  unfold scope.Clear. destruct (scope.find s st) as [sc |] eqn:Hs; [| discriminate].
  intros [= <-]. exists sc.
  assert (Hfind : scope.find s (set_heap (<[s := CScope (scope.with_store sc ∅)]>
                                           (heap st)) st)
                  = Some (scope.with_store sc ∅)).
  { unfold scope.find. simpl. by rewrite lookup_insert_eq. }
  repeat split; try assumption.
  - intros d x. simpl. rewrite Hfind. simpl. by rewrite lookup_empty.
  - intros p Hp. simpl. by rewrite lookup_insert_ne.
Qed.

Lemma Clear_visible s st st1 :
  scope.Clear s st = Done tt st1 ->
  forall d x,
    scope.resolve (S d) s x st1 =
    match scope.find s st with
    | Some sc =>
        match scope_parent sc with
        | Some p => scope.resolve d p x st1
        | None => None
        end
    | None => None
    end.
Proof.
  intros H1 d x.
  destruct (Clear_spec s st st1 H1) as (sc & Hs & _ & _ & _ & Hres & _).
  by rewrite (Hres d x), Hs.
Qed.

Section LoopScope.

Variable X : Externs.
Variable E : Eval.
Variable e : Evaluator.
Variable ctx : Context.

Lemma evalSimpleForLoop_locals k body s lv m st :
  evalSimpleForLoop E e ctx k body s lv (withLocals s m st) =
  evalSimpleForLoop E e ctx k body s lv st.
Proof. destruct k; [reflexivity |]. simpl. unfold bind. by rewrite Clear_withLocals. Qed.

Lemma iteratorLoop_locals k it names body s lv m st :
  iteratorLoop E e ctx k it names body s lv (withLocals s m st) =
  iteratorLoop E e ctx k it names body s lv st.
Proof. destruct k; [reflexivity |]. simpl. unfold bind. by rewrite Clear_withLocals. Qed.

Lemma forLoop_locals k c body post fs ls lv m st :
  forLoop X E e ctx k c body post fs ls lv (withLocals ls m st) =
  forLoop X E e ctx k c body post fs ls lv st.
Proof. destruct k; [reflexivity |]. simpl. unfold bind. by rewrite Clear_withLocals. Qed.

(** One iteration of the simple form that does not end the loop, then the
    next one. *)
Lemma evalSimpleForLoop_step k body s lv st st1 result st2 :
  scope.Clear s st = Done tt st1 ->
  E e ctx body s st1 = Done result st2 ->
  object.IsError result = false ->
  (forall keyword value, result <> object.Control keyword value) ->
  evalSimpleForLoop E e ctx (S k) body s lv st =
  evalSimpleForLoop E e ctx k body s result st2.
Proof.
  intros H1 H2 Hne Hctl. simpl. run_hyps.
  destruct result; try discriminate; try reflexivity.
  by destruct (Hctl keyword result).
Qed.

Lemma bind_ext {A B} (m : M A) (f g : A -> M B) (st : State) :
  (forall a st', f a st' = g a st') -> bind m f st = bind m g st.
Proof. intros H. unfold bind. destruct (m st); congruence. Qed.

(** An iteration after the clearing of the loop scope, in each form. *)
Lemma evalSimpleForLoop_next k body s lv st st1 :
  scope.Clear s st = Done tt st1 ->
  evalSimpleForLoop E e ctx (S k) body s lv st =
  (do result <- E e ctx body s;
   match latestSimple result lv with
   | Some lv' => evalSimpleForLoop E e ctx k body s lv'
   | None => ret (loopExit result lv)
   end) st1.
Proof.
  intros H1. cbn [evalSimpleForLoop]. unfold bind at 1. rewrite H1.
  unfold bind. destruct (E e ctx body s st1) as [result st2| |]; try reflexivity.
  unfold latestSimple, loopExit. destruct result; try reflexivity.
  by repeat case_decide.
Qed.

Lemma iteratorLoop_next k it names body s lv st st1 :
  scope.Clear s st = Done tt st1 ->
  iteratorLoop E e ctx (S k) it names body s lv st =
  (do entry <- Next it;
   match entry with
   | None => ret lv
   | Some (key, value) =>
       do err <- bindEntry s names key value;
       match err with
       | Some err => NewError err
       | None =>
           do rt <- E e ctx body s;
           match latest rt lv with
           | Some lv' => iteratorLoop E e ctx k it names body s lv'
           | None => ret (loopExit rt lv)
           end
       end
   end) st1.
Proof.
  intros H1. cbn [iteratorLoop]. unfold bind at 1. rewrite H1.
  apply bind_ext. intros [[key value] |] st2; [| reflexivity].
  unfold bindEntry. destruct names as [| name0 others]; [reflexivity |].
  unfold bind.
  destruct (scope.declare s name0 key false st2) as [[err |] st3| |];
    try reflexivity.
  assert (Hbody : forall st4,
    match E e ctx body s st4 with
    | Done rt st5 =>
        match rt with
        | object.Error _ _ => ret rt
        | object.Control keyword _ =>
            if decide (keyword = "break") then ret lv
            else if decide (keyword = "return") then ret rt
            else iteratorLoop E e ctx k it (name0 :: others) body s lv
        | _ => iteratorLoop E e ctx k it (name0 :: others) body s rt
        end st5
    | Panic msg => Panic msg
    | OutOfFuel => OutOfFuel
    end =
    match E e ctx body s st4 with
    | Done rt st5 =>
        match latest rt lv with
        | Some lv' => iteratorLoop E e ctx k it (name0 :: others) body s lv'
        | None => ret (loopExit rt lv)
        end st5
    | Panic msg => Panic msg
    | OutOfFuel => OutOfFuel
    end).
  { intros st4. destruct (E e ctx body s st4) as [rt st5| |]; try reflexivity.
    destruct rt; try reflexivity. unfold latest, loopExit.
    repeat case_decide; reflexivity. }
  destruct others as [| name1 more].
  - unfold ret at 1 3. apply Hbody.
  - destruct (scope.declare s name1 value false st3) as [[err |] st4| |];
      try reflexivity.
    apply Hbody.
Qed.

Lemma forLoop_next k c body post fs ls lv st st1 :
  scope.Clear ls st = Done tt st1 ->
  forLoop X E e ctx (S k) c body post fs ls lv st =
  (do condition' <- E e ctx c fs;
   if object.IsError condition' then ret condition' else
   do truthy <- method condition' (IsTruthy X);
   if truthy then
     do rt <- E e ctx body ls;
     match latest rt lv with
     | Some lv' =>
         match post with
         | ast.GoNil => forLoop X E e ctx k c body post fs ls lv'
         | _ => do res <- E e ctx post fs;
                if object.IsError res then ret res
                else forLoop X E e ctx k c body post fs ls lv'
         end
     | None => ret (loopExit rt lv)
     end
   else ret lv) st1.
Proof.
  intros H1. cbn [forLoop]. unfold bind at 1. rewrite H1. unfold bind.
  destruct (E e ctx c fs st1) as [cv st2| |]; try reflexivity.
  destruct (object.IsError cv); try reflexivity.
  destruct (method cv (IsTruthy X) st2) as [[|] st2'| |]; try reflexivity.
  destruct (E e ctx body ls st2') as [rt st3| |]; try reflexivity.
  unfold latest, loopExit. destruct rt; try reflexivity.
  by repeat case_decide.
Qed.

(** [n] complete iterations, then the loop goes on. *)
Lemma evalSimpleForLoop_iterate body s n :
  forall k lv st lvn stn,
    iterateSimple E e ctx body s n lv st = Some (lvn, stn) ->
    evalSimpleForLoop E e ctx (n + k) body s lv st =
    evalSimpleForLoop E e ctx k body s lvn stn.
Proof.
  induction n as [| n IH]; intros k lv st lvn stn; simpl iterateSimple.
  - by intros [= -> ->].
  - destruct (scope.Clear s st) as [[] st1| |] eqn:H1; try discriminate.
    destruct (E e ctx body s st1) as [result st2| |] eqn:H2; try discriminate.
    destruct (latestSimple result lv) as [lv' |] eqn:Hl; try discriminate.
    intros Hrest. rewrite <- (IH k lv' st2 lvn stn Hrest).
    change (S n + k)%nat with (S (n + k)).
    rewrite (evalSimpleForLoop_next (n + k) body s lv st st1 H1).
    unfold bind. by rewrite H2, Hl.
Qed.

Lemma iteratorLoop_iterate it names body s n :
  forall k lv st lvn stn,
    iterateEntries E e ctx it names body s n lv st = Some (lvn, stn) ->
    iteratorLoop E e ctx (n + k) it names body s lv st =
    iteratorLoop E e ctx k it names body s lvn stn.
Proof.
  induction n as [| n IH]; intros k lv st lvn stn; simpl iterateEntries.
  - by intros [= -> ->].
  - destruct (scope.Clear s st) as [[] st1| |] eqn:H1; try discriminate.
    destruct (Next it st1) as [[[key value] |] st2| |] eqn:H2; try discriminate.
    destruct (bindEntry s names key value st2) as [[err |] st3| |] eqn:H3;
      try discriminate.
    destruct (E e ctx body s st3) as [rt st4| |] eqn:H4; try discriminate.
    destruct (latest rt lv) as [lv' |] eqn:Hl; try discriminate.
    intros Hrest. rewrite <- (IH k lv' st4 lvn stn Hrest).
    change (S n + k)%nat with (S (n + k)).
    rewrite (iteratorLoop_next (n + k) it names body s lv st st1 H1).
    unfold bind. by rewrite H2, H3, H4, Hl.
Qed.

End LoopScope.

(** The entry an iterator hands out leaves the scopes as they are, and the
    loop variables are all that their declaration adds to a scope. *)
Lemma Next_scope it s st entry st' :
  Next it st = Done entry st' -> scope.find s st' = scope.find s st.
Proof.
  unfold Next. destruct (heap st !! it) as [[] |] eqn:Hit; try discriminate.
  destruct entries as [| first rest]; intros [= <- <-]; [reflexivity |].
  unfold scope.find. simpl. destruct (decide (s = it)) as [-> | Hne].
  - by rewrite lookup_insert_eq, Hit.
  - by rewrite lookup_insert_ne.
Qed.

Lemma declare_store s name value st st' sc :
  scope.find s st = Some sc ->
  scope.declare s name value false st = Done None st' ->
  scope.find s st'
  = Some (scope.with_store sc (<[name := (value, false)]> (scope_store sc))).
Proof.
  intros Hs. unfold scope.declare. rewrite Hs.
  destruct (scope_store sc !! name); [discriminate |]. intros [= <-].
  unfold scope.find. simpl. by rewrite lookup_insert_eq.
Qed.

Lemma bindEntry_store s names key value st st' sc :
  scope.find s st = Some sc ->
  bindEntry s names key value st = Done None st' ->
  exists sc',
    scope.find s st' = Some sc' /\
    scope_name sc' = scope_name sc /\
    scope_parent sc' = scope_parent sc /\
    (forall x, x ∉ take 2 names ->
               scope_store sc' !! x = scope_store sc !! x) /\
    (forall name0, names !! 0%nat = Some name0 ->
                   names !! 1%nat <> Some name0 ->
                   scope_store sc' !! name0 = Some (key, false)) /\
    (forall name1, names !! 1%nat = Some name1 ->
                   scope_store sc' !! name1 = Some (value, false)).
Proof.
  intros Hs. unfold bindEntry. destruct names as [| name0 others]; [discriminate |].
  unfold bind.
  destruct (scope.declare s name0 key false st) as [[err |] st1| |] eqn:H0;
    try discriminate.
  pose proof (declare_store s name0 key st st1 sc Hs H0) as Hs1.
  destruct others as [| name1 more].
  - intros [= <-]. eexists. split; [exact Hs1 |]. simpl.
    repeat split.
    + intros x Hx. apply lookup_insert_ne. set_solver.
    + intros n0 [= <-] _. apply lookup_insert_eq.
    + discriminate.
  - intros H1.
    pose proof (declare_store s name1 value st1 st' _ Hs1 H1) as Hs2.
    eexists. split; [exact Hs2 |]. simpl. repeat split.
    + intros x Hx. rewrite !lookup_insert_ne by set_solver. reflexivity.
    + intros n0 [= <-] Hne. rewrite lookup_insert_ne by congruence.
      apply lookup_insert_eq.
    + intros n1 [= <-]. apply lookup_insert_eq.
Qed.

(** C7: [evalFor] makes the inner "for-loop" scope as a child of the
    "for" scope, itself a child of the scope of the statement, and runs
    each of the three loops on that inner scope.  Every iteration of each
    loop, the first and the one after any number of complete iterations,
    starts by clearing the loop scope, and all that the iteration
    evaluates is evaluated in the state the clearing left: there the loop
    scope keeps its parent link, holds no entry, and a name resolves from
    it as it resolves from the outer scope, so an entry the body declared
    in the iteration before is gone, and is visible again only if it is
    declared again or is found in the outer scopes; in the range form the loop variables
    are all that is declared before the body runs.  The loop therefore
    does what it would do had the iteration before left other entries, or
    none, in the loop scope.  In each form a variable the body declares is
    declared again in the next iteration without a clash, a body that
    reads it before declaring it finds it undefined in the iteration after
    the one that declared it, and what the init statement declared in the
    outer scope stays visible in every iteration. *)
Theorem loop_scope_cleared_every_iteration :
  forall (X : Externs) (E : Eval) (e : Evaluator) (ctx : Context)
         (k : nat) (s : nat) (lv : Object)
         (m : gmap string (Object * bool)) (st : State),
    (forall body,
        evalSimpleForLoop E e ctx k body s lv (withLocals s m st) =
        evalSimpleForLoop E e ctx k body s lv st) /\
    (forall it names body,
        iteratorLoop E e ctx k it names body s lv (withLocals s m st) =
        iteratorLoop E e ctx k it names body s lv st) /\
    (forall c body post fs,
        forLoop X E e ctx k c body post fs s lv (withLocals s m st) =
        forLoop X E e ctx k c body post fs s lv st) /\
    (forall st1,
        scope.Clear s st = Done tt st1 ->
        exists sc,
          scope.find s st = Some sc /\
          scope.find s st1 = Some (scope.with_store sc ∅) /\
          scope_parent (scope.with_store sc ∅) = scope_parent sc /\
          scope_store (scope.with_store sc ∅) = ∅ /\
          (forall d x,
              scope.resolve (S d) s x st1 =
              match scope_parent sc with
              | Some p => scope.resolve d p x st1
              | None => None
              end) /\
          (forall p, p <> s -> heap st1 !! p = heap st !! p)) /\
    (forall fle init c body post,
        evalFor X E e ctx k fle init c body post s st =
        (do early <- match init with
                     | ast.GoNil => ret None
                     | _ => do res <- E e ctx init (forScope st);
                            if object.IsError res then ret (Some res)
                            else ret None
                     end;
         match early with
         | Some res => ret res
         | None =>
             if IsSimpleLoop X fle then
               evalSimpleForLoop E e ctx k body (loopScope st) object.Nil
             else if IsIteratorLoop X fle then
               evalIteratorForLoop X E e ctx k c body (loopScope st)
             else
               forLoop X E e ctx k c body post (forScope st) (loopScope st)
                 object.Nil
         end) (forEntered s st)) /\
    (scope.find (loopScope st) (forEntered s st)
       = Some {| scope_name := "for-loop";
                 scope_parent := Some (forScope st);
                 scope_store := ∅ |} /\
     scope.find (forScope st) (forEntered s st)
       = Some {| scope_name := "for"; scope_parent := Some s;
                 scope_store := ∅ |} /\
     loopScope st <> forScope st) /\
    (forall body n lvn stn st1,
        iterateSimple E e ctx body s n lv st = Some (lvn, stn) ->
        scope.Clear s stn = Done tt st1 ->
        evalSimpleForLoop E e ctx (n + S k) body s lv st =
        (do result <- E e ctx body s;
         match latestSimple result lvn with
         | Some lv' => evalSimpleForLoop E e ctx k body s lv'
         | None => ret (loopExit result lvn)
         end) st1 /\
        (forall d x,
            scope.resolve (S d) s x st1 =
            match scope.find s stn with
            | Some sc =>
                match scope_parent sc with
                | Some p => scope.resolve d p x st1
                | None => None
                end
            | None => None
            end)) /\
    (forall it names body n lvn stn st1,
        iterateEntries E e ctx it names body s n lv st = Some (lvn, stn) ->
        scope.Clear s stn = Done tt st1 ->
        iteratorLoop E e ctx (n + S k) it names body s lv st =
        (do entry <- Next it;
         match entry with
         | None => ret lvn
         | Some (key, value) =>
             do err <- bindEntry s names key value;
             match err with
             | Some err => NewError err
             | None =>
                 do rt <- E e ctx body s;
                 match latest rt lvn with
                 | Some lv' => iteratorLoop E e ctx k it names body s lv'
                 | None => ret (loopExit rt lvn)
                 end
             end
         end) st1 /\
        (forall d x,
            scope.resolve (S d) s x st1 =
            match scope.find s stn with
            | Some sc =>
                match scope_parent sc with
                | Some p => scope.resolve d p x st1
                | None => None
                end
            | None => None
            end)) /\
    (forall c body post fs n lvn stn st1,
        iterate X E e ctx c body post fs s n lv st = Some (lvn, stn) ->
        scope.Clear s stn = Done tt st1 ->
        forLoop X E e ctx (n + S k) c body post fs s lv st =
        (do condition' <- E e ctx c fs;
         if object.IsError condition' then ret condition' else
         do truthy <- method condition' (IsTruthy X);
         if truthy then
           do rt <- E e ctx body s;
           match latest rt lvn with
           | Some lv' =>
               match post with
               | ast.GoNil => forLoop X E e ctx k c body post fs s lv'
               | _ => do res <- E e ctx post fs;
                      if object.IsError res then ret res
                      else forLoop X E e ctx k c body post fs s lv'
               end
           | None => ret (loopExit rt lvn)
           end
         else ret lvn) st1 /\
        (forall d x,
            scope.resolve (S d) s x st1 =
            match scope.find s stn with
            | Some sc =>
                match scope_parent sc with
                | Some p => scope.resolve d p x st1
                | None => None
                end
            | None => None
            end)) /\
    (forall it names key value st1 st2 st3,
        scope.Clear s st = Done tt st1 ->
        Next it st1 = Done (Some (key, value)) st2 ->
        bindEntry s names key value st2 = Done None st3 ->
        exists sc sc',
          scope.find s st = Some sc /\
          scope.find s st3 = Some sc' /\
          scope_parent sc' = scope_parent sc /\
          (forall x, x ∉ take 2 names -> scope_store sc' !! x = None) /\
          (forall name0, names !! 0%nat = Some name0 ->
                         names !! 1%nat <> Some name0 ->
                         scope_store sc' !! name0 = Some (key, false)) /\
          (forall name1, names !! 1%nat = Some name1 ->
                         scope_store sc' !! name1 = Some (value, false))) /\
    (let i := ast.Ident "i" in
     let n := ast.Ident "n" in
     let v := ast.Ident "v" in
     let declares x := ast.Block [ast.Var "x" x; ast.Ident "x"] in
     let reads x at_ :=
       ast.Block [ast.If (ast.Infix x "==" (ast.Int at_))
                         (ast.Block [ast.Ident "x"]) ast.GoNil;
                  ast.Var "x" x] in
     let counting body :=
       ast.For (ast.Var "i" (ast.Int 0)) (ast.Infix i "<" (ast.Int 3)) body
               (ast.Assign "i" "=" (ast.Infix i "+" (ast.Int 1))) in
     let ranging body :=
       ast.For ast.GoNil
               (ast.MultiVar ["k"; "v"]
                  (ast.Range (ast.List [ast.Int 10; ast.Int 20])))
               body ast.GoNil in
     let forever body := ast.For ast.GoNil ast.GoNil body ast.GoNil in
     let stopping :=
       ast.If (ast.Infix n "==" (ast.Int 2))
              (ast.Block [ast.Control "break" ast.GoNil]) ast.GoNil in
     let step := ast.Assign "n" "=" (ast.Infix n "+" (ast.Int 1)) in
     Run.value (Run.exec 8 [counting (declares i)]) = Some (object.Int 2) /\
     Run.value (Run.exec 8 [counting (reads i 1)])
       = Some (object.Error 8 "name error: x is not defined") /\
     Run.value (Run.exec 8 [ranging (declares v)]) = Some (object.Int 20) /\
     Run.value (Run.exec 8 [ranging (reads (ast.Ident "k") 1)])
       = Some (object.Error 10 "name error: x is not defined") /\
     Run.value (Run.exec 8
       [ast.Var "n" (ast.Int 0);
        forever (ast.Block [stopping; ast.Var "x" n; step; ast.Ident "x"])])
       = Some (object.Int 1) /\
     Run.value (Run.exec 8
       [ast.Var "n" (ast.Int 0);
        forever (ast.Block [ast.If (ast.Infix n "==" (ast.Int 1))
                                   (ast.Block [ast.Ident "x"]) ast.GoNil;
                            ast.Var "x" n; step])])
       = Some (object.Error 8 "name error: x is not defined") /\
     Run.value (Run.exec 8
       [ast.For (ast.Var "a" (ast.Int 1))
                (ast.MultiVar ["k"; "v"]
                   (ast.Range (ast.List [ast.Int 10; ast.Int 20])))
                (ast.Block [ast.Ident "a"]) ast.GoNil])
       = Some (object.Int 1)).
Proof.
  intros X E e ctx k s lv m st.
  repeat lazymatch goal with |- _ /\ _ => split end.
  - intros. apply evalSimpleForLoop_locals.
  - intros. apply iteratorLoop_locals.
  - intros. apply forLoop_locals.
  - intros st1 H. by apply Clear_spec.
  - intros. apply evalFor_enter.
  - unfold scope.find, forEntered. simpl. by rewrite lookup_insert_eq.
  - unfold scope.find, forEntered, loopScope, forScope. simpl.
    rewrite lookup_insert_ne by lia. by rewrite lookup_insert_eq.
  - unfold loopScope, forScope. lia.
  - intros body n lvn stn st1 Hit H1. split; [| by apply Clear_visible].
    rewrite (evalSimpleForLoop_iterate E e ctx body s n (S k) lv st lvn stn Hit).
    by apply evalSimpleForLoop_next.
  - intros it names body n lvn stn st1 Hit H1. split; [| by apply Clear_visible].
    rewrite (iteratorLoop_iterate E e ctx it names body s n (S k) lv st lvn stn
               Hit).
    by apply iteratorLoop_next.
  - intros c body post fs n lvn stn st1 Hit H1. split; [| by apply Clear_visible].
    rewrite (forLoop_iterate X E e ctx c body post fs s n (S k) lv st lvn stn
               Hit).
    by apply forLoop_next.
  - intros it names key value st1 st2 st3 H1 H2 H3.
    destruct (Clear_spec s st st1 H1) as (sc & Hs & Hs1 & _).
    rewrite <- (Next_scope it s st1 _ st2 H2) in Hs1.
    destruct (bindEntry_store s names key value st2 st3 _ Hs1 H3)
      as (sc' & Hs3 & _ & Hp & Hout & Hkey & Hval).
    exists sc, sc'. split; [exact Hs |]. split; [exact Hs3 |].
    split; [exact Hp |]. split; [| split; [exact Hkey | exact Hval]].
    intros x Hx. by rewrite (Hout x Hx).
  - repeat split; vm_compute; reflexivity.
Qed.

Lemma loop_scope_cleared_every_iteration_witness :
  let E := Evaluate Std.X 5 in
  let i := ast.Ident "i" in
  let c := ast.Infix i "<" (ast.Int 3) in
  let body := ast.Block [ast.Var "x" i] in
  let post := ast.Assign "i" "=" (ast.Infix i "+" (ast.Int 1)) in
  let fs := forScope Run.ready in
  let ls := loopScope Run.ready in
  let started := Run.after (E Run.evaluator Run.background
                              (ast.Var "i" (ast.Int 0)) fs
                              (forEntered 0 Run.ready)) in
  let once := Run.reached (iterate Std.X E Run.evaluator Run.background
                             c body post fs ls 1 object.Nil started) in
  let cleared := Run.after (scope.Clear ls once) in
  scope.Get ls "x" once = Some (object.Int 0) /\
  scope.Get ls "x" cleared = None /\
  scope.Get ls "i" cleared = Some (object.Int 1) /\
  (exists sc,
    scope.find ls once = Some sc /\
    scope.find ls cleared = Some (scope.with_store sc ∅) /\
    scope_parent sc = Some fs) /\
  Run.value (forLoop Std.X E Run.evaluator Run.background 4 c body post fs ls
               object.Nil started)
  = Run.value (forLoop Std.X E Run.evaluator Run.background 3 c body post fs ls
                 object.Nil (withLocals ls ∅ once)) /\
  Run.value (forLoop Std.X E Run.evaluator Run.background 4 c body post fs ls
               object.Nil started) = Some object.Nil /\
  (forall d x, scope.resolve (S d) ls x cleared = scope.resolve d fs x cleared).
Proof.
  intros E i c body post fs ls started once cleared.
  split; [vm_compute; reflexivity |].
  split; [vm_compute; reflexivity |].
  split; [vm_compute; reflexivity |].
  destruct (loop_scope_cleared_every_iteration Std.X E Run.evaluator
              Run.background 0 ls object.Nil ∅ once) as (_ & _ & _ & H & _).
  destruct (loop_scope_cleared_every_iteration Std.X E Run.evaluator
              Run.background 2 ls object.Nil ∅ started)
    as (_ & _ & _ & _ & _ & _ & _ & _ & Hnext & _).
  destruct (Hnext c body post fs 1%nat object.Nil once cleared)
    as [Hrun Hvisible]; [vm_compute; reflexivity .. |].
  split; [| split; [| split]].
  - destruct (H cleared) as (sc & H1 & H2 & _).
    + vm_compute. reflexivity.
    + exists sc. split; [exact H1 |]. split; [exact H2 |].
      revert H1. vm_compute. by intros [= <-].
  - change 4%nat with (1 + 3)%nat. rewrite Hrun. vm_compute. reflexivity.
  - change 4%nat with (1 + 3)%nat. rewrite Hrun. vm_compute. reflexivity.
  - assert (Hparent : (sc ← scope.find ls once; scope_parent sc) = Some fs)
      by (vm_compute; reflexivity).
    intros d x. rewrite Hvisible.
    destruct (scope.find ls once) as [sc |]; [| discriminate].
    cbn in Hparent. by rewrite Hparent.
Defined.

(** The bare function of the specification's example: with
    [double = func(x) { x * 2 }], [5 |> double] is [10]; a builtin that
    returns no object leaves the pipe with nil. *)
Lemma pipe_bare_function_example :
  Run.value (Run.exec 7
    [ast.Var "double" (ast.Func ["x"] [ast.Infix (ast.Ident "x") "*" (ast.Int 2)]);
     ast.Pipe [ast.Int 5; ast.Ident "double"]]) = Some (object.Int 10) /\
  Run.value (Run.exec 7 [ast.Pipe [ast.Int 5; ast.Ident "quiet"]])
    = Some object.Nil.
Proof. split; vm_compute; reflexivity. Qed.

(** * Further properties *)

(** ** The keys of the breakpoint table *)

Lemma append_cons (c : Ascii.ascii) (a b : string) :
  String c a +:+ b = String c (a +:+ b).
Proof. reflexivity. Qed.

Lemma append_empty_l (b : string) : EmptyString +:+ b = b.
Proof. reflexivity. Qed.

Lemma NoColon_separator (a b : string) : ~ NoColon (a +:+ ":" +:+ b).
Proof.
  induction a as [| c a IH]; norm_append; simpl; tauto.
Qed.

Lemma pretty_N_go_NoColon (x : N) :
  forall s, NoColon s -> NoColon (pretty_N_go x s).
Proof.
  induction (N.lt_wf_0 x) as [x _ IH]. intros s Hs.
  assert (x = 0 \/ 0 < x)%N as [-> | Hpos] by lia.
  - by rewrite pretty_N_go_0.
  - rewrite pretty_N_go_step by done. apply IH.
    + by apply N.div_lt.
    + simpl. split; [| done]. unfold pretty_N_char. by repeat case_match.
Qed.

Lemma pretty_Z_NoColon (z : Z) : NoColon (pretty z).
Proof.
  assert (HN : forall n : N, NoColon (pretty n)).
  { intros n. unfold pretty, pretty_N. case_decide.
    - simpl. split; [discriminate | done].
    - by apply pretty_N_go_NoColon. }
  destruct z as [| p | p]; unfold pretty, pretty_Z.
  - simpl. split; [discriminate | done].
  - apply HN.
  - norm_append. simpl. split; [discriminate |]. apply HN.
Qed.

Lemma separator_inj (f1 f2 d1 d2 : string) :
  NoColon d1 -> NoColon d2 ->
  f1 +:+ ":" +:+ d1 = f2 +:+ ":" +:+ d2 -> f1 = f2 /\ d1 = d2.
Proof.
  intros H1 H2. revert f2. induction f1 as [| c f1 IH]; intros [| c2 f2].
  - norm_append. intros [= ->]. done.
  - norm_append. intros [= <- ->]. by destruct (NoColon_separator f2 d2).
  - norm_append. intros [= -> <-]. by destruct (NoColon_separator f1 d1).
  - norm_append. intros [= -> Heq]. destruct (IH f2 Heq) as [-> ->]. done.
Qed.

(** The key "file:line" determines the file and the line. *)
Lemma location_inj (f1 f2 : string) (l1 l2 : Z) :
  location f1 l1 = location f2 l2 -> f1 = f2 /\ l1 = l2.
Proof.
  unfold location. intros H.
  destruct (separator_inj f1 f2 (pretty l1) (pretty l2)
              (pretty_Z_NoColon l1) (pretty_Z_NoColon l2) H) as [-> Hl].
  split; [done |]. by apply (inj pretty).
Qed.

(** The table after the loop of [New]: the keys of the list lead to the
    cell of the range variable, every other key is as before. *)
Lemma indexBreakpoints_keys (pb : nat) (bs : list Breakpoint) :
  forall (m m' : gmap string nat) (st st' : State),
    indexBreakpoints pb bs m st = Done m' st' ->
    forall k, m' !! k = if decide (k ∈ locationOf <$> bs) then Some pb else m !! k.
Proof.
  induction bs as [| x rest IH]; intros m m' st st'.
  - intros [= <- <-] k. by rewrite decide_False by apply not_elem_of_nil.
  - simpl. unfold bind, modify. intros Hrun k.
    rewrite (IH _ _ _ _ Hrun k). fold (locationOf x).
    destruct (decide (k ∈ locationOf <$> rest)) as [Hin | Hout].
    + rewrite decide_True; [done | by apply elem_of_cons; right].
    + destruct (decide (locationOf x = k)) as [<- | Hne].
      * rewrite lookup_insert_eq, decide_True; [done | by apply elem_of_cons; left].
      * rewrite lookup_insert_ne by done.
        rewrite decide_False; [done |].
        rewrite elem_of_cons. intros [Heq | Hin]; [by symmetry in Heq | done].
Qed.

(** X1: after [New], a lookup by file and line finds a breakpoint exactly
    when the list of the options holds one at that file and line: no two
    different positions share a key of the table, and a position nobody
    registered has no breakpoint. *)
Theorem GetBreakpoint_found_iff_registered :
  forall (X : Externs) (opts : Opts) (st st' : State) (e : Evaluator)
         (tok : Token),
    New X opts st = Done e st' ->
    (is_Some (GetBreakpoint e tok) <->
     exists b, b ∈ Breakpoints opts /\
               File b = tok_file tok /\ Line b = tok_line tok).
Proof.
  intros X opts st st' e tok. unfold New, bind, alloc.
  destruct (if DisableDefaultBuiltins opts then _ else _) as [bi0 st0| |];
    try discriminate.
  destruct (registerBuiltins (Builtins opts) bi0 st0) as [bi st1| |];
    try discriminate.
  destruct (indexBreakpoints _ (Breakpoints opts) ∅ _) as [bp st2| |] eqn:Hidx;
    try discriminate.
  intros [= <- <-]. pose proof (indexBreakpoints_keys _ _ _ _ _ _ Hidx) as Hkeys.
  unfold GetBreakpoint. simpl. split.
  - case_decide; [by intros [? ?] |].
    rewrite Hkeys. case_decide as Hin; [| rewrite lookup_empty; by intros [? ?]].
    intros _. apply list_elem_of_fmap in Hin as (b & Hloc & Hb).
    exists b. split; [done |]. unfold locationOf in Hloc.
    by destruct (location_inj _ _ _ _ Hloc) as [-> ->].
  - intros (b & Hb & Hf & Hl).
    assert (Hin : location (tok_file tok) (tok_line tok)
                  ∈ locationOf <$> Breakpoints opts).
    { apply list_elem_of_fmap. exists b. split; [| done].
      unfold locationOf. by rewrite Hf, Hl. }
    assert (Hfound : bp !! location (tok_file tok) (tok_line tok)
                     = Some (next st1)).
    { rewrite Hkeys. by rewrite decide_True. }
    rewrite decide_False.
    + rewrite Hfound. eauto.
    + apply map_size_ne_0_lookup_2 with (location (tok_file tok) (tok_line tok)).
      rewrite Hfound. eauto.
Qed.

Lemma GetBreakpoint_found_iff_registered_witness :
  let first := {| File := "a.tm"; Line := 1; Disabled := false;
                  Trace := true; Stop := false |} in
  let second := {| File := "b.tm"; Line := 2; Disabled := false;
                   Trace := false; Stop := true |} in
  let opts := {| Importer := None; DisableDefaultBuiltins := false;
                 Builtins := []; Breakpoints := [first; second] |} in
  match New Std.X opts Run.initial with
  | Done e _ => GetBreakpoint e {| tok_file := "a.tm"; tok_line := 2 |} = None
  | _ => False
  end.
Proof.
  intros first second opts.
  destruct (New Std.X opts Run.initial) as [e st'| |] eqn:Hnew;
    [| vm_compute in Hnew; discriminate..].
  pose proof (GetBreakpoint_found_iff_registered Std.X opts Run.initial st' e
                {| tok_file := "a.tm"; tok_line := 2 |} Hnew) as [Hfound _].
  destruct (GetBreakpoint e _) as [p |]; [| reflexivity].
  destruct Hfound as (b & Hb & Hf & Hl); [eauto |].
  apply elem_of_cons in Hb as [-> | Hb]; [discriminate Hl |].
  apply elem_of_cons in Hb as [-> | Hb]; [discriminate Hf |].
  by apply elem_of_nil in Hb.
Defined.

(** ** The builtin registry *)

Lemma registerBuiltins_spec (bs : list nat) :
  forall (m m' : gmap string nat) (st st' : State),
    registerBuiltins bs m st = Done m' st' ->
    st' = st /\
    forall k, m' !! k =
              match last (filter (fun b => keyOf st b = Some k) bs) with
              | Some b => Some b
              | None => m !! k
              end.
Proof.
  induction bs as [| b rest IH]; intros m m' st st'; simpl.
  - by intros [= <- <-].
  - unfold bind. destruct (builtin.Key b st) as [kb st1| |] eqn:Hkey;
      try discriminate.
    assert (st1 = st) as ->.
    { revert Hkey. unfold builtin.Key, bind, builtin.deref.
      destruct (heap st !! b) as [[]|]; try discriminate.
      repeat case_match; by intros [= _ <-]. }
    intros Hrest. destruct (IH _ _ _ _ Hrest) as [-> Hlook]. split; [done |].
    assert (Hk : keyOf st b = Some kb) by (unfold keyOf; by rewrite Hkey).
    intros k. rewrite Hlook, filter_cons, Hk.
    destruct (decide (Some kb = Some k)) as [[= ->] | Hne].
    + rewrite last_cons. destruct (last (filter _ rest)); [done |].
      by rewrite lookup_insert_eq.
    + destruct (last (filter _ rest)); [done |].
      rewrite lookup_insert_ne; [done | congruence].
Qed.

(** X2: the registry of a new evaluator maps a key to the builtin that was
    registered last under that key, the defaults first (unless they are
    disabled) and the overrides of the options after them; so an override
    replaces the default of its key, and with the defaults disabled the
    registry holds the overrides alone. *)
Theorem New_registry_last_wins :
  forall (X : Externs) (opts : Opts) (st st' : State) (e : Evaluator),
    New X opts st = Done e st' ->
    (forall k,
        builtins e !! k =
        last (filter (fun b => keyOf (stackAllocated st) b = Some k)
                     (registered X opts))) /\
    (forall pre b k,
        Builtins opts = pre ++ [b] ->
        keyOf (stackAllocated st) b = Some k ->
        builtins e !! k = Some b) /\
    (forall k b,
        DisableDefaultBuiltins opts = true ->
        builtins e !! k = Some b -> b ∈ Builtins opts).
Proof.
  intros X opts st st' e Hnew.
  assert (Hall : forall k,
    builtins e !! k =
    last (filter (fun b => keyOf (stackAllocated st) b = Some k)
                 (registered X opts))).
  { revert Hnew. unfold New, bind, alloc. fold (stackAllocated st).
    destruct (if DisableDefaultBuiltins opts then _ else _) as [bi0 st0| |] eqn:H0;
      try discriminate.
    destruct (registerBuiltins (Builtins opts) bi0 st0) as [bi st1| |] eqn:H1;
      try discriminate.
    destruct (indexBreakpoints _ _ _ _) as [bp st2| |]; try discriminate.
    intros [= <- <-] k. simpl.
    destruct (registerBuiltins_spec _ _ _ _ _ H1) as [-> Hov]. rewrite Hov.
    assert (Hdef : st0 = stackAllocated st /\
                   bi0 !! k =
                   last (filter (fun b => keyOf (stackAllocated st) b = Some k)
                           (if DisableDefaultBuiltins opts then []
                            else GlobalBuiltins X))).
    { destruct (DisableDefaultBuiltins opts).
      - revert H0. intros [= <- <-]. by rewrite lookup_empty.
      - destruct (registerBuiltins_spec _ _ _ _ _ H0) as [-> Hdef].
        split; [done |]. rewrite Hdef, lookup_empty.
        by destruct (last (filter _ (GlobalBuiltins X))). }
    destruct Hdef as [-> Hdef]. rewrite Hdef.
    unfold registered. rewrite filter_app, last_app.
    by destruct (last (filter _ (Builtins opts))). }
  split; [exact Hall |]. split.
  - intros pre b k Hb Hk. rewrite Hall. unfold registered.
    rewrite Hb, app_assoc, filter_app, filter_cons, decide_True by done.
    rewrite filter_nil. apply last_snoc.
  - intros k b Hd. rewrite Hall. unfold registered. rewrite Hd. simpl.
    intros Hlast. apply last_Some_elem_of in Hlast.
    by apply list_elem_of_filter in Hlast as [_ ?].
Qed.

Lemma New_registry_last_wins_witness :
  let st := Run.after (builtin.NewBuiltin "sub" 3 Run.initial) in
  let opts := {| Importer := None; DisableDefaultBuiltins := false;
                 Builtins := [4%nat]; Breakpoints := [] |} in
  match New Std.X opts st with
  | Done e _ => builtins e !! "sub" = Some 4%nat
  | _ => False
  end.
Proof.
  intros st opts.
  destruct (New Std.X opts st) as [e st'| |] eqn:Hnew;
    [| vm_compute in Hnew; discriminate..].
  destruct (New_registry_last_wins Std.X opts st st' e Hnew) as (_ & H & _).
  apply (H [] 4%nat "sub"); [reflexivity |]. vm_compute. reflexivity.
Defined.

(** ** What a pipe returns *)

Section PipeResult.

Variable X : Externs.
Variable E : Eval.
Variable e : Evaluator.
Variable ctx : Context.

Lemma IsError_not_nil (r : Object) : object.IsError r = true -> r <> object.GoNil.
Proof. by destruct r. Qed.

Lemma pipeArguments_early arguments s st a st' :
  pipeArguments X E e ctx arguments s st = Done (inl a) st' ->
  object.IsError a = true.
Proof.
  unfold pipeArguments, bind, ret. destruct (0 <? length arguments)%nat; [| done].
  destruct (evalExpressions X E e ctx arguments s st) as [args st1| |]; try done.
  destruct args as [| a0 [| b more]]; try done.
  destruct (object.IsError a0) eqn:Ha; [| done]. by intros [= <- <-].
Qed.

Lemma pipeResult_early res st r st' :
  pipeResult res st = Done (inl r) st' -> object.IsError r = true.
Proof.
  unfold pipeResult, ret. destruct (object.IsError res) eqn:Hr; [| done].
  by intros [= <- <-].
Qed.

(** A stage ends the pipe only with an Error. *)
Lemma pipeStage_early i expr s a st r st' :
  pipeStage X E e ctx i expr s a st = Done (inl r) st' ->
  object.IsError r = true.
Proof.
  destruct (isBare expr) eqn:Hb.
  - destruct (E e ctx expr s st) as [obj st1| |] eqn:HE.
    + rewrite (pipeStage_bare X E e ctx i expr s a st obj st1 Hb HE).
      destruct (object.IsError obj) eqn:Hobj; [by intros [= <- <-] |].
      destruct (isCallable obj).
      * unfold bind.
        destruct (applyFunction X E e ctx s obj _ st1) as [res st2| |]; try done.
        apply pipeResult_early.
      * case_decide; [done |]. unfold bind, method, Errorf, NewError, ret, panic.
        destruct obj; try done; by intros [= <- <-].
    + unfold pipeStage. destruct expr; try discriminate Hb;
        unfold bind; by rewrite HE.
    + unfold pipeStage. destruct expr; try discriminate Hb;
        unfold bind; by rewrite HE.
  - destruct expr; try discriminate Hb.
    + destruct (E e ctx expr1 s st) as [o st1| |] eqn:HE;
        [| unfold pipeStage, bind; by rewrite HE..].
      destruct expr2;
        try (unfold pipeStage, bind; rewrite HE;
             destruct (object.IsError o) eqn:Ho;
             [by intros [= <- <-] | done]).
      rewrite (pipeStage_objectCall X E e ctx i expr1 expr2 arguments s a st o st1 HE).
      destruct (object.IsError o) eqn:Ho; [by intros [= <- <-] |].
      unfold bind.
      destruct (pipeArguments X E e ctx arguments s st1) as [[err | args] st2| |] eqn:Hargs;
        try done.
      * intros [= <- <-]. by eapply pipeArguments_early.
      * destruct expr2; try (unfold Errorf, NewError, ret; by intros [= <- <-]).
        destruct (evalObjectCall X E e ctx s o literal _ st2) as [res st3| |];
          try done.
        apply pipeResult_early.
    + destruct (E e ctx expr s st) as [f st1| |] eqn:HE;
        [| unfold pipeStage, bind; by rewrite HE..].
      rewrite (pipeStage_call X E e ctx i expr arguments s a st f st1 HE).
      destruct (object.IsError f) eqn:Hf; [by intros [= <- <-] |].
      unfold bind.
      destruct (pipeArguments X E e ctx arguments s st1) as [[err | args] st2| |] eqn:Hargs;
        try done.
      * intros [= <- <-]. by eapply pipeArguments_early.
      * destruct (applyFunction X E e ctx s f _ st2) as [res st3| |]; try done.
        apply pipeResult_early.
Qed.

Lemma pipeStages_not_nil stages :
  forall i s a st r st',
    pipeStages X E e ctx i stages s a st = Done r st' -> r <> object.GoNil.
Proof.
  induction stages as [| expr more IH]; intros i s a st r st'; simpl.
  - destruct a; intros [= <- <-]; discriminate.
  - unfold bind.
    destruct (pipeStage X E e ctx i expr s a st) as [[r0 | a'] st1| |] eqn:Hst;
      try done.
    + intros [= <- <-]. eapply IsError_not_nil, pipeStage_early, Hst.
    + apply IH.
Qed.

End PipeResult.

(** X3: a pipe of fewer than two expressions evaluates nothing and is an
    error that names their number; and whatever a pipe returns, it is an
    object: the nil interface value of a last stage is turned into the nil
    object, and every early return is an Error. *)
Theorem evalPipe_returns_an_object :
  forall (X : Externs) (E : Eval) (e : Evaluator) (ctx : Context)
         (exprs : list Node) (s : nat) (st : State),
    ((length exprs < 2)%nat ->
     evalPipe X E e ctx exprs s st =
     Done (object.Error (next st)
             ("eval error: invalid pipe expression (got only "
              +:+ pretty (length exprs) +:+ " arguments)"))
          (allocated st)) /\
    (forall r st',
        evalPipe X E e ctx exprs s st = Done r st' -> r <> object.GoNil).
Proof.
  intros X E e ctx exprs s st. split.
  - intros Hlen. unfold evalPipe.
    by replace (length exprs <? 2)%nat with true by (symmetry; by apply Nat.ltb_lt).
  - intros r st'. unfold evalPipe.
    destruct (length exprs <? 2)%nat; [by intros [= <- <-] |].
    destruct exprs as [| first stages]; [done |]. unfold bind.
    destruct (E e ctx first s st) as [a st1| |]; try done.
    destruct (object.IsError a) eqn:Ha.
    + intros [= <- <-]. by apply IsError_not_nil.
    + apply pipeStages_not_nil.
Qed.

Lemma evalPipe_returns_an_object_witness :
  let E := Evaluate Std.X 3 in
  let exprs := [ast.Int 5; ast.Ident "quiet"] in
  evalPipe Std.X E Run.evaluator Run.background exprs 0 Run.ready
    = Done object.Nil
        (Run.after (evalPipe Std.X E Run.evaluator Run.background exprs 0
                      Run.ready)) /\
  object.Nil <> object.GoNil /\
  Run.value (evalPipe Std.X E Run.evaluator Run.background [ast.Int 5] 0 Run.ready)
    = Some (object.Error 6 "eval error: invalid pipe expression (got only 1 arguments)").
Proof.
  intros E exprs.
  destruct (evalPipe_returns_an_object Std.X E Run.evaluator Run.background
              exprs 0 Run.ready) as [_ Hobj].
  destruct (evalPipe_returns_an_object Std.X E Run.evaluator Run.background
              [ast.Int 5] 0 Run.ready) as [Hshort _].
  assert (Hrun : evalPipe Std.X E Run.evaluator Run.background exprs 0 Run.ready
                 = Done object.Nil
                     (Run.after (evalPipe Std.X E Run.evaluator Run.background
                                   exprs 0 Run.ready)))
    by (vm_compute; reflexivity).
  split; [exact Hrun |]. split; [exact (Hobj _ _ Hrun) |].
  rewrite Hshort by (simpl; lia). vm_compute. reflexivity.
Defined.

(** ** The default case of a switch *)

Lemma candidates_app (a b : list ast.Case) :
  candidates (a ++ b) = candidates a ++ candidates b.
Proof. unfold candidates. apply flat_map_app. Qed.

Lemma firstDefault_app (a b : list ast.Case) :
  firstDefault (a ++ b) =
  match firstDefault a with
  | Some block => Some block
  | None => firstDefault b
  end.
Proof.
  induction a as [| opt a IH]; simpl; [done |].
  by destruct (ast.IsDefault opt).
Qed.

(** X4: where the default case stands among the cases does not matter: a
    default case written first is passed over until every candidate of the
    other cases is rejected, so it behaves as if it were written last; and
    a default case after the first one never runs. *)
Theorem evalSwitch_default_position :
  forall (X : Externs) (E : Eval) (e : Evaluator) (ctx : Context)
         (value : Node) (choices : list ast.Case) (d : ast.Case) (s : nat)
         (st : State),
    ast.IsDefault d = true ->
    (firstDefault choices = None ->
     evalSwitch X E e ctx value (d :: choices) s st =
     evalSwitch X E e ctx value (choices ++ [d]) s st) /\
    (forall block,
        firstDefault choices = Some block ->
        evalSwitch X E e ctx value (choices ++ [d]) s st =
        evalSwitch X E e ctx value choices s st).
Proof.
  intros X E e ctx value choices d s st Hd.
  assert (Hc : candidates [d] = []) by (unfold candidates; simpl; by rewrite Hd).
  split.
  - intros Hnone. rewrite !evalSwitch_spec. unfold switchSpec.
    rewrite candidates_app, Hc, app_nil_r, firstDefault_app, Hnone.
    rewrite candidates_cons, Hd. simpl. by rewrite Hd.
  - intros block Hsome. rewrite !evalSwitch_spec. unfold switchSpec.
    by rewrite candidates_app, Hc, app_nil_r, firstDefault_app, Hsome.
Qed.

Lemma evalSwitch_default_position_witness :
  let E := Evaluate Std.X 3 in
  let d := (true, [], [ast.String "other" None []]) in
  let one := (false, [ast.Int 1], [ast.String "one" None []]) in
  evalSwitch Std.X E Run.evaluator Run.background (ast.Int 1) [d; one] 0 Run.ready
    = evalSwitch Std.X E Run.evaluator Run.background (ast.Int 1) [one; d] 0 Run.ready /\
  Run.value (evalSwitch Std.X E Run.evaluator Run.background (ast.Int 1) [d; one]
               0 Run.ready) = Some (object.String "one").
Proof.
  intros E d one. split; [| vm_compute; reflexivity].
  apply (evalSwitch_default_position Std.X E Run.evaluator Run.background
           (ast.Int 1) [one] d 0%nat Run.ready); reflexivity.
Defined.

(** ** How the loops end *)

Section LoopExits.

Variable X : Externs.
Variable E : Eval.
Variable e : Evaluator.
Variable ctx : Context.

Lemma evalSimpleForLoop_unfold k body s lv st st1 result st2 :
  scope.Clear s st = Done tt st1 ->
  E e ctx body s st1 = Done result st2 ->
  evalSimpleForLoop E e ctx (S k) body s lv st =
  match latestSimple result lv with
  | Some lv' => evalSimpleForLoop E e ctx k body s lv' st2
  | None => Done (loopExit result lv) st2
  end.
Proof.
  intros H1 H2. simpl. unfold bind. rewrite H1, H2.
  unfold latestSimple, loopExit.
  destruct result; try reflexivity. by repeat case_decide.
Qed.

Lemma iterateSimple_S body s n lv st st1 result st2 lv' :
  scope.Clear s st = Done tt st1 ->
  E e ctx body s st1 = Done result st2 ->
  latestSimple result lv = Some lv' ->
  iterateSimple E e ctx body s (S n) lv st = iterateSimple E e ctx body s n lv' st2.
Proof. intros H1 H2 H3. simpl. by rewrite H1, H2, H3. Qed.

Lemma evalSimpleForLoop_exit k body s :
  forall lv st r st',
    evalSimpleForLoop E e ctx k body s lv st = Done r st' ->
    exists n lvn stn st1 result,
      (n < k)%nat /\
      iterateSimple E e ctx body s n lv st = Some (lvn, stn) /\
      scope.Clear s stn = Done tt st1 /\
      E e ctx body s st1 = Done result st' /\
      latestSimple result lvn = None /\
      r = loopExit result lvn.
Proof.
  induction k as [| k IH]; intros lv st r st'; [done |].
  destruct (scope.Clear s st) as [[] st1| |] eqn:H1;
    [| simpl; unfold bind; by rewrite H1..].
  destruct (E e ctx body s st1) as [result st2| |] eqn:H2;
    [| simpl; unfold bind; by rewrite H1, H2..].
  rewrite (evalSimpleForLoop_unfold k body s lv st st1 result st2 H1 H2).
  destruct (latestSimple result lv) as [lv' |] eqn:Hl.
  - intros Hrest.
    destruct (IH lv' st2 r st' Hrest)
      as (n & lvn & stn & st1' & res & Hn & Hit & Hc & Hb & Hend & Hr).
    exists (S n), lvn, stn, st1', res. repeat split; try done; [lia |].
    by rewrite (iterateSimple_S body s n lv st st1 result st2 lv' H1 H2 Hl).
  - intros [= <- <-]. exists 0%nat, lv, st, st1, result.
    repeat split; try done. lia.
Qed.

Lemma forLoop_unfold k c body post fs ls lv st st1 cv st2 rt st3 :
  scope.Clear ls st = Done tt st1 ->
  E e ctx c fs st1 = Done cv st2 ->
  object.IsError cv = false -> cv <> object.GoNil -> IsTruthy X cv = true ->
  E e ctx body ls st2 = Done rt st3 ->
  forLoop X E e ctx (S k) c body post fs ls lv st =
  match latest rt lv with
  | None => Done (loopExit rt lv) st3
  | Some lv' =>
      match post with
      | ast.GoNil => forLoop X E e ctx k c body post fs ls lv'
      | _ => do res <- E e ctx post fs;
             if object.IsError res then ret res
             else forLoop X E e ctx k c body post fs ls lv'
      end st3
  end.
Proof.
  intros H1 H2 Hne Hnil Ht H3. cbn [forLoop]. unfold bind at 1 2.
  rewrite H1, H2, Hne. unfold method.
  assert (Hcv : forall A (a b : M A),
             match cv with object.GoNil => a | _ => b end = b)
    by (intros; destruct cv; congruence).
  rewrite Hcv. unfold bind at 1, ret. rewrite Ht. unfold bind at 1. rewrite H3.
  unfold latest, loopExit. destruct rt; try reflexivity.
  by repeat case_decide.
Qed.

Lemma iterate_S c body post fs ls n lv st st1 cv st2 rt st3 lv' st4 :
  scope.Clear ls st = Done tt st1 ->
  E e ctx c fs st1 = Done cv st2 ->
  object.IsError cv = false -> cv <> object.GoNil -> IsTruthy X cv = true ->
  E e ctx body ls st2 = Done rt st3 ->
  latest rt lv = Some lv' ->
  afterPost E e ctx post fs st3 = Some st4 ->
  iterate X E e ctx c body post fs ls (S n) lv st =
  iterate X E e ctx c body post fs ls n lv' st4.
Proof.
  intros H1 H2 Hne Hnil Ht H3 Hl Hp. simpl. rewrite H1, H2, Hne.
  destruct cv; try congruence; by rewrite Ht, H3, Hl, Hp.
Qed.

Lemma forLoop_exit k c body post fs ls :
  forall lv st r st',
    forLoop X E e ctx k c body post fs ls lv st = Done r st' ->
    exists n lvn stn,
      (n < k)%nat /\
      iterate X E e ctx c body post fs ls n lv st = Some (lvn, stn) /\
      ForExit X E e ctx c body post fs ls lvn stn r st'.
Proof.
  induction k as [| k IH]; intros lv st r st'; [done |].
  destruct (scope.Clear ls st) as [[] st1| |] eqn:H1;
    [| cbn [forLoop]; unfold bind; by rewrite H1..].
  destruct (E e ctx c fs st1) as [cv st2| |] eqn:H2;
    [| cbn [forLoop]; unfold bind; by rewrite H1, H2..].
  destruct (object.IsError cv) eqn:Hne.
  { cbn [forLoop]. unfold bind. rewrite H1, H2, Hne. intros [= <- <-].
    exists 0%nat, lv, st. repeat split; [lia |]. by eapply exit_condition_error. }
  assert (cv = object.GoNil \/ cv <> object.GoNil) as [-> | Hnil]
    by (destruct cv; (by left) || (by right)).
  { cbn [forLoop]. unfold bind. by rewrite H1, H2. }
  destruct (IsTruthy X cv) eqn:Ht.
  2:{ cbn [forLoop]. unfold bind. rewrite H1, H2, Hne. unfold method.
      destruct cv; try congruence; unfold ret; rewrite Ht; intros [= <- <-];
        exists 0%nat, lv, st; (repeat split; [lia |]);
        by eapply exit_condition_falsy. }
  destruct (E e ctx body ls st2) as [rt st3| |] eqn:H3.
  2,3: cbn [forLoop]; unfold bind; rewrite H1, H2, Hne; unfold method;
       destruct cv; try congruence; unfold ret; by rewrite Ht, H3.
  rewrite (forLoop_unfold k c body post fs ls lv st st1 cv st2 rt st3
             H1 H2 Hne Hnil Ht H3).
  destruct (latest rt lv) as [lv' |] eqn:Hl.
  2:{ intros [= <- <-]. exists 0%nat, lv, st. repeat split; [lia |].
      by eapply exit_body. }
  assert (Hgo : forall st4,
             afterPost E e ctx post fs st3 = Some st4 ->
             forLoop X E e ctx k c body post fs ls lv' st4 = Done r st' ->
             exists n lvn stn,
               (n < S k)%nat /\
               iterate X E e ctx c body post fs ls n lv st = Some (lvn, stn) /\
               ForExit X E e ctx c body post fs ls lvn stn r st').
  { intros st4 Hp Hrest.
    destruct (IH lv' st4 r st' Hrest) as (n & lvn & stn & Hn & Hit & Hex).
    exists (S n), lvn, stn. repeat split; [lia | | done].
    by rewrite (iterate_S c body post fs ls n lv st st1 cv st2 rt st3 lv' st4
                  H1 H2 Hne Hnil Ht H3 Hl Hp). }
  assert (post = ast.GoNil \/ post <> ast.GoNil) as [-> | Hpost]
    by (destruct post; (by left) || (by right)).
  { apply Hgo. reflexivity. }
  assert (Hpost' : forall A (a b : M A),
             match post with ast.GoNil => a | _ => b end = b)
    by (intros; destruct post; congruence).
  rewrite Hpost'.
  assert (Hrun : (do res <- E e ctx post fs;
                  if object.IsError res then ret res
                  else forLoop X E e ctx k c body post fs ls lv') st3 = Done r st' ->
                 exists n lvn stn,
                   (n < S k)%nat /\
                   iterate X E e ctx c body post fs ls n lv st = Some (lvn, stn) /\
                   ForExit X E e ctx c body post fs ls lvn stn r st').
  { unfold bind. destruct (E e ctx post fs st3) as [res st4| |] eqn:H4; try done.
    destruct (object.IsError res) eqn:Hres.
    - intros [= <- <-]. exists 0%nat, lv, st. repeat split; [lia |].
      by eapply exit_post_error.
    - apply Hgo. unfold afterPost.
      assert (Hopt : forall (a b : option State),
                 match post with ast.GoNil => a | _ => b end = b)
        by (intros; destruct post; congruence).
      by rewrite Hopt, H4, Hres. }
  exact Hrun.
Qed.

End LoopExits.

(** X5: the simple loop [for { ... }] returns only when a result of its
    body ends it: after some complete iterations the body gives an Error
    or a [return] signal, which is the result of the loop, or a [break]
    signal, and the result is the latest value: the last body result
    before it that was not a [continue] signal. *)
Theorem evalSimpleForLoop_ends_by_break_return_error :
  forall (E : Eval) (e : Evaluator) (ctx : Context) (k : nat) (body : Node)
         (s : nat) (lv : Object) (st : State) (r : Object) (st' : State),
    evalSimpleForLoop E e ctx k body s lv st = Done r st' ->
    exists n lvn stn st1 result,
      (n < k)%nat /\
      iterateSimple E e ctx body s n lv st = Some (lvn, stn) /\
      scope.Clear s stn = Done tt st1 /\
      E e ctx body s st1 = Done result st' /\
      latestSimple result lvn = None /\
      r = loopExit result lvn.
Proof. intros. by eapply evalSimpleForLoop_exit. Qed.

Lemma evalSimpleForLoop_ends_by_break_return_error_witness :
  let E := Evaluate Std.X 5 in
  let n := ast.Ident "n" in
  let body :=
    ast.Block [ast.If (ast.Infix n "==" (ast.Int 2))
                      (ast.Block [ast.Control "break" ast.GoNil]) ast.GoNil;
               ast.Assign "n" "=" (ast.Infix n "+" (ast.Int 1));
               ast.Ident "n"] in
  let declared := Run.after (E Run.evaluator Run.background
                               (ast.Var "n" (ast.Int 0)) 0%nat Run.ready) in
  let st := forEntered 0 declared in
  let ls := loopScope declared in
  exists k lvn stn st1 result,
    (k < 4)%nat /\
    iterateSimple E Run.evaluator Run.background body ls k object.Nil st
      = Some (lvn, stn) /\
    scope.Clear ls stn = Done tt st1 /\
    E Run.evaluator Run.background body ls st1
      = Done result
          (Run.after (evalSimpleForLoop E Run.evaluator Run.background 4 body ls
                        object.Nil st)) /\
    latestSimple result lvn = None /\
    object.Int 2 = loopExit result lvn.
Proof.
  intros E n body declared st ls.
  apply (evalSimpleForLoop_ends_by_break_return_error E Run.evaluator
           Run.background 4 body ls object.Nil st (object.Int 2)).
  vm_compute. reflexivity.
Defined.

(** X6: the condition form returns only in these ways, after some complete
    iterations: the condition is an Error (the result), or it is falsy
    (the result is the latest value); the body gives an Error or a
    [return] signal (the result) or a [break] signal (the latest value);
    or the post statement is an Error (the result). *)
Theorem forLoop_ends :
  forall (X : Externs) (E : Eval) (e : Evaluator) (ctx : Context) (k : nat)
         (c body post : Node) (fs ls : nat) (lv : Object) (st : State)
         (r : Object) (st' : State),
    forLoop X E e ctx k c body post fs ls lv st = Done r st' ->
    exists n lvn stn,
      (n < k)%nat /\
      iterate X E e ctx c body post fs ls n lv st = Some (lvn, stn) /\
      ForExit X E e ctx c body post fs ls lvn stn r st'.
Proof. intros. by eapply forLoop_exit. Qed.

Lemma forLoop_ends_witness :
  let E := Evaluate Std.X 5 in
  let i := ast.Ident "i" in
  let c := ast.Infix i "<" (ast.Int 2) in
  let body := ast.Block [i] in
  let post := ast.Assign "i" "=" (ast.Infix i "+" (ast.Int 1)) in
  let fs := forScope Run.ready in
  let ls := loopScope Run.ready in
  let st := Run.after (E Run.evaluator Run.background (ast.Var "i" (ast.Int 0)) fs
                         (forEntered 0 Run.ready)) in
  exists n lvn stn,
    (n < 3)%nat /\
    iterate Std.X E Run.evaluator Run.background c body post fs ls n object.Nil st
      = Some (lvn, stn) /\
    ForExit Std.X E Run.evaluator Run.background c body post fs ls lvn stn
      (object.Int 1)
      (Run.after (forLoop Std.X E Run.evaluator Run.background 3 c body post fs ls
                    object.Nil st)).
Proof.
  intros E i c body post fs ls st.
  apply (forLoop_ends Std.X E Run.evaluator Run.background 3 c body post fs ls
           object.Nil st (object.Int 1)).
  vm_compute. reflexivity.
Defined.

(** ** Range loops that are not well formed *)

(** X7: a range loop is an error before anything is evaluated when its
    condition is not a declaration of one or two names; and when the
    expression it ranges over evaluates to an object that is no iterator,
    the loop is an error that names the type of that object, and the body
    is not evaluated. *)
Theorem evalIteratorForLoop_malformed :
  forall (X : Externs) (E : Eval) (e : Evaluator) (ctx : Context) (k : nat)
         (condition body : Node) (s : nat) (st : State),
    ((forall name expr, condition <> ast.Var name expr) ->
     (forall names expr, condition = ast.MultiVar names expr ->
                         (length names < 1 \/ 2 < length names)%nat) ->
     evalIteratorForLoop X E e ctx k condition body s st =
     Done (object.Error (next st) "eval error: invalid for loop condition")
          (allocated st)) /\
    (forall names iterExpr iterObj st1,
        (condition = ast.Var (hd EmptyString names) iterExpr /\ length names = 1%nat \/
         condition = ast.MultiVar names iterExpr /\ (1 <= length names <= 2)%nat) ->
        E e ctx iterExpr s st = Done iterObj st1 ->
        object.IsError iterObj = false ->
        iterObj <> object.GoNil ->
        (forall p, iterObj <> object.Iter p) ->
        evalIteratorForLoop X E e ctx k condition body s st =
        Done (object.Error (next st1)
                ("eval error: cannot iterate over " +:+ TypeOf X iterObj))
             (allocated st1)).
Proof.
  intros X E e ctx k condition body s st. split.
  - intros Hvar Hmulti. unfold evalIteratorForLoop.
    destruct condition; try reflexivity.
    + by destruct (Hvar name condition).
    + destruct (Hmulti names condition eq_refl) as [Hlen | Hlen].
      * by replace (length names <? 1)%nat with true
          by (symmetry; by apply Nat.ltb_lt).
      * replace (2 <? length names)%nat with true
          by (symmetry; by apply Nat.ltb_lt).
        by rewrite orb_true_r.
  - intros names iterExpr iterObj st1 Hc HE Herr Hnil Hiter.
    assert (Hlen : ((length names <? 1) || (2 <? length names))%nat = false).
    { apply orb_false_iff. split; apply Nat.ltb_ge; destruct Hc as [[_ ?] | [_ ?]]; lia. }
    assert (Hrun : (do iterObj <- E e ctx iterExpr s;
                    if object.IsError iterObj then ret iterObj else
                    match iterObj with
                    | object.Iter iterator =>
                        iteratorLoop E e ctx k iterator names body s object.Nil
                    | _ =>
                        do ty <- method iterObj (TypeOf X);
                        Errorf ("eval error: cannot iterate over " +:+ ty)
                    end) st =
                   Done (object.Error (next st1)
                           ("eval error: cannot iterate over " +:+ TypeOf X iterObj))
                        (allocated st1)).
    { unfold bind at 1. rewrite HE, Herr.
      destruct iterObj; try congruence; reflexivity. }
    unfold evalIteratorForLoop. destruct Hc as [[-> Hl] | [-> Hl]].
    + destruct names as [| n0 [| n1 more]]; try discriminate Hl. exact Hrun.
    + by rewrite Hlen.
Qed.

Lemma evalIteratorForLoop_malformed_witness :
  let E := Evaluate Std.X 3 in
  evalIteratorForLoop Std.X E Run.evaluator Run.background 3
    (ast.MultiVar ["a"; "b"; "c"] (ast.Int 1)) (ast.Block []) 0 Run.ready
  = Done (object.Error 6 "eval error: invalid for loop condition")
      (allocated Run.ready) /\
  evalIteratorForLoop Std.X E Run.evaluator Run.background 3
    (ast.Var "a" (ast.Int 1)) (ast.Block []) 0 Run.ready
  = Done (object.Error 6 "eval error: cannot iterate over int")
      (allocated (emit (EvEval (ast.Int 1) 0) Run.ready)).
Proof.
  intros E. split.
  - apply (evalIteratorForLoop_malformed Std.X E Run.evaluator Run.background 3
             (ast.MultiVar ["a"; "b"; "c"] (ast.Int 1)) (ast.Block []) 0%nat
             Run.ready).
    + discriminate.
    + intros names expr [= <- _]. right. simpl. lia.
  - apply (proj2 (evalIteratorForLoop_malformed Std.X E Run.evaluator
                    Run.background 3 (ast.Var "a" (ast.Int 1)) (ast.Block [])
                    0%nat Run.ready) ["a"] (ast.Int 1) (object.Int 1)
             (emit (EvEval (ast.Int 1) 0) Run.ready));
      try discriminate; try reflexivity.
    left. split; reflexivity.
Defined.

(** ** The ways out of the range form *)

Section RangeLoop.

Variable E : Eval.
Variable e : Evaluator.
Variable ctx : Context.

Lemma iteratorLoop_unfold k it names body s lv st st1 :
  scope.Clear s st = Done tt st1 ->
  iteratorLoop E e ctx (S k) it names body s lv st =
  match Next it st1 with
  | Done None st2 => Done lv st2
  | Done (Some (key, value)) st2 =>
      match bindEntry s names key value st2 with
      | Done (Some err) st3 => NewError err st3
      | Done None st3 =>
          match E e ctx body s st3 with
          | Done rt st4 =>
              match latest rt lv with
              | None => Done (loopExit rt lv) st4
              | Some lv' => iteratorLoop E e ctx k it names body s lv' st4
              end
          | Panic msg => Panic msg
          | OutOfFuel => OutOfFuel
          end
      | Panic msg => Panic msg
      | OutOfFuel => OutOfFuel
      end
  | Panic msg => Panic msg
  | OutOfFuel => OutOfFuel
  end.
Proof.
  intros H1.
  assert (Hbody : forall st4,
    (do rt <- E e ctx body s;
     match rt with
     | object.Error _ _ => ret rt
     | object.Control keyword _ =>
         if decide (keyword = "break") then ret lv
         else if decide (keyword = "return") then ret rt
         else iteratorLoop E e ctx k it names body s lv
     | _ => iteratorLoop E e ctx k it names body s rt
     end) st4 =
    match E e ctx body s st4 with
    | Done rt st5 =>
        match latest rt lv with
        | None => Done (loopExit rt lv) st5
        | Some lv' => iteratorLoop E e ctx k it names body s lv' st5
        end
    | Panic msg => Panic msg
    | OutOfFuel => OutOfFuel
    end).
  { intros st4. unfold bind.
    destruct (E e ctx body s st4) as [rt st5| |]; try reflexivity.
    destruct rt; try reflexivity. unfold latest, loopExit.
    repeat case_decide; reflexivity. }
  cbn [iteratorLoop]. unfold bind in *. rewrite H1.
  destruct (Next it st1) as [[[key value] |] st2| |]; try reflexivity.
  unfold bindEntry, bind. destruct names as [| name0 others]; [reflexivity |].
  destruct (scope.declare s name0 key false st2) as [[err |] st3| |];
    try reflexivity.
  destruct others as [| name1 more].
  - unfold ret at 1 2. apply Hbody.
  - destruct (scope.declare s name1 value false st3) as [[err |] st4| |];
      try reflexivity.
    apply Hbody.
Qed.

Lemma iterateEntries_S it names body s n lv st st1 key value st2 st3 rt st4 lv' :
  scope.Clear s st = Done tt st1 ->
  Next it st1 = Done (Some (key, value)) st2 ->
  bindEntry s names key value st2 = Done None st3 ->
  E e ctx body s st3 = Done rt st4 ->
  latest rt lv = Some lv' ->
  iterateEntries E e ctx it names body s (S n) lv st =
  iterateEntries E e ctx it names body s n lv' st4.
Proof. intros H1 H2 H3 H4 H5. simpl. by rewrite H1, H2, H3, H4, H5. Qed.

Lemma iteratorLoop_exit k it names body s :
  forall lv st r st',
    iteratorLoop E e ctx k it names body s lv st = Done r st' ->
    exists n lvn stn,
      (n < k)%nat /\
      iterateEntries E e ctx it names body s n lv st = Some (lvn, stn) /\
      RangeExit E e ctx it names body s lvn stn r st'.
Proof.
  induction k as [| k IH]; intros lv st r st'; [done |].
  destruct (scope.Clear s st) as [[] st1| |] eqn:H1;
    [| simpl; unfold bind; by rewrite H1..].
  rewrite (iteratorLoop_unfold k it names body s lv st st1 H1).
  destruct (Next it st1) as [[[key value] |] st2| |] eqn:H2; try done.
  - destruct (bindEntry s names key value st2) as [[err |] st3| |] eqn:H3;
      try done.
    + intros [= <- <-]. exists 0%nat, lv, st. split; [lia |]. split; [done |].
      by eapply exit_declare.
    + destruct (E e ctx body s st3) as [rt st4| |] eqn:H4; try done.
      destruct (latest rt lv) as [lv' |] eqn:H5.
      * intros Hrest.
        destruct (IH lv' st4 r st' Hrest) as (n & lvn & stn & Hn & Hit & Hexit).
        exists (S n), lvn, stn. split; [lia |]. split; [| done].
        by rewrite (iterateEntries_S it names body s n lv st st1 key value st2
                      st3 rt st4 lv' H1 H2 H3 H4 H5).
      * intros [= <- <-]. exists 0%nat, lv, st. split; [lia |]. split; [done |].
        by eapply exit_range_body.
  - intros [= <- <-]. exists 0%nat, lv, st. split; [lia |]. split; [done |].
    by eapply exit_exhausted.
Qed.

End RangeLoop.

(** X20: the range form returns only in these ways, after some complete
    iterations: the iterator has no more entries (the result is the latest
    value), a loop variable cannot be declared (the result is a new Error
    with the message of the declaration), or the body gives an Error or a
    [return] signal (the result) or a [break] signal (the latest
    value). *)
Theorem iteratorLoop_ends :
  forall (E : Eval) (e : Evaluator) (ctx : Context) (k : nat) (iterator : nat)
         (names : list string) (body : Node) (s : nat) (lv : Object)
         (st : State) (r : Object) (st' : State),
    iteratorLoop E e ctx k iterator names body s lv st = Done r st' ->
    exists n lvn stn,
      (n < k)%nat /\
      iterateEntries E e ctx iterator names body s n lv st = Some (lvn, stn) /\
      RangeExit E e ctx iterator names body s lvn stn r st'.
Proof. intros. by eapply iteratorLoop_exit. Qed.

Lemma iteratorLoop_ends_witness :
  let E := Evaluate Std.X 3 in
  let st := Run.after (alloc (CIter [(object.Int 0, object.Int 7)]) Run.ready) in
  let iterator := next Run.ready in
  let names := ["k"; "v"] in
  let body := ast.Ident "v" in
  exists n lvn stn,
    (n < 3)%nat /\
    iterateEntries E Run.evaluator Run.background iterator names body 0 n
      object.Nil st = Some (lvn, stn) /\
    RangeExit E Run.evaluator Run.background iterator names body 0 lvn stn
      (object.Int 7)
      (Run.after (iteratorLoop E Run.evaluator Run.background 3 iterator names
                    body 0 object.Nil st)).
Proof.
  intros E st iterator names body.
  apply (iteratorLoop_ends E Run.evaluator Run.background 3 iterator names body
           0%nat object.Nil st (object.Int 7)).
  vm_compute. reflexivity.
Defined.

(** ** Statement tracking and breakpoints (trackExecution) *)

(** The state in which [TrackStatement] has pushed its frame. *)
Lemma TrackStatement_pushed (stk : nat) (statement : Node) (s : nat)
    (st : State) (frames : list (Node * nat)) :
  heap st !! stk = Some (CStack frames) ->
  TrackStatement stk statement s st =
  Done tt (set_heap (<[stk := CStack (frames ++ [(statement, s)])]> (heap st)) st).
Proof. intros H. unfold TrackStatement. by rewrite H. Qed.

(** The debugging step at an enabled breakpoint [b], from the state
    [pushed] in which the frame of the statement is on the stack. *)
Lemma breakpoint_step (X : Externs) (stk : nat) (statement : Node) (s : nat)
    (frames : list (Node * nat)) (loc : string) (b : Breakpoint)
    (pushed : State) :
  heap pushed !! stk = Some (CStack (frames ++ [(statement, s)])) ->
  (run modify (emit (EvBreakpoint loc b));
   run (if Trace b
        then do frames <- Frames stk; modify (emit (EvTrace frames))
        else ret tt);
   run (if Stop b
        then do frame <- Top stk;
             do contents <- Contents frame.2;
             run modify (emit (EvLocals contents));
             run Scanln X;
             modify (emit EvContinuing)
        else ret tt);
   ret object.GoNil) pushed =
  (if Stop b
   then match scope.find s (stepped loc b (frames ++ [(statement, s)]) pushed) with
        | Some sc =>
            match Scanln X (emit (EvLocals (scope_store sc))
                              (stepped loc b (frames ++ [(statement, s)]) pushed))
            with
            | Done _ st2 => Done object.GoNil (emit EvContinuing st2)
            | Panic msg => Panic msg
            | OutOfFuel => OutOfFuel
            end
        | None => Panic "nil pointer dereference"
        end
   else Done object.GoNil (stepped loc b (frames ++ [(statement, s)]) pushed)).
Proof.
  intros Hstk. unfold stepped.
  assert (Hframes : forall st0, heap st0 = heap pushed ->
            Frames stk st0 = Done (frames ++ [(statement, s)]) st0).
  { intros st0 H0. unfold Frames. by rewrite H0, Hstk. }
  assert (Hemit : forall ev st0, heap (emit ev st0) = heap st0) by done.
  unfold bind at 1. unfold modify at 1.
  set (banner := emit (EvBreakpoint loc b) pushed).
  assert (Hbanner : heap banner = heap pushed) by done.
  assert (Htrace :
    (if Trace b
     then do frames0 <- Frames stk; modify (emit (EvTrace frames0))
     else ret tt) banner =
    Done tt (if Trace b then emit (EvTrace (frames ++ [(statement, s)])) banner
             else banner)).
  { destruct (Trace b); [| reflexivity].
    unfold bind. by rewrite (Hframes banner Hbanner). }
  unfold bind at 1. rewrite Htrace.
  set (traced := if Trace b then _ else banner).
  assert (Htraced : heap traced = heap pushed).
  { unfold traced. by destruct (Trace b). }
  destruct (Stop b); [| reflexivity].
  unfold bind at 1. unfold Top. unfold bind at 1. unfold bind at 1.
  rewrite (Hframes traced Htraced), last_snoc. unfold ret at 1.
  unfold bind at 1. unfold Contents. cbn [snd].
  destruct (scope.find s traced) as [sc |]; [| reflexivity].
  unfold bind at 1. unfold modify at 1. unfold bind at 1.
  destruct (Scanln X _) as [[] st2| |]; reflexivity.
Qed.

(** X8: tracking a statement never interrupts its evaluation: when
    [trackExecution] returns, it returns the nil interface value, so the
    early return of [Evaluate] after it is never taken.  It pushes one
    frame, the statement and its scope, on the execution stack; without a
    breakpoint at the position of the statement, or with a disabled one,
    that is all it does.  At an enabled breakpoint it reports the
    position, the stack when the breakpoint traces, and, when the
    breakpoint stops, the entries of the scope of the statement; then it
    has waited for the operator, and what it leaves is what [Scanln] left,
    with the report that it continues. *)
Theorem trackExecution_never_interrupts :
  forall (X : Externs) (e : Evaluator) (statement : Node) (tok : Token)
         (s : nat) (st : State) (r : Object) (st' : State),
    trackExecution X e statement tok s st = Done r st' ->
    r = object.GoNil /\
    exists frames,
      heap st !! stack e = Some (CStack frames) /\
      let pushed :=
        set_heap (<[stack e := CStack (frames ++ [(statement, s)])]> (heap st)) st in
      let loc := location (tok_file tok) (tok_line tok) in
      (st' = pushed /\
       (GetBreakpoint e tok = None \/
        exists p b, GetBreakpoint e tok = Some p /\
                    heap pushed !! p = Some (CBreakpoint b) /\
                    Disabled b = true)) \/
      (exists p b,
          GetBreakpoint e tok = Some p /\
          heap pushed !! p = Some (CBreakpoint b) /\
          Disabled b = false /\
          let reported := stepped loc b (frames ++ [(statement, s)]) pushed in
          if Stop b
          then exists sc st2,
                 scope.find s reported = Some sc /\
                 Scanln X (emit (EvLocals (scope_store sc)) reported)
                   = Done tt st2 /\
                 st' = emit EvContinuing st2
          else st' = reported).
Proof.
  intros X e statement tok s st r st'. unfold trackExecution.
  unfold bind at 1.
  destruct (heap st !! stack e) as [[| | | frames | |] |] eqn:Hstk;
    try (unfold TrackStatement; rewrite Hstk; discriminate).
  rewrite (TrackStatement_pushed _ _ _ _ _ Hstk).
  set (pushed := set_heap _ st).
  assert (Hpushed : heap pushed !! stack e
                    = Some (CStack (frames ++ [(statement, s)])))
    by (unfold pushed; simpl; apply lookup_insert_eq).
  destruct (GetBreakpoint e tok) as [p |] eqn:Hget.
  - unfold bind at 1. unfold derefBreakpoint.
    destruct (heap pushed !! p) as [[| | b | | |] |] eqn:Hp; try discriminate.
    destruct (Disabled b) eqn:Hd; cbn [negb].
    + intros [= <- <-]. split; [done |]. exists frames. split; [done |].
      left. split; [done |]. right. by exists p, b.
    + rewrite (breakpoint_step X (stack e) statement s frames _ b pushed Hpushed).
      intros Hrun. assert (Hr : r = object.GoNil).
      { revert Hrun. destruct (Stop b); [| by intros [= <- _]].
        destruct (scope.find s _); [| discriminate].
        destruct (Scanln X _) as [[] st2| |]; try discriminate.
        by intros [= <- _]. }
      split; [done |]. exists frames. split; [done |]. right.
      exists p, b. split; [done |]. split; [done |]. split; [done |].
      cbv zeta. revert Hrun. destruct (Stop b); [| by intros [= _ <-]].
      destruct (scope.find s _) as [sc |]; [| discriminate].
      destruct (Scanln X _) as [[] st2| |] eqn:Hscan; try discriminate.
      intros [= _ <-]. by exists sc, st2.
  - intros [= <- <-]. split; [done |]. exists frames. split; [done |].
    left. split; [done |]. by left.
Qed.

Lemma trackExecution_never_interrupts_witness :
  let stopping := {| File := "main"; Line := 1; Disabled := false;
                     Trace := true; Stop := true |} in
  let opts := {| Importer := None; DisableDefaultBuiltins := false;
                 Builtins := []; Breakpoints := [stopping] |} in
  let e := default Run.evaluator (made Std.X opts Run.initial) in
  let st := Run.after (New Std.X opts Run.initial) in
  let statement := ast.Var "a" (ast.Int 1) in
  let tok := {| tok_file := "main"; tok_line := 1 |} in
  let r := trackExecution Std.X e statement tok 0 st in
  Run.value r = Some object.GoNil /\
  log (Run.after r) =
    log st ++ [EvBreakpoint "main:1" stopping; EvTrace [(statement, 0%nat)];
               EvLocals ∅; EvContinuing].
Proof.
  intros stopping opts e st statement tok r.
  destruct (trackExecution_never_interrupts Std.X e statement tok 0%nat st
              object.GoNil (Run.after r)) as (_ & frames & _ & _).
  - vm_compute. reflexivity.
  - split; vm_compute; reflexivity.
Defined.

(** The evaluator and the state that [New] leaves: the stack is the first
    cell it makes, the range variable of its last loop the second, and
    that cell holds the last breakpoint of the list. *)
Lemma New_shape (X : Externs) (opts : Opts) (st st' : State) (e : Evaluator) :
  New X opts st = Done e st' ->
  stack e = next st /\
  next st' = S (S (next st)) /\
  log st' = log st /\
  heap st' = <[S (next st) := CBreakpoint (default zeroBreakpoint
                                             (last (Breakpoints opts)))]>
               (<[next st := CStack []]> (heap st)) /\
  (forall k, breakpoints e !! k =
             if decide (k ∈ locationOf <$> Breakpoints opts)
             then Some (S (next st)) else None).
Proof.
  unfold New, bind, alloc. fold (stackAllocated st).
  destruct (if DisableDefaultBuiltins opts then _ else _) as [bi0 st0| |] eqn:H0;
    try discriminate.
  assert (st0 = stackAllocated st) as ->.
  { destruct (DisableDefaultBuiltins opts).
    - by injection H0 as _ <-.
    - by destruct (registerBuiltins_spec _ _ _ _ _ H0) as [-> _]. }
  destruct (registerBuiltins (Builtins opts) bi0 _) as [bi st1| |] eqn:H1;
    try discriminate.
  destruct (registerBuiltins_spec _ _ _ _ _ H1) as [-> _].
  match goal with
  | |- context [indexBreakpoints ?pb ?bs ?m ?s] =>
      destruct (indexBreakpoints_spec pb bs m s) as (m' & Hrun & _ & _);
      pose proof (indexBreakpoints_keys pb bs m m' s _ Hrun) as Hkeys
  end.
  rewrite Hrun. unfold ret. intros [= <- <-]. simpl.
  repeat split; try done.
  destruct (last (Breakpoints opts)); simpl; [| done].
  by rewrite insert_insert_eq.
Qed.

(** X9: on the evaluator that [New] has just made, what tracking a
    statement does is decided by the last breakpoint of the options,
    whatever the flags of the breakpoint registered at the position of the
    statement.  At a position where no breakpoint is registered, or when
    that last breakpoint is disabled, it pushes the frame and returns at
    once.  Otherwise it reports the position with the last breakpoint,
    and the stack when that one traces; when that one does not stop it
    returns; when it stops, tracking faults if the scope of the statement
    is no scope, and else waits for the operator: it returns when
    [Scanln] does, and not as long as it does not. *)
Theorem trackExecution_after_New :
  forall (X : Externs) (opts : Opts) (st st' : State) (e : Evaluator)
         (statement : Node) (tok : Token) (s : nat),
    New X opts st = Done e st' ->
    let loc := location (tok_file tok) (tok_line tok) in
    let pushed := set_heap (<[stack e := CStack [(statement, s)]]> (heap st')) st' in
    (loc ∉ locationOf <$> Breakpoints opts ->
     trackExecution X e statement tok s st' = Done object.GoNil pushed) /\
    (forall final,
        loc ∈ locationOf <$> Breakpoints opts ->
        last (Breakpoints opts) = Some final ->
        let reported := stepped loc final [(statement, s)] pushed in
        trackExecution X e statement tok s st' =
        if Disabled final then Done object.GoNil pushed
        else if Stop final
        then match scope.find s reported with
             | Some sc =>
                 match Scanln X (emit (EvLocals (scope_store sc)) reported) with
                 | Done _ st2 => Done object.GoNil (emit EvContinuing st2)
                 | Panic msg => Panic msg
                 | OutOfFuel => OutOfFuel
                 end
             | None => Panic "nil pointer dereference"
             end
        else Done object.GoNil reported).
Proof.
  intros X opts st st' e statement tok s Hnew loc pushed.
  destruct (New_shape X opts st st' e Hnew) as (Hstk & Hnext & Hlog & Hheap & Hkeys).
  assert (Hcell : heap st' !! stack e = Some (CStack [])).
  { rewrite Hheap, Hstk, lookup_insert_ne by lia. apply lookup_insert_eq. }
  assert (Hpushed : heap pushed !! stack e = Some (CStack ([] ++ [(statement, s)])))
    by (unfold pushed; simpl; apply lookup_insert_eq).
  assert (Hstep : forall A (k : M A),
            (run TrackStatement (stack e) statement s; k) st' = k pushed).
  { intros A k. unfold bind. by rewrite (TrackStatement_pushed _ _ _ _ _ Hcell). }
  unfold trackExecution. split.
  - intros Hout. rewrite Hstep. unfold GetBreakpoint.
    assert (Hnone : breakpoints e !! loc = None)
      by (rewrite Hkeys; by rewrite decide_False).
    fold loc. rewrite Hnone. by case_decide.
  - intros final Hin Hlast. cbv zeta. rewrite Hstep. unfold GetBreakpoint.
    assert (Hfound : breakpoints e !! loc = Some (S (next st)))
      by (rewrite Hkeys; by rewrite decide_True).
    fold loc. rewrite decide_False.
    2:{ apply map_size_ne_0_lookup_2 with loc. rewrite Hfound. eauto. }
    rewrite Hfound. unfold bind at 1. unfold derefBreakpoint.
    assert (Hp : heap pushed !! S (next st) = Some (CBreakpoint final)).
    { unfold pushed. simpl. rewrite Hstk, lookup_insert_ne by lia.
      rewrite Hheap, lookup_insert_eq. by rewrite Hlast. }
    rewrite Hp. destruct (Disabled final); cbn [negb]; [reflexivity |].
    apply (breakpoint_step X (stack e) statement s [] loc final pushed Hpushed).
Qed.

Lemma trackExecution_after_New_witness :
  let first := {| File := "a.tm"; Line := 1; Disabled := true;
                  Trace := true; Stop := false |} in
  let second := {| File := "b.tm"; Line := 2; Disabled := false;
                   Trace := false; Stop := true |} in
  let opts := {| Importer := None; DisableDefaultBuiltins := false;
                 Builtins := []; Breakpoints := [first; second] |} in
  let e := default Run.evaluator (made Std.X opts Run.initial) in
  let st' := Run.after (New Std.X opts Run.initial) in
  let statement := ast.Var "a" (ast.Int 1) in
  let tok := {| tok_file := "a.tm"; tok_line := 1 |} in
  log (Run.after (trackExecution Std.X e statement tok 0 st'))
    = log st' ++ [EvBreakpoint "a.tm:1" second; EvLocals ∅; EvContinuing] /\
  trackExecution Std.X e statement tok 999 st' = Panic "nil pointer dereference".
Proof.
  intros first second opts e st' statement tok.
  assert (Hnew : New Std.X opts Run.initial = Done e st')
    by (vm_compute; reflexivity).
  split.
  - destruct (trackExecution_after_New Std.X opts Run.initial st' e statement
                tok 0%nat Hnew) as [_ Hhit].
    rewrite (Hhit second); [vm_compute; reflexivity | | reflexivity].
    vm_compute. apply elem_of_cons. by left.
  - destruct (trackExecution_after_New Std.X opts Run.initial st' e statement
                tok 999%nat Hnew) as [_ Hhit].
    rewrite (Hhit second); [vm_compute; reflexivity | | reflexivity].
    vm_compute. apply elem_of_cons. by left.
Defined.

(** ** When [New] returns *)

Lemma Key_returns (st : State) (b : nat) :
  (is_Some (Builtin.at_ st b) /\ exists k, builtin.Key b st = Done k st) \/
  (Builtin.at_ st b = None /\ builtin.Key b st = Panic "nil pointer dereference").
Proof.
  unfold Builtin.at_, builtin.Key, bind, builtin.deref.
  destruct (heap st !! b) as [[| r | | | |] |]; try (by right).
  left. split; [eauto |]. repeat case_match; eauto.
Qed.

Lemma registerBuiltins_returns (bs : list nat) :
  forall (m : gmap string nat) (st : State),
    (Forall (fun b => is_Some (Builtin.at_ st b)) bs /\
     exists m', registerBuiltins bs m st = Done m' st) \/
    (~ Forall (fun b => is_Some (Builtin.at_ st b)) bs /\
     registerBuiltins bs m st = Panic "nil pointer dereference").
Proof.
  induction bs as [| b rest IH]; intros m st; simpl.
  - left. split; [constructor | eauto].
  - unfold bind. destruct (Key_returns st b) as [[Hb [k ->]] | [Hnone ->]].
    + destruct (IH (<[k := b]> m) st) as [[Hall Hrun] | [Hnot Hrun]].
      * left. split; [by constructor | done].
      * right. split; [| done]. intros Hall. apply Hnot.
        by apply Forall_cons in Hall as [_ ?].
    + right. split; [| done]. intros Hall.
      apply Forall_cons in Hall as [[r Hr] _]. congruence.
Qed.

(** X22: [New] returns an evaluator exactly when every builtin it is to
    register, the defaults unless they are disabled and the overrides of
    the options, is a builtin and not a nil pointer; otherwise it dies of
    a nil pointer dereference when it asks that builtin for its key.
    The breakpoints of the options cannot make it fail. *)
Theorem New_returns_iff_builtins_valid :
  forall (X : Externs) (opts : Opts) (st : State),
    ((exists e st', New X opts st = Done e st') <->
     Forall (fun b => is_Some (Builtin.at_ (stackAllocated st) b))
            (registered X opts)) /\
    ((exists e st', New X opts st = Done e st') \/
     New X opts st = Panic "nil pointer dereference").
Proof.
  intros X opts st.
  assert (Hcases :
    (Forall (fun b => is_Some (Builtin.at_ (stackAllocated st) b))
            (registered X opts) /\
     exists e st', New X opts st = Done e st') \/
    (~ Forall (fun b => is_Some (Builtin.at_ (stackAllocated st) b))
              (registered X opts) /\
     New X opts st = Panic "nil pointer dereference")).
  { unfold New, bind, alloc, ret, registered. fold (stackAllocated st).
    assert (Hbp : forall bi st0, exists e st',
      match indexBreakpoints (next st0) (Breakpoints opts) ∅
              {| heap := <[next st0 := CBreakpoint zeroBreakpoint]> (heap st0);
                 next := S (next st0); log := log st0 |} with
      | Done bp st2 =>
          Done {| importer := Importer opts; builtins := bi;
                  stack := next st; breakpoints := bp |} st2
      | Panic msg => Panic msg
      | OutOfFuel => OutOfFuel
      end = Done e st').
    { intros bi st0.
      match goal with
      | |- context [indexBreakpoints ?pb ?bs ?m ?s] =>
          destruct (indexBreakpoints_spec pb bs m s) as (m' & -> & _)
      end.
      eauto. }
    destruct (DisableDefaultBuiltins opts).
    - simpl app.
      destruct (registerBuiltins_returns (Builtins opts) ∅ (stackAllocated st))
        as [[Hall [bi ->]] | [Hnot ->]].
      + left. split; [done |]. apply Hbp.
      + by right.
    - destruct (registerBuiltins_returns (GlobalBuiltins X) ∅ (stackAllocated st))
        as [[Hall [bi0 ->]] | [Hnot ->]].
      + destruct (registerBuiltins_returns (Builtins opts) bi0 (stackAllocated st))
          as [[Hall' [bi ->]] | [Hnot ->]].
        * left. split; [by apply Forall_app |]. apply Hbp.
        * right. split; [| done]. intros H. apply Hnot.
          by apply Forall_app in H as [_ ?].
      + right. split; [| done]. intros H. apply Hnot.
        by apply Forall_app in H as [? _]. }
  destruct Hcases as [[Hall Hrun] | [Hnot Hpanic]].
  - split; [| by left]. split; done.
  - split; [| by right]. split.
    + intros (e & st' & Hrun). rewrite Hpanic in Hrun. discriminate.
    + intros Hall. by destruct Hnot.
Qed.

Lemma New_returns_iff_builtins_valid_witness :
  exists e st', New Std.X emptyOpts Run.initial = Done e st'.
Proof.
  apply (proj1 (New_returns_iff_builtins_valid Std.X emptyOpts Run.initial)).
  apply Forall_forall. intros b Hb. vm_compute in Hb.
  repeat (apply elem_of_cons in Hb as [-> | Hb]; [vm_compute; eauto |]).
  by apply elem_of_nil in Hb.
Defined.

(** ** Control signals (evalControl, upwrapReturnValue) *)

(** X10: [break] and [continue] evaluate nothing; what a [return]
    statement gives is the Error of its value expression, unchanged, or a
    signal from which [upwrapReturnValue] takes that value back, the nil
    object when the statement has no value expression; any other keyword
    is an error that names it, and its value expression is not
    evaluated. *)
Theorem evalControl_return_round_trip :
  forall (E : Eval) (e : Evaluator) (ctx : Context) (literal : string)
         (nodeVal : Node) (s : nat) (st : State),
    (literal = "break" \/ literal = "continue" ->
     exists r, evalControl E e ctx literal nodeVal s st = Done r st /\
               object.IsError r = false) /\
    (forall r st',
        literal = "return" ->
        evalControl E e ctx literal nodeVal s st = Done r st' ->
        (nodeVal = ast.GoNil /\ st' = st /\ upwrapReturnValue r = object.Nil) \/
        (nodeVal <> ast.GoNil /\ E e ctx nodeVal s st = Done r st' /\
         object.IsError r = true) \/
        (nodeVal <> ast.GoNil /\ object.IsError r = false /\
         E e ctx nodeVal s st = Done (upwrapReturnValue r) st' /\
         object.IsError (upwrapReturnValue r) = false)) /\
    (literal <> "break" -> literal <> "continue" -> literal <> "return" ->
     evalControl E e ctx literal nodeVal s st =
     Done (object.Error (next st)
             ("eval error: invalid control keyword: " +:+ literal))
          (allocated st)).
Proof.
  intros E e ctx literal nodeVal s st. split; [| split].
  - intros [-> | ->]; eexists; split; reflexivity.
  - intros r st' ->. unfold evalControl. simpl.
    assert (Hnil : nodeVal = ast.GoNil \/ nodeVal <> ast.GoNil)
      by (destruct nodeVal; (by left) || (by right)).
    destruct Hnil as [-> | Hnil].
    + intros [= <- <-]. left. done.
    + assert (Hrun : (do value <- E e ctx nodeVal s;
                      if object.IsError value then ret value
                      else ret (NewReturn value)) st = Done r st' ->
                     (E e ctx nodeVal s st = Done r st' /\
                      object.IsError r = true) \/
                     (object.IsError r = false /\
                      E e ctx nodeVal s st = Done (upwrapReturnValue r) st' /\
                      object.IsError (upwrapReturnValue r) = false)).
      { unfold bind. destruct (E e ctx nodeVal s st) as [v st1| |];
          try discriminate.
        destruct (object.IsError v) eqn:Hv; intros [= <- <-].
        - by left.
        - right. done. }
      destruct nodeVal; try done; intros Hr; right;
        (destruct (Hrun Hr) as [[? ?] | (? & ? & ?)]; [left | right]);
        repeat split; try assumption; discriminate.
  - intros Hb Hc Hr. unfold evalControl.
    by rewrite !decide_False by done.
Qed.

Lemma evalControl_return_round_trip_witness :
  let E := Evaluate Std.X 3 in
  let st := Run.ready in
  evalControl E Run.evaluator Run.background "return" (ast.Int 7) 0 st
    = Done (NewReturn (object.Int 7)) (emit (EvEval (ast.Int 7) 0) st) /\
  upwrapReturnValue (NewReturn (object.Int 7)) = object.Int 7 /\
  evalControl E Run.evaluator Run.background "goto" (ast.Int 7) 0 st
    = Done (object.Error (next st) "eval error: invalid control keyword: goto")
        (allocated st).
Proof.
  intros E st. split; [| split].
  - vm_compute. reflexivity.
  - reflexivity.
  - apply (evalControl_return_round_trip E Run.evaluator Run.background "goto"
             (ast.Int 7) 0%nat st); discriminate.
Defined.

(** ** Templates with too few expressions (evalStringLiteral) *)

Section TemplateShortage.

Variable X : Externs.
Variable E : Eval.
Variable ctx : Context.

Lemma variables_cons f rest :
  variables (f :: rest) =
  if ast.IsVariable f then S (variables rest) else variables rest.
Proof. unfold variables. simpl. by destruct (ast.IsVariable f). Qed.

Lemma templateFragments_shortage fragments exprs :
  forall i parts s st r st',
    (i <= length exprs)%nat ->
    (length exprs < i + variables fragments)%nat ->
    templateFragments X E ctx fragments exprs i parts s st = Done r st' ->
    object.IsError r = true.
Proof.
  induction fragments as [| f rest IH]; intros i parts s st r st' Hi Hshort.
  - unfold variables in Hshort. simpl in Hshort. lia.
  - rewrite variables_cons in Hshort. simpl.
    destruct (ast.IsVariable f).
    + destruct (exprs !! i) as [expr |] eqn:Hexpr; [| discriminate].
      apply lookup_lt_Some in Hexpr.
      assert (Hnext : forall parts' st0 r0 st0',
                 templateFragments X E ctx rest exprs (S i) parts' s st0
                 = Done r0 st0' -> object.IsError r0 = true).
      { intros parts' st0 r0 st0'. apply IH; lia. }
      destruct expr; try (by apply Hnext);
        (unfold bind;
         destruct (New X emptyOpts st) as [fresh st1| |]; try discriminate;
         match goal with
         | |- context [E ?f ctx ?n s ?st0] =>
             destruct (E f ctx n s st0) as [obj st2| |]; try discriminate
         end;
         destruct obj; try (by apply Hnext); try (by intros [= <- <-]);
         unfold inspect;
         try discriminate;
         match goal with
         | |- context [Inspect X ?o ?st0] =>
             destruct (Inspect X o st0) as [text st3| |]; try discriminate
         end;
         by apply Hnext).
    + apply IH; lia.
Qed.

Lemma templateFragments_no_slot fragments :
  forall i parts s st,
    (0 < variables fragments)%nat ->
    templateFragments X E ctx fragments [] i parts s st
    = Panic "index out of range".
Proof.
  induction fragments as [| f rest IH]; intros i parts s st Hv.
  - unfold variables in Hv. simpl in Hv. lia.
  - rewrite variables_cons in Hv. simpl.
    destruct (ast.IsVariable f); [done |]. by apply IH.
Qed.

End TemplateShortage.

(** X11: a template with more variable fragments than expression slots
    never evaluates to a string: what it returns, if it returns, is the
    Error of one of its expressions; and with no slot at all it is the
    run-time fault of an index out of range, whatever the fragments before
    the first variable fragment are. *)
Theorem evalStringLiteral_slot_shortage :
  forall (X : Externs) (E : Eval) (ctx : Context) (value : string)
         (fragments : list ast.Fragment) (exprs : list Node) (s : nat)
         (st : State),
    (length exprs < variables fragments)%nat ->
    (forall r st',
        evalStringLiteral X E ctx value (Some fragments) exprs s st = Done r st' ->
        object.IsError r = true) /\
    (exprs = [] ->
     evalStringLiteral X E ctx value (Some fragments) exprs s st
     = Panic "index out of range").
Proof.
  intros X E ctx value fragments exprs s st Hshort. split.
  - intros r st'. unfold evalStringLiteral.
    apply templateFragments_shortage; lia.
  - intros ->. unfold evalStringLiteral.
    apply templateFragments_no_slot. simpl in Hshort. lia.
Qed.

Lemma evalStringLiteral_slot_shortage_witness :
  let E := Evaluate Std.X 3 in
  let template := [ast.Build_Fragment false "x="; ast.Build_Fragment true "N"] in
  evalStringLiteral Std.X E Run.background "x={N}" (Some template) [] 0 Run.ready
  = Panic "index out of range".
Proof.
  intros E template.
  apply (evalStringLiteral_slot_shortage Std.X E Run.background "x={N}" template
           [] 0%nat Run.ready).
  - vm_compute. lia.
  - reflexivity.
Defined.

(** ** Builtins as the constructors make them (object/builtin.go) *)

Lemma NewBuiltin_at (name : string) (fn : nat) (st : State) :
  exists r,
    builtin.NewBuiltin name fn st = Done (next st) (Run.after (builtin.NewBuiltin name fn st)) /\
    Builtin.at_ (Run.after (builtin.NewBuiltin name fn st)) (next st) = Some r /\
    Builtin.constructed r /\ object.name r = name /\ object.fn r = fn /\
    object.isErrorHandler r = false.
Proof.
  eexists. split; [reflexivity |]. unfold Builtin.at_. simpl.
  rewrite lookup_insert_eq. by repeat split.
Qed.

Lemma NewErrorHandler_at (name : string) (fn : nat) (st : State) :
  exists r,
    builtin.NewErrorHandler name fn st
      = Done (next st) (Run.after (builtin.NewErrorHandler name fn st)) /\
    Builtin.at_ (Run.after (builtin.NewErrorHandler name fn st)) (next st) = Some r /\
    Builtin.constructed r /\ object.name r = name /\ object.fn r = fn /\
    object.isErrorHandler r = true.
Proof.
  unfold builtin.NewErrorHandler, builtin.NewBuiltin, bind, alloc,
    builtin.deref. simpl. rewrite lookup_insert_eq. simpl.
  eexists. split; [reflexivity |]. unfold Builtin.at_. simpl.
  rewrite lookup_insert_eq. by repeat split.
Qed.

Lemma NewNoopBuiltin_at (noop : nat) (name : string) (module : option string)
    (st : State) :
  exists r,
    Builtin.NewNoopBuiltin noop name module st
      = Done (next st) (Run.after (Builtin.NewNoopBuiltin noop name module st)) /\
    Builtin.at_ (Run.after (Builtin.NewNoopBuiltin noop name module st)) (next st)
      = Some r /\
    Builtin.constructed r /\ object.name r = name /\ object.fn r = noop /\
    object.module r = module.
Proof.
  unfold Builtin.NewNoopBuiltin, bind, alloc, builtin.deref, Builtin.store,
    modify.
  destruct module as [m |]; simpl.
  - rewrite lookup_insert_eq. simpl.
    eexists. split; [reflexivity |]. unfold Builtin.at_. simpl.
    rewrite lookup_insert_eq. by repeat split.
  - eexists. split; [reflexivity |]. unfold Builtin.at_. simpl.
    rewrite lookup_insert_eq. by repeat split.
Qed.

Lemma constructed_Key (st : State) (b : nat) (r : object.BuiltinStruct) :
  Builtin.at_ st b = Some r ->
  Builtin.constructed r ->
  builtin.Key b st =
  Done (match object.module r with
        | Some m => m +:+ "." +:+ object.name r
        | None => object.name r
        end) st.
Proof.
  unfold Builtin.at_, Builtin.constructed, builtin.Key, bind, builtin.deref.
  destruct (heap st !! b) as [[| r' | | | |] |]; try discriminate.
  intros [= ->] Hc. destruct (object.module r) as [m |]; simpl in Hc.
  - case_decide; [done |]. by rewrite Hc.
  - by rewrite decide_True.
Qed.

(** X12: for a builtin as [NewBuiltin], [NewErrorHandler] or
    [NewNoopBuiltin] make it, the text of [Inspect] is its key between
    "builtin(" and ")", the attribute [__name__] is that key as a string,
    and the key is the name alone without a module and
    "module.name" with one; a builtin from [NewBuiltin] or
    [NewErrorHandler] has no module, so its key is the name it was given.
    An attribute of any other name than the three of the source is not
    found, also on a pointer that is nil. *)
Theorem constructed_builtin_Inspect_shows_Key :
  forall (st : State) (b : nat) (r : object.BuiltinStruct),
    Builtin.at_ st b = Some r ->
    Builtin.constructed r ->
    (exists key,
        builtin.Key b st = Done key st /\
        builtin.Inspect b st = Done ("builtin(" +:+ key +:+ ")") st /\
        Builtin.GetAttr b "__name__" st
          = Done (Some (Builtin.AttrObject (object.String key))) st /\
        (object.module r = None -> key = object.name r)) /\
    (forall (name : string) (fn : nat) (st0 : State),
        exists r0,
          Builtin.at_ (Run.after (builtin.NewBuiltin name fn st0)) (next st0)
            = Some r0 /\
          Builtin.constructed r0 /\ object.module r0 = None /\
          object.name r0 = name) /\
    (forall (name : string) (fn : nat) (st0 : State),
        exists r0,
          Builtin.at_ (Run.after (builtin.NewErrorHandler name fn st0)) (next st0)
            = Some r0 /\
          Builtin.constructed r0 /\ object.module r0 = None /\
          object.name r0 = name) /\
    (forall (noop : nat) (name : string) (module : option string) (st0 : State),
        exists r0,
          Builtin.at_ (Run.after (Builtin.NewNoopBuiltin noop name module st0))
            (next st0) = Some r0 /\
          Builtin.constructed r0 /\ object.module r0 = module /\
          object.name r0 = name) /\
    (forall (q : nat) (name : string) (st0 : State),
        name <> "__doc__" -> name <> "__name__" -> name <> "__module__" ->
        Builtin.GetAttr q name st0 = Done None st0).
Proof.
  intros st b r Hat Hc. split; [| split; [| split; [| split]]].
  - pose proof (constructed_Key st b r Hat Hc) as Hkey.
    eexists. split; [exact Hkey |]. split; [| split].
    + revert Hat. unfold Builtin.at_, builtin.Inspect, bind, builtin.deref.
      destruct (heap st !! b) as [[| r' | | | |] |]; try discriminate.
      intros [= ->]. destruct (object.module r) as [m |]; [| done].
      unfold ret. do 2 f_equal. by rewrite !append_assoc.
    + unfold Builtin.GetAttr. simpl. unfold bind. by rewrite Hkey.
    + by intros ->.
  - intros name fn st0. unfold Builtin.at_. simpl. rewrite lookup_insert_eq.
    eexists. by repeat split.
  - intros name fn st0.
    destruct (NewErrorHandler_at name fn st0) as (r0 & _ & Hr0 & Hc0 & Hn & _).
    exists r0. repeat split; try done.
    revert Hr0. unfold Builtin.at_, builtin.NewErrorHandler,
      builtin.NewBuiltin, bind, alloc, builtin.deref. simpl.
    rewrite lookup_insert_eq. simpl. rewrite lookup_insert_eq.
    by intros [= <-].
  - intros noop name module st0.
    destruct (NewNoopBuiltin_at noop name module st0)
      as (r0 & _ & Hr0 & Hc0 & Hn & _ & Hm).
    exists r0. by repeat split.
  - intros q name st0 H1 H2 H3. unfold Builtin.GetAttr.
    by rewrite !decide_False by done.
Qed.

Lemma constructed_builtin_Inspect_shows_Key_witness :
  let st := Run.after (Builtin.NewNoopBuiltin 0 "get" (Some "http") Run.initial) in
  let b := next Run.initial in
  builtin.Inspect b st = Done "builtin(http.get)" st /\
  builtin.Key b st = Done "http.get" st.
Proof.
  intros st b.
  destruct (constructed_builtin_Inspect_shows_Key st b
              {| object.fn := 0; object.name := "get";
                 object.module := Some "http"; object.moduleName := "http";
                 object.isErrorHandler := false; object.doc := None |})
    as ((key & Hkey & Hinspect & _) & _).
  - vm_compute. reflexivity.
  - reflexivity.
  - assert (key = "http.get") as ->.
    { assert (Hk : builtin.Key b st = Done "http.get" st)
        by (vm_compute; reflexivity).
      rewrite Hk in Hkey. by injection Hkey as <-. }
    split; [exact Hinspect | exact Hkey].
Defined.

(** X13: [WithDoc] hands its receiver back; after it the attribute
    [__doc__] is the documentation that was given, the nil object when
    none was given; the key, the name and the function of the builtin,
    whether it handles errors, and every other cell of the heap are as
    before. *)
Theorem WithDoc_GetAttr_round_trip :
  forall (st : State) (b : nat) (r : object.BuiltinStruct) (doc : option nat),
    Builtin.at_ st b = Some r ->
    exists st' r',
      Builtin.WithDoc b doc st = Done b st' /\
      Builtin.GetAttr b "__doc__" st' =
        Done (Some (match doc with
                    | Some d => Builtin.AttrDoc d
                    | None => Builtin.AttrObject object.Nil
                    end)) st' /\
      Builtin.at_ st' b = Some r' /\
      object.fn r' = object.fn r /\ object.name r' = object.name r /\
      object.module r' = object.module r /\
      object.moduleName r' = object.moduleName r /\
      object.isErrorHandler r' = object.isErrorHandler r /\
      (forall q, q <> b -> heap st' !! q = heap st !! q) /\
      next st' = next st /\ log st' = log st.
Proof.
  intros st b r doc. unfold Builtin.at_, Builtin.WithDoc, bind, builtin.deref,
    Builtin.store, modify.
  destruct (heap st !! b) as [[| r0 | | | |] |] eqn:Hb; try discriminate.
  intros [= ->]. simpl. do 2 eexists. split; [reflexivity |].
  unfold Builtin.GetAttr, bind, builtin.deref. simpl.
  rewrite lookup_insert_eq. simpl. split; [by destruct doc |].
  repeat split; try done.
  intros q Hq. by rewrite lookup_insert_ne.
Qed.

Lemma WithDoc_GetAttr_round_trip_witness :
  let st := Run.after (builtin.NewBuiltin "len" 0 Run.initial) in
  let b := next Run.initial in
  exists st',
    Builtin.WithDoc b (Some 7%nat) st = Done b st' /\
    Builtin.GetAttr b "__doc__" st' = Done (Some (Builtin.AttrDoc 7)) st'.
Proof.
  intros st b.
  destruct (WithDoc_GetAttr_round_trip st b
              {| object.fn := 0; object.name := "len"; object.module := None;
                 object.moduleName := EmptyString;
                 object.isErrorHandler := false; object.doc := None |}
              (Some 7%nat))
    as (st' & r' & Hdoc & Hattr & _).
  - vm_compute. reflexivity.
  - exists st'. split; [exact Hdoc | exact Hattr].
Defined.

(** ** The line editor of the read-eval-print loop (repl/repl.go) *)

Section Repl.

Import repl.

Variable fs : list Ascii.ascii -> list Effect -> bool.

Lemma wrap_id (z : Z) : - 2 ^ 63 <= z < 2 ^ 63 -> wrap z = z.
Proof. intros Hz. unfold wrap. rewrite Z.mod_small; lia. Qed.

Lemma len_nonneg {A} (l : list A) : 0 <= len l.
Proof. unfold len. lia. Qed.

Lemma len_app {A} (l k : list A) : len (l ++ k) = len l + len k.
Proof. unfold len. rewrite length_app. lia. Qed.

Lemma len_nil {A} : len (@nil A) = 0.
Proof. reflexivity. Qed.

Lemma len_nonempty {A} (l : list A) : l <> [] -> 1 <= len l.
Proof. destruct l; [done |]. unfold len. simpl. lia. Qed.

Lemma from_Some (s : list Ascii.ascii) (lo : Z) :
  0 <= lo <= len s -> from s lo = Some (drop (Z.to_nat lo) s).
Proof.
  intros H. unfold from.
  by replace ((0 <=? lo) && (lo <=? len s)) with true
    by (symmetry; apply andb_true_iff; split; apply Z.leb_le; lia).
Qed.

Lemma upto_Some (s : list Ascii.ascii) (hi : Z) :
  0 <= hi <= len s -> upto s hi = Some (take (Z.to_nat hi) s).
Proof.
  intros H. unfold upto.
  by replace ((0 <=? hi) && (hi <=? len s)) with true
    by (symmetry; apply andb_true_iff; split; apply Z.leb_le; lia).
Qed.

Lemma index_Some {A} (l : list A) (i : Z) :
  0 <= i < len l -> exists x, index l i = Some x /\ x ∈ l.
Proof.
  intros H. unfold index.
  replace (0 <=? i) with true by (symmetry; apply Z.leb_le; lia).
  destruct (l !! Z.to_nat i) as [x |] eqn:Hx.
  - exists x. split; [done |]. by eapply list_elem_of_lookup_2.
  - apply lookup_ge_None in Hx. unfold len in H. lia.
Qed.

Lemma len_take_le (s : list Ascii.ascii) (n : Z) :
  0 <= n <= len s -> len (take (Z.to_nat n) s) = n.
Proof. unfold len. intros H. rewrite length_take. lia. Qed.

Lemma len_drop_le (s : list Ascii.ascii) (n : Z) :
  0 <= n <= len s -> len (drop (Z.to_nat n) s) = len s - n.
Proof. unfold len. intros H. rewrite length_drop. lia. Qed.

Lemma widest_line (l : list Ascii.ascii) (h : list (list Ascii.ascii)) :
  l ∈ h -> len l <= foldr Z.max 0 (len <$> h).
Proof.
  induction h as [| x h IH]; [by intros ?%elem_of_nil |].
  rewrite fmap_cons. cbn [foldr].
  intros [-> | Hin]%elem_of_cons; [lia |].
  specialize (IH Hin). lia.
Qed.

Lemma widest_snoc (l : list Ascii.ascii) (h : list (list Ascii.ascii)) :
  foldr Z.max 0 (len <$> (h ++ [l])) = Z.max (len l) (foldr Z.max 0 (len <$> h)).
Proof.
  induction h as [| x h IH].
  - simpl. pose proof (len_nonneg l). lia.
  - rewrite <- app_comm_cons, !fmap_cons. cbn [foldr]. rewrite IH. lia.
Qed.

Lemma widest_nonneg (h : list (list Ascii.ascii)) :
  0 <= foldr Z.max 0 (len <$> h).
Proof. induction h; [done |]. rewrite fmap_cons. cbn [foldr]. lia. Qed.

(** One key: the cursor stays in the line, the session grows by what the
    key types and by one line of history at most, and there is no
    fault. *)
Lemma handle_inLine (key : Key) (st : Session) :
  inLine st -> types key ->
  widest st + len (Runes key) < 2 ^ 63 ->
  len (history st) < 2 ^ 63 - 1 ->
  match handle fs key st with
  | Continue st' =>
      inLine st' /\
      widest st' <= widest st + len (Runes key) /\
      len (history st') <= len (history st) + 1
  | Exit code _ => code = 0 /\ (Code key = CtrlC \/ Code key = CtrlD)
  | Fault => False
  end.
Proof.
  destruct st as [c hi h a p eff]. destruct key as [code runes].
  unfold inLine, types, widest. simpl.
  intros [[Hc0 Hc1] [Hh0 Hh1]] Htypes Hfit Hhist.
  pose proof (len_nonneg runes) as Hr. pose proof (len_nonneg a) as Ha.
  pose proof (widest_nonneg h) as Hw.
  assert (Hins : runes <> [] ->
            exists st',
              onRune {| Code := code; Runes := runes |}
                {| column := c; historyIndex := hi; history := h;
                   accumulate := a; historyPath := p; effects := eff |}
              = Some st' /\
              inLine st' /\
              Z.max (len (accumulate st')) (foldr Z.max 0 (len <$> history st'))
              <= Z.max (len a) (foldr Z.max 0 (len <$> h)) + len runes /\
              len (history st') <= len h + 1).
  { intros Hne%len_nonempty. unfold onRune. simpl.
    destruct (Z.ltb_spec c (len a)) as [Hlt | Hge]; simpl.
    - rewrite from_Some, upto_Some by lia. simpl.
      eexists. split; [reflexivity |].
      unfold inLine. simpl. rewrite !len_app, len_take_le, len_drop_le by lia.
      unfold inc. rewrite wrap_id by lia. lia.
    - eexists. split; [reflexivity |].
      unfold inLine. simpl. rewrite !len_app.
      unfold inc. rewrite wrap_id by lia. lia. }
  assert (Hrecall : forall hi', 0 <= hi' < len h ->
            exists st',
              recall {| column := c; historyIndex := hi'; history := h;
                        accumulate := a; historyPath := p; effects := eff |}
              = Some st' /\
              inLine st' /\
              Z.max (len (accumulate st')) (foldr Z.max 0 (len <$> history st'))
              <= Z.max (len a) (foldr Z.max 0 (len <$> h)) + len runes /\
              len (history st') <= len h + 1).
  { intros hi' Hhi'. unfold recall. simpl.
    destruct (index_Some h hi' Hhi') as (line & -> & Hin). simpl.
    eexists. split; [reflexivity |].
    pose proof (widest_line line h Hin). pose proof (len_nonneg line).
    unfold inLine. simpl. lia. }
  destruct code; unfold handle; cbn [Code].
  - (* Enter *)
    unfold onEnter, appendToHistory. simpl.
    destruct (decide (p = [])); simpl; [| destruct (fs p _); simpl];
      unfold inLine; simpl;
      rewrite widest_snoc, !len_app; change (len [a]) with 1;
      change (len (@nil Ascii.ascii)) with 0; lia.
  - by destruct (Hins Htypes) as (st' & -> & H).
  - by destruct (Hins Htypes) as (st' & -> & H).
  - by destruct (Hins Htypes) as (st' & -> & H).
  - (* Backspace *)
    unfold onBackspace. simpl.
    destruct (Z.ltb_spec 0 (len a)) as [Hpos | Hzero]; simpl.
    2:{ unfold inLine. simpl. lia. }
    destruct (Z.ltb_spec c (len a)) as [Hlt | Hge]; simpl.
    + rewrite from_Some by lia. simpl.
      destruct (Z.ltb_spec 0 c) as [Hcpos | Hczero]; simpl.
      * rewrite upto_Some by lia. simpl.
        replace (0 <? c) with true by (symmetry; apply Z.ltb_lt; lia).
        unfold inLine. simpl.
        rewrite !len_app, len_take_le, len_drop_le by lia.
        unfold dec. rewrite wrap_id by lia. lia.
      * replace (0 <? c) with false by (symmetry; apply Z.ltb_ge; lia).
        unfold inLine. simpl. lia.
    + rewrite upto_Some by lia. simpl.
      replace (0 <? c) with true by (symmetry; apply Z.ltb_lt; lia).
      unfold inLine. simpl. rewrite len_take_le by lia.
      unfold dec. rewrite wrap_id by lia. lia.
  - (* Up *)
    unfold onUp, with_historyIndex. cbn -[recall].
    destruct (Z.ltb_spec 0 hi) as [Hpos | Hzero]; cbn -[recall].
    + unfold dec. rewrite wrap_id by lia.
      replace (hi - 1 <? len h) with true by (symmetry; apply Z.ltb_lt; lia).
      by destruct (Hrecall (hi - 1) ltac:(lia)) as (st' & -> & H).
    + destruct (Z.ltb_spec hi (len h)) as [Hlt | Hge].
      * by destruct (Hrecall hi ltac:(lia)) as (st' & -> & H).
      * unfold inLine. simpl. lia.
  - (* Down *)
    unfold onDown, with_historyIndex. cbn -[recall].
    destruct (Z.ltb_spec hi (len h - 1)) as [Hlt | Hge]; cbn -[recall].
    + unfold inc. rewrite wrap_id by lia.
      replace (hi + 1 <? len h) with true by (symmetry; apply Z.ltb_lt; lia).
      by destruct (Hrecall (hi + 1) ltac:(lia)) as (st' & -> & H).
    + destruct (Z.ltb_spec hi (len h)) as [Hlt' | Hge'].
      * by destruct (Hrecall hi ltac:(lia)) as (st' & -> & H).
      * unfold inLine. simpl. change (len (@nil Ascii.ascii)) with 0. lia.
  - (* Left *)
    unfold onLeft. simpl.
    destruct (Z.ltb_spec 0 c); simpl; unfold inLine; simpl; [| lia].
    unfold dec. rewrite wrap_id by lia. lia.
  - (* Right *)
    unfold onRight. simpl.
    destruct (Z.ltb_spec c (len a)); simpl; unfold inLine; simpl; [| lia].
    unfold inc. rewrite wrap_id by lia. lia.
  - simpl. unfold inLine. simpl. lia.
  - simpl. unfold inLine. simpl. lia.
  - split; [done | by left].
  - split; [done | by right].
  - unfold inLine. simpl. lia.
Qed.

Lemma Split_nonempty (s : list Ascii.ascii) : Split s <> [].
Proof.
  induction s as [| c s IH]; simpl; [done |].
  case_decide; [done |]. by destruct (Split s).
Qed.

Lemma start_inLine (home historyData : option (list Ascii.ascii)) :
  inLine (start home historyData).
Proof.
  unfold start, inLine. destruct home as [path |]; [| by cbv].
  destruct historyData as [data |]; [| by cbv]. simpl.
  pose proof (len_nonempty _ (Split_nonempty data)).
  change (len (@nil Ascii.ascii)) with 0. lia.
Qed.

Lemma typedBytes_cons (key : Key) (keys : list Key) :
  typedBytes (key :: keys) = len (Runes key) + typedBytes keys.
Proof. unfold typedBytes. by rewrite fmap_cons. Qed.

Lemma typedBytes_nonneg (keys : list Key) : 0 <= typedBytes keys.
Proof.
  induction keys as [| key keys IH]; [done |].
  rewrite typedBytes_cons. pose proof (len_nonneg (Runes key)). lia.
Qed.

Lemma len_cons {A} (x : A) (l : list A) : len (x :: l) = 1 + len l.
Proof. unfold len. simpl length. lia. Qed.

End Repl.

(** X14: the key handler never faults on a slice or an index out of
    range, whatever keys arrive in whatever order, from the start of
    [Run] or from any session whose cursor is in its line, as long as the
    lines stay shorter than 2^63 bytes and the history shorter than 2^63
    lines; the process ends only by the exit with code 0; after every
    key the cursor is in the line again and the history index is in the
    history or just behind it.  A key that inserts is taken to type at
    least one byte. *)
Theorem listen_never_faults :
  forall (fs : list Ascii.ascii -> list repl.Effect -> bool) (keys : list repl.Key) (st : repl.Session),
    (repl.inLine st \/ exists home historyData, st = repl.start home historyData) ->
    Forall repl.types keys ->
    repl.widest st + repl.typedBytes keys < 2 ^ 63 ->
    repl.len (repl.history st) + repl.len keys < 2 ^ 63 - 1 ->
    match repl.listen fs keys st with
    | repl.Continue st' => repl.inLine st'
    | repl.Exit code _ => code = 0
    | repl.Fault => False
    end.
Proof.
  intros fs.
  assert (Hstart : forall st,
    repl.inLine st \/ (exists home historyData, st = repl.start home historyData) ->
    repl.inLine st).
  { intros st [Hin | (home & historyData & ->)]; [done | apply start_inLine]. }
  induction keys as [| key keys IH]; intros st Hin%Hstart Htypes Hwide Hhist.
  - exact Hin.
  - apply Forall_cons in Htypes as [Hkey Hkeys].
    rewrite typedBytes_cons in Hwide. rewrite len_cons in Hhist.
    pose proof (typedBytes_nonneg keys) as Hk.
    pose proof (len_nonneg (repl.Runes key)) as Hr.
    pose proof (len_nonneg keys) as Hn.
    pose proof (handle_inLine fs key st Hin Hkey ltac:(lia) ltac:(lia)) as Hstep.
    simpl. destruct (repl.handle fs key st) as [st' | code st' |].
    + destruct Hstep as (Hin' & Hw' & Hh'). apply IH; try done; [by left | lia ..].
    + by destruct Hstep.
    + done.
Qed.

Lemma listen_never_faults_witness :
  let keys := (repl.typed <$> repl.text "ab") ++
              [{| repl.Code := repl.Left; repl.Runes := [] |};
               {| repl.Code := repl.Backspace; repl.Runes := [] |};
               {| repl.Code := repl.Enter; repl.Runes := [] |};
               {| repl.Code := repl.Up; repl.Runes := [] |}] in
  match repl.listen (fun _ _ => true) keys (repl.start None None) with
  | repl.Continue st' => repl.inLine st'
  | repl.Exit code _ => code = 0
  | repl.Fault => False
  end.
Proof.
  intros keys.
  apply (listen_never_faults (fun _ _ => true) keys (repl.start None None)).
  - right. by exists None, None.
  - repeat constructor; discriminate.
  - vm_compute. reflexivity.
  - vm_compute. reflexivity.
Defined.

Section ReplEditing.

Import repl.

Lemma drop_after_front (n : nat) (a runes rest : list Ascii.ascii) :
  (n <= length a)%nat -> runes <> [] ->
  drop (S n) (take n a ++ runes ++ rest) = tail runes ++ rest.
Proof.
  intros Hn Hr. destruct runes as [| r runes]; [done |].
  rewrite drop_app_ge by (rewrite length_take; lia).
  rewrite length_take. replace (S n - n `min` length a)%nat with 1%nat by lia.
  reflexivity.
Qed.

Lemma take_before_front (n : nat) (a rest : list Ascii.ascii) :
  (n <= length a)%nat -> take n (take n a ++ rest) = take n a.
Proof.
  intros Hn. rewrite take_app_le by (rewrite length_take; lia).
  by rewrite take_take, Nat.min_id.
Qed.

Lemma to_nat_succ (c : Z) : 0 <= c -> Z.to_nat (c + 1) = S (Z.to_nat c).
Proof. lia. Qed.

(** A key that inserts puts its text where the cursor is. *)
Lemma onRune_inserts (key : Key) (st : Session) :
  inLine st -> Runes key <> [] ->
  len (accumulate st) + len (Runes key) < 2 ^ 63 ->
  onRune key st =
  Some (with_column (column st + 1)
          (effect (if column st <? len (accumulate st)
                   then PrintFormat (clearLine ++ prompt
                                ++ (take (Z.to_nat (column st)) (accumulate st)
                                    ++ Runes key
                                    ++ drop (Z.to_nat (column st)) (accumulate st))
                                ++ SprintfMoveBack
                                     (len (accumulate st) - column st)) []
                   else PrintText (Runes key))
             (with_accumulate
                (take (Z.to_nat (column st)) (accumulate st) ++ Runes key
                 ++ drop (Z.to_nat (column st)) (accumulate st)) st))).
Proof.
  destruct st as [c hi h a p eff]. unfold inLine. simpl.
  intros [[Hc0 Hc1] _] Hne%len_nonempty Hfit.
  unfold onRune. simpl.
  destruct (Z.ltb_spec c (len a)) as [Hlt | Hge]; simpl.
  - rewrite from_Some, upto_Some by lia. simpl.
    rewrite len_drop_le by lia. unfold inc. by rewrite wrap_id by lia.
  - unfold inc. rewrite wrap_id by lia.
    rewrite take_ge, drop_ge by (unfold len in *; lia).
    by rewrite app_nil_r.
Qed.

End ReplEditing.

(** X15: Backspace after a key that inserts takes away the first byte of
    what the key typed and puts the cursor back where it was; the rest of
    the line, before and after, is untouched, and so is the history.  So
    Backspace undoes a key of one byte, and leaves the other bytes of a
    key of several. *)
Theorem Backspace_after_typing :
  forall (fs : list Ascii.ascii -> list repl.Effect -> bool) (key : repl.Key) (st : repl.Session),
    repl.inLine st ->
    repl.inserts key = true ->
    repl.Runes key <> [] ->
    repl.len (repl.accumulate st) + repl.len (repl.Runes key) < 2 ^ 63 ->
    exists st1 st2,
      repl.handle fs key st = repl.Continue st1 /\
      repl.handle fs (repl.pressed repl.Backspace) st1 = repl.Continue st2 /\
      repl.accumulate st2 =
        take (Z.to_nat (repl.column st)) (repl.accumulate st)
        ++ tail (repl.Runes key)
        ++ drop (Z.to_nat (repl.column st)) (repl.accumulate st) /\
      repl.column st2 = repl.column st /\
      repl.history st2 = repl.history st /\
      repl.historyIndex st2 = repl.historyIndex st /\
      (forall b, repl.Runes key = [b] -> repl.accumulate st2 = repl.accumulate st).
Proof.
  intros fs key st Hin Hins Hne Hfit.
  assert (Hstep : repl.handle fs key st = repl.continue (repl.onRune key st)).
  { unfold repl.handle, repl.inserts in *. by destruct (repl.Code key). }
  rewrite Hstep, (onRune_inserts key st Hin Hne Hfit).
  destruct st as [c hi h a p eff]. destruct key as [code runes].
  unfold repl.inLine in Hin. simpl in *. destruct Hin as [[Hc0 Hc1] _].
  pose proof (len_nonempty runes Hne) as Hr.
  assert (Hn : (Z.to_nat c <= length a)%nat) by (unfold repl.len in *; lia).
  set (a' := take (Z.to_nat c) a ++ runes ++ drop (Z.to_nat c) a).
  assert (Hlen : repl.len a' = repl.len a + repl.len runes).
  { unfold a'. rewrite !len_app, len_take_le, len_drop_le by lia. lia. }
  match goal with
  | |- exists st1 st2, repl.Continue ?s = _ /\ _ => set (st1 := s)
  end.
  assert (Hback : exists st2,
    repl.handle fs (repl.pressed repl.Backspace) st1 = repl.Continue st2 /\
    repl.accumulate st2 =
      take (Z.to_nat c) a ++ tail runes ++ drop (Z.to_nat c) a /\
    repl.column st2 = c /\ repl.history st2 = h /\ repl.historyIndex st2 = hi).
  { unfold st1, repl.handle, repl.pressed, repl.onBackspace. simpl.
    fold a'. rewrite Hlen.
    replace (0 <? repl.len a + repl.len runes) with true
      by (symmetry; apply Z.ltb_lt; lia).
    destruct (Z.ltb_spec (c + 1) (repl.len a + repl.len runes)) as [Hlt | Hge];
      simpl.
    - rewrite from_Some by lia. simpl.
      replace (0 <? c + 1) with true by (symmetry; apply Z.ltb_lt; lia). simpl.
      rewrite upto_Some by lia. simpl.
      replace (0 <? c + 1) with true by (symmetry; apply Z.ltb_lt; lia).
      replace (c + 1 - 1) with c by lia.
      rewrite to_nat_succ by done. unfold a'.
      rewrite drop_after_front, take_before_front by done.
      eexists. split; [reflexivity |]. simpl.
      unfold repl.dec. rewrite wrap_id by lia.
      repeat split; try done; lia.
    - rewrite upto_Some by lia. simpl.
      replace (0 <? c + 1) with true by (symmetry; apply Z.ltb_lt; lia).
      eexists. split; [reflexivity |]. simpl.
      unfold repl.dec. rewrite wrap_id by lia.
      assert (Hc : c = repl.len a) by lia.
      destruct runes as [| r [| r' runes']];
        [done | | rewrite !len_cons in Hge; pose proof (len_nonneg runes'); lia].
      replace (repl.len a + repl.len [r] - 1) with (repl.len a)
        by (rewrite len_cons; change (repl.len (@nil Ascii.ascii)) with 0; lia).
      unfold a'. rewrite Hc. unfold repl.len. rewrite !Nat2Z.id.
      rewrite (take_ge a), (drop_ge a) by lia. simpl. rewrite !app_nil_r.
      rewrite take_app_length.
      repeat split; try done; lia. }
  destruct Hback as (st2 & Hrun & Hacc & Hcol & Hhist & Hidx).
  exists st1, st2. repeat split; try done.
  intros b ->. rewrite Hacc. simpl. by rewrite take_drop.
Qed.

Lemma Backspace_after_typing_witness :
  let fs : list Ascii.ascii -> list repl.Effect -> bool := fun _ _ => true in
  let st := {| repl.column := 1; repl.historyIndex := 0; repl.history := [];
               repl.accumulate := repl.text "ac"; repl.historyPath := [];
               repl.effects := [] |} in
  exists st1 st2,
    repl.handle fs {| repl.Code := repl.RuneKey; repl.Runes := repl.text "b" |} st
      = repl.Continue st1 /\
    repl.handle fs (repl.pressed repl.Backspace) st1 = repl.Continue st2 /\
    repl.accumulate st2 = repl.text "ac" /\ repl.column st2 = 1.
Proof.
  intros fs st.
  destruct (Backspace_after_typing fs
              {| repl.Code := repl.RuneKey; repl.Runes := repl.text "b" |} st)
    as (st1 & st2 & H1 & H2 & Hacc & Hcol & _).
  - by vm_compute.
  - reflexivity.
  - discriminate.
  - by vm_compute.
  - exists st1, st2. split; [exact H1 |]. split; [exact H2 |].
    split; [exact Hacc | exact Hcol].
Defined.

(** X16: Enter hands the line to [execute], appends it to the history,
    and leaves an empty line with the cursor at its start and the history
    index behind the history; with a history path it tries to open the
    history file, and the line, followed by a newline, is written when
    the file can be opened and not when it cannot; Up after Enter brings
    the very line back, with the cursor at its end. *)
Theorem Enter_then_Up :
  forall (fs : list Ascii.ascii -> list repl.Effect -> bool)
         (st : repl.Session),
    repl.len (repl.history st) < 2 ^ 63 - 1 ->
    exists st1 st2,
      repl.handle fs (repl.pressed repl.Enter) st = repl.Continue st1 /\
      repl.history st1 = repl.history st ++ [repl.accumulate st] /\
      repl.accumulate st1 = [] /\ repl.column st1 = 0 /\
      repl.historyIndex st1 = repl.len (repl.history st1) /\
      repl.executed (repl.effects st1)
        = repl.executed (repl.effects st) ++ [repl.accumulate st] /\
      repl.written (repl.effects st1)
        = repl.written (repl.effects st)
          ++ (if decide (repl.historyPath st = []) then []
              else if fs (repl.historyPath st)
                        ((repl.effects st
                          ++ [repl.PrintFormat [repl.newline] []])
                         ++ [repl.Execute (repl.accumulate st)])
                   then [repl.withNewline (repl.accumulate st)]
                   else []) /\
      repl.handle fs (repl.pressed repl.Up) st1 = repl.Continue st2 /\
      repl.accumulate st2 = repl.accumulate st /\
      repl.column st2 = repl.len (repl.accumulate st) /\
      repl.history st2 = repl.history st1 /\
      repl.historyIndex st2 = repl.len (repl.history st).
Proof.
  intros fs [c hi h a p eff] Hh. simpl in Hh.
  pose proof (len_nonneg h) as Hh0.
  assert (Hup : forall st1,
    repl.historyIndex st1 = repl.len (h ++ [a]) ->
    repl.history st1 = h ++ [a] ->
    repl.onUp st1
    = Some {| repl.column := repl.len a; repl.historyIndex := repl.len h;
              repl.history := h ++ [a]; repl.accumulate := a;
              repl.historyPath := repl.historyPath st1;
              repl.effects :=
                repl.effects st1
                ++ [repl.PrintFormat (repl.clearLine ++ repl.prompt ++ a) []] |}).
  { intros [c1 hi1 h1 a1 p1 eff1]. simpl. intros -> ->.
    unfold repl.onUp. cbn -[repl.recall].
    rewrite len_app. change (repl.len [a]) with 1.
    replace (0 <? repl.len h + 1) with true by (symmetry; apply Z.ltb_lt; lia).
    unfold repl.with_historyIndex. cbn -[repl.recall].
    unfold repl.dec. rewrite wrap_id by lia.
    replace (repl.len h + 1 - 1) with (repl.len h) by lia.
    rewrite len_app. change (repl.len [a]) with 1.
    replace (repl.len h <? repl.len h + 1) with true
      by (symmetry; apply Z.ltb_lt; lia).
    unfold repl.recall, repl.index. simpl.
    replace (0 <=? repl.len h) with true by (symmetry; apply Z.leb_le; lia).
    unfold repl.len. rewrite Nat2Z.id, list_lookup_middle by done.
    reflexivity. }
  unfold repl.handle, repl.pressed. cbn [repl.Code].
  unfold repl.onEnter, repl.appendToHistory.
  cbn [repl.historyPath repl.effect repl.effects repl.accumulate].
  destruct (decide (p = [])); [| destruct (fs p _)]; cbn -[repl.onUp];
    do 2 eexists; (split; [reflexivity |]);
    (erewrite Hup; [| reflexivity | reflexivity]);
    unfold repl.executed, repl.written, repl.withNewline; simpl;
    rewrite ?omap_app; simpl; rewrite ?app_nil_r; repeat split; done.
Qed.

Lemma Enter_then_Up_witness :
  let st := {| repl.column := 2; repl.historyIndex := 0; repl.history := [];
               repl.accumulate := repl.text "ab";
               repl.historyPath := repl.text "h"; repl.effects := [] |} in
  (exists st1 st2,
      repl.handle (fun _ _ => true) (repl.pressed repl.Enter) st
        = repl.Continue st1 /\
      repl.written (repl.effects st1) = [repl.withNewline (repl.text "ab")] /\
      repl.handle (fun _ _ => true) (repl.pressed repl.Up) st1
        = repl.Continue st2 /\
      repl.accumulate st2 = repl.text "ab" /\ repl.column st2 = 2) /\
  (exists st1,
      repl.handle (fun _ _ => false) (repl.pressed repl.Enter) st
        = repl.Continue st1 /\
      repl.history st1 = [repl.text "ab"] /\
      repl.written (repl.effects st1) = []).
Proof.
  intros st. split.
  - destruct (Enter_then_Up (fun _ _ => true) st)
      as (st1 & st2 & H1 & _ & _ & _ & _ & _ & Hw & H2 & Hacc & Hcol & _).
    + by vm_compute.
    + exists st1, st2. split; [exact H1 |]. split; [exact Hw |].
      split; [exact H2 |]. split; [exact Hacc | exact Hcol].
  - destruct (Enter_then_Up (fun _ _ => false) st)
      as (st1 & st2 & H1 & Hh & _ & _ & _ & _ & Hw & _).
    + by vm_compute.
    + exists st1. split; [exact H1 |]. split; [exact Hh | exact Hw].
Defined.

Section ReplHistory.

Import repl.

Variable fs : list Ascii.ascii -> list Effect -> bool.

Lemma records_nothing (st st' : Session) :
  history st' = history st ->
  executed (effects st') = executed (effects st) ->
  written (effects st') = written (effects st) ->
  historyPath st' = historyPath st ->
  records fs st st' [] [].
Proof.
  intros Hh He Hw Hp. unfold records. rewrite Hh, He, Hw, Hp, !app_nil_r.
  repeat split; done.
Qed.

Lemma records_then (st st1 st' : Session) (l1 g1 l2 g2 : list (list Ascii.ascii)) :
  records fs st st1 l1 g1 -> records fs st1 st' l2 g2 ->
  records fs st st' (l1 ++ l2) (g1 ++ g2).
Proof.
  intros (Hh1 & He1 & Hw1 & Hs1 & Hn1 & Ha1 & Hf1 & Hp1)
         (Hh2 & He2 & Hw2 & Hs2 & Hn2 & Ha2 & Hf2 & Hp2).
  rewrite Hp1 in Hn2, Ha2, Hf2. unfold records.
  rewrite Hh2, He2, Hw2, Hp2, Hh1, He1, Hw1, Hp1, <- !app_assoc, fmap_app.
  repeat split; try done.
  - by apply sublist_app.
  - intros Hp. by rewrite (Hn1 Hp), (Hn2 Hp).
  - intros Hp Hall. by rewrite (Ha1 Hp Hall), (Ha2 Hp Hall).
  - intros Hnone. by rewrite (Hf1 Hnone), (Hf2 Hnone).
Qed.

Lemma executed_snoc (effs : list Effect) (f : Effect) :
  executed (effs ++ [f])
  = executed effs ++ match f with Execute code => [code] | _ => [] end.
Proof. unfold executed. rewrite omap_app. simpl. by destruct f. Qed.

Lemma written_snoc (effs : list Effect) (f : Effect) :
  written (effs ++ [f])
  = written effs ++ match f with AppendLine _ line => [line] | _ => [] end.
Proof. unfold written. rewrite omap_app. simpl. by destruct f. Qed.

Lemma onEnter_records (st st' : Session) :
  onEnter fs st = Some st' ->
  exists logged, records fs st st' [accumulate st] logged.
Proof.
  destruct st as [c hi h a p eff]. unfold onEnter, appendToHistory.
  cbn [historyPath effect effects accumulate].
  destruct (decide (p = [])) as [Hp | Hp]; [| destruct (fs p _) eqn:Hopen];
    simpl; intros [= <-]; unfold records; simpl;
    rewrite !executed_snoc, !written_snoc; simpl; rewrite ?app_nil_r.
  - exists []. rewrite app_nil_r. repeat split; try done. apply sublist_nil_l.
  - exists [withNewline a]. repeat split; try done.
    intros Hnone. by rewrite Hnone in Hopen.
  - exists []. rewrite app_nil_r. repeat split; try done.
    + apply sublist_nil_l.
    + intros _ Hall. by rewrite Hall in Hopen.
Qed.

Lemma handle_records (key : Key) (st st' : Session) :
  session (handle fs key st) = Some st' ->
  exists lines logged, records fs st st' lines logged.
Proof.
  destruct key as [code runes]. unfold handle. cbn [Code].
  destruct code; cbn [session continue].
  1:{ destruct (onEnter fs st) as [s1 |] eqn:Henter; [| discriminate].
      intros [= <-]. destruct (onEnter_records st s1 Henter) as [logged H].
      by exists [accumulate st], logged. }
  all: intros Hrun; exists [], []; revert Hrun.
  all: destruct st as [c hi h a p eff].
  all: unfold onRune, onBackspace, onUp, onDown, recall, onLeft, onRight,
         onCtrlA, onCtrlE.
  all: split_handler; simpl; try discriminate; intros [= <-].
  all: apply records_nothing; simpl;
         rewrite ?executed_snoc, ?written_snoc, ?app_nil_r; done.
Qed.

Lemma listen_records (keys : list Key) :
  forall st st',
    session (listen fs keys st) = Some st' ->
    exists lines logged, records fs st st' lines logged.
Proof.
  induction keys as [| key keys IH]; intros st st'.
  - simpl. intros [= <-]. exists [], []. by apply records_nothing.
  - simpl. destruct (handle fs key st) as [st1 | code st1 |] eqn:Hkey.
    + intros Hrest.
      destruct (handle_records key st st1) as (l1 & g1 & H1); [by rewrite Hkey |].
      destruct (IH st1 st' Hrest) as (l2 & g2 & H2).
      exists (l1 ++ l2), (g1 ++ g2). by eapply records_then.
    + simpl. intros [= <-]. apply (handle_records key). by rewrite Hkey.
    + discriminate.
Qed.

End ReplHistory.

(** X17: whatever keys arrive, the history grows exactly by the lines
    that were executed, in the order of their execution, and by nothing
    else.  What is written to the history file is a part of these lines,
    in their order, each followed by a newline: nothing without a history
    path and nothing when the file cannot be opened, every line when
    there is a path and the file can always be opened. *)
Theorem history_records_executed_lines :
  forall (fs : list Ascii.ascii -> list repl.Effect -> bool)
         (keys : list repl.Key) (st st' : repl.Session),
    repl.session (repl.listen fs keys st) = Some st' ->
    exists lines logged,
      repl.history st' = repl.history st ++ lines /\
      repl.executed (repl.effects st')
        = repl.executed (repl.effects st) ++ lines /\
      repl.written (repl.effects st')
        = repl.written (repl.effects st) ++ logged /\
      logged `sublist_of` (repl.withNewline <$> lines) /\
      (repl.historyPath st = [] -> logged = []) /\
      (repl.historyPath st <> [] ->
       (forall effs, fs (repl.historyPath st) effs = true) ->
       logged = repl.withNewline <$> lines) /\
      ((forall effs, fs (repl.historyPath st) effs = false) -> logged = []) /\
      repl.historyPath st' = repl.historyPath st.
Proof. intros fs keys st st' Hrun. by apply (listen_records fs keys). Qed.

Lemma history_records_executed_lines_witness :
  let keys := (repl.typed <$> repl.text "ab")
              ++ [repl.pressed repl.Enter; repl.pressed repl.Up;
                  repl.pressed repl.Enter] in
  let st := repl.start (Some (repl.text "h")) None in
  let fs : list Ascii.ascii -> list repl.Effect -> bool :=
    fun _ effs => bool_decide (repl.executed effs = [repl.text "ab"]) in
  exists st',
    repl.session (repl.listen fs keys st) = Some st' /\
    repl.history st' = [repl.text "ab"; repl.text "ab"] /\
    repl.executed (repl.effects st') = [repl.text "ab"; repl.text "ab"] /\
    repl.written (repl.effects st') = [repl.withNewline (repl.text "ab")].
Proof.
  intros keys st fs.
  destruct (repl.session (repl.listen fs keys st)) as [st' |] eqn:Hrun;
    [| vm_compute in Hrun; discriminate].
  destruct (history_records_executed_lines fs keys st st' Hrun)
    as (lines & logged & Hh & He & _).
  exists st'. split; [reflexivity |].
  assert (Hst : repl.history st' = [repl.text "ab"; repl.text "ab"]
                /\ repl.written (repl.effects st')
                   = [repl.withNewline (repl.text "ab")]).
  { vm_compute in Hrun. injection Hrun as <-. split; reflexivity. }
  destruct Hst as [Hst Hw].
  split; [exact Hst |]. split; [| exact Hw].
  rewrite He. rewrite Hh in Hst. unfold st in Hst. simpl in Hst.
  rewrite Hst. reflexivity.
Defined.

(** X18: keys of one byte each put their bytes into the line where the
    cursor is, in the order in which they arrive, and move the cursor
    behind them; what was before the cursor and what was after it stays,
    and the history is untouched. *)
Theorem typing_inserts_at_cursor :
  forall (fs : list Ascii.ascii -> list repl.Effect -> bool) (bytes : list Ascii.ascii) (st : repl.Session),
    repl.inLine st ->
    repl.len (repl.accumulate st) + repl.len bytes < 2 ^ 63 ->
    exists st',
      repl.listen fs (repl.typed <$> bytes) st = repl.Continue st' /\
      repl.accumulate st' =
        take (Z.to_nat (repl.column st)) (repl.accumulate st)
        ++ bytes
        ++ drop (Z.to_nat (repl.column st)) (repl.accumulate st) /\
      repl.column st' = repl.column st + repl.len bytes /\
      repl.history st' = repl.history st /\
      repl.historyIndex st' = repl.historyIndex st.
Proof.
  intros fs. induction bytes as [| b bytes IH]; intros st Hin Hfit.
  - exists st. simpl. rewrite take_drop.
    change (repl.len (@nil Ascii.ascii)) with 0.
    repeat split; try done. lia.
  - rewrite len_cons in Hfit. pose proof (len_nonneg bytes) as Hb.
    rewrite fmap_cons. cbn [repl.listen].
    assert (Hkey : repl.handle fs (repl.typed b) st
                   = repl.continue (repl.onRune (repl.typed b) st))
      by reflexivity.
    rewrite Hkey, (onRune_inserts (repl.typed b) st Hin) by
      (first [discriminate | simpl; change (repl.len [b]) with 1; lia]).
    cbn [repl.continue].
    destruct st as [c hi h a p eff]. unfold repl.inLine in Hin.
    simpl in Hin, Hfit |- *. destruct Hin as [[Hc0 Hc1] Hh].
    assert (Hn : (Z.to_nat c <= length a)%nat) by (unfold repl.len in *; lia).
    match goal with
    | |- exists st', repl.listen fs _ ?s = _ /\ _ => set (st1 := s)
    end.
    destruct (IH st1) as (st' & Hrun & Hacc & Hcol & Hhist & Hidx).
    { unfold st1, repl.inLine. simpl.
      rewrite !len_app, len_take_le, len_cons, len_drop_le by lia. lia. }
    { unfold st1. simpl.
      rewrite !len_app, len_take_le, len_cons, len_drop_le by lia. lia. }
    exists st'. split; [exact Hrun |].
    rewrite Hacc, Hcol, Hhist, Hidx. unfold st1. simpl.
    rewrite to_nat_succ by done.
    replace (take (Z.to_nat c) a ++ b :: drop (Z.to_nat c) a)
      with ((take (Z.to_nat c) a ++ [b]) ++ drop (Z.to_nat c) a)
      by (by rewrite <- app_assoc).
    assert (Hl : length (take (Z.to_nat c) a ++ [b]) = S (Z.to_nat c)).
    { rewrite length_app, length_take. simpl. lia. }
    rewrite <- Hl at 1. rewrite take_app_length.
    rewrite <- Hl. rewrite drop_app_length.
    rewrite <- !app_assoc. simpl. rewrite len_cons.
    repeat split; try done. lia.
Qed.

Lemma typing_inserts_at_cursor_witness :
  let fs : list Ascii.ascii -> list repl.Effect -> bool := fun _ _ => true in
  let st := {| repl.column := 1; repl.historyIndex := 0; repl.history := [];
               repl.accumulate := repl.text "ad"; repl.historyPath := [];
               repl.effects := [] |} in
  exists st',
    repl.listen fs (repl.typed <$> repl.text "bc") st = repl.Continue st' /\
    repl.accumulate st' = repl.text "abcd" /\ repl.column st' = 3.
Proof.
  intros fs st.
  destruct (typing_inserts_at_cursor fs (repl.text "bc") st)
    as (st' & Hrun & Hacc & Hcol & _).
  - by vm_compute.
  - by vm_compute.
  - exists st'. split; [exact Hrun |]. split; [exact Hacc | exact Hcol].
Defined.

(** X19: Up and Down walk the history without leaving it: while the
    history index is inside the history, every key but Enter keeps it
    inside, so Down never comes back to the fresh line behind the last
    entry; after Up, and after Down from inside the history, the line is
    the history entry at the index and the cursor is at its end; the
    index moves down by one but not below the first entry, up by one but
    not beyond the last.  Down at the fresh line empties what was
    typed. *)
Theorem history_navigation :
  forall (fs : list Ascii.ascii -> list repl.Effect -> bool) (st : repl.Session),
    repl.inLine st ->
    repl.len (repl.history st) < 2 ^ 63 ->
    (repl.history st <> [] ->
     exists st',
       repl.handle fs (repl.pressed repl.Up) st = repl.Continue st' /\
       repl.historyIndex st' = Z.max 0 (repl.historyIndex st - 1) /\
       repl.index (repl.history st) (repl.historyIndex st')
         = Some (repl.accumulate st') /\
       repl.column st' = repl.len (repl.accumulate st') /\
       repl.history st' = repl.history st) /\
    (repl.historyIndex st < repl.len (repl.history st) ->
     exists st',
       repl.handle fs (repl.pressed repl.Down) st = repl.Continue st' /\
       repl.historyIndex st'
         = Z.min (repl.historyIndex st + 1) (repl.len (repl.history st) - 1) /\
       repl.index (repl.history st) (repl.historyIndex st')
         = Some (repl.accumulate st') /\
       repl.column st' = repl.len (repl.accumulate st') /\
       repl.history st' = repl.history st) /\
    (repl.historyIndex st = repl.len (repl.history st) ->
     exists st',
       repl.handle fs (repl.pressed repl.Down) st = repl.Continue st' /\
       repl.accumulate st' = [] /\ repl.column st' = 0 /\
       repl.historyIndex st' = repl.historyIndex st /\
       repl.history st' = repl.history st) /\
    (forall key st',
        repl.Code key <> repl.Enter ->
        repl.historyIndex st < repl.len (repl.history st) ->
        repl.handle fs key st = repl.Continue st' ->
        repl.historyIndex st' < repl.len (repl.history st')).
Proof.
  intros fs [c hi h a p eff]. unfold repl.inLine. simpl.
  intros [[Hc0 Hc1] [Hh0 Hh1]] Hfit.
  assert (Hrecall : forall hi', 0 <= hi' < repl.len h ->
    exists line,
      repl.index h hi' = Some line /\
      repl.recall {| repl.column := c; repl.historyIndex := hi';
                     repl.history := h; repl.accumulate := a;
                     repl.historyPath := p; repl.effects := eff |}
      = Some {| repl.column := repl.len line; repl.historyIndex := hi';
                repl.history := h; repl.accumulate := line;
                repl.historyPath := p;
                repl.effects :=
                  eff ++ [repl.PrintFormat (repl.clearLine ++ repl.prompt ++ line) []] |}).
  { intros hi' Hhi'. destruct (index_Some h hi' Hhi') as (line & Hline & _).
    exists line. split; [done |]. unfold repl.recall. simpl. by rewrite Hline. }
  split; [| split; [| split]].
  - intros Hne%len_nonempty.
    unfold repl.handle, repl.pressed. cbn [repl.Code]. unfold repl.onUp.
    cbn -[repl.recall].
    destruct (Z.ltb_spec 0 hi) as [Hpos | Hzero];
      unfold repl.with_historyIndex; cbn -[repl.recall].
    + unfold repl.dec. rewrite wrap_id by lia.
      replace (hi - 1 <? repl.len h) with true by (symmetry; apply Z.ltb_lt; lia).
      destruct (Hrecall (hi - 1)) as (line & Hline & ->); [lia |].
      eexists. split; [reflexivity |]. simpl.
      replace (Z.max 0 (hi - 1)) with (hi - 1) by lia. by repeat split.
    + replace (hi <? repl.len h) with true by (symmetry; apply Z.ltb_lt; lia).
      destruct (Hrecall hi) as (line & Hline & ->); [lia |].
      eexists. split; [reflexivity |]. simpl.
      replace (Z.max 0 (hi - 1)) with hi by lia. by repeat split.
  - intros Hlt.
    unfold repl.handle, repl.pressed. cbn [repl.Code]. unfold repl.onDown.
    cbn -[repl.recall].
    destruct (Z.ltb_spec hi (repl.len h - 1)) as [Hin | Hlast];
      unfold repl.with_historyIndex; cbn -[repl.recall].
    + unfold repl.inc. rewrite wrap_id by lia.
      replace (hi + 1 <? repl.len h) with true by (symmetry; apply Z.ltb_lt; lia).
      destruct (Hrecall (hi + 1)) as (line & Hline & ->); [lia |].
      eexists. split; [reflexivity |]. simpl.
      replace (Z.min (hi + 1) (repl.len h - 1)) with (hi + 1) by lia.
      by repeat split.
    + replace (hi <? repl.len h) with true by (symmetry; apply Z.ltb_lt; lia).
      destruct (Hrecall hi) as (line & Hline & ->); [lia |].
      eexists. split; [reflexivity |]. simpl.
      replace (Z.min (hi + 1) (repl.len h - 1)) with hi by lia.
      by repeat split.
  - intros ->.
    unfold repl.handle, repl.pressed. cbn [repl.Code]. unfold repl.onDown.
    cbn -[repl.recall].
    replace (repl.len h <? repl.len h - 1) with false
      by (symmetry; apply Z.ltb_ge; lia).
    cbn -[repl.recall].
    replace (repl.len h <? repl.len h) with false
      by (symmetry; apply Z.ltb_ge; lia).
    eexists. split; [reflexivity |]. by repeat split.
  - intros [code runes] st' Hcode Hlt. simpl in Hcode.
    unfold repl.handle. cbn [repl.Code].
    assert (Hkeep : forall r : option repl.Session,
      (forall s, r = Some s -> repl.historyIndex s = hi /\ repl.history s = h) ->
      repl.continue r = repl.Continue st' ->
      repl.historyIndex st' < repl.len (repl.history st')).
    { intros [s |] Hs; [| discriminate]. intros [= <-].
      destruct (Hs s eq_refl) as [-> ->]. done. }
    assert (Hmove : forall hi', 0 <= hi' < repl.len h ->
      repl.continue
        (repl.recall {| repl.column := c; repl.historyIndex := hi';
                        repl.history := h; repl.accumulate := a;
                        repl.historyPath := p; repl.effects := eff |})
      = repl.Continue st' ->
      repl.historyIndex st' < repl.len (repl.history st')).
    { intros hi' Hhi'. destruct (Hrecall hi' Hhi') as (line & _ & ->).
      intros [= <-]. simpl. lia. }
    destruct code; try done.
    + apply Hkeep. unfold repl.onRune. simpl. intros s.
      destruct (c <? repl.len a); simpl.
      * destruct (repl.from a c); [| discriminate]. simpl.
        destruct (repl.upto a c); [| discriminate]. simpl.
        by intros [= <-].
      * by intros [= <-].
    + apply Hkeep. unfold repl.onRune. simpl. intros s.
      destruct (c <? repl.len a); simpl.
      * destruct (repl.from a c); [| discriminate]. simpl.
        destruct (repl.upto a c); [| discriminate]. simpl.
        by intros [= <-].
      * by intros [= <-].
    + apply Hkeep. unfold repl.onRune. simpl. intros s.
      destruct (c <? repl.len a); simpl.
      * destruct (repl.from a c); [| discriminate]. simpl.
        destruct (repl.upto a c); [| discriminate]. simpl.
        by intros [= <-].
      * by intros [= <-].
    + apply Hkeep. unfold repl.onBackspace. simpl. intros s.
      destruct (0 <? repl.len a); simpl; [| by intros [= <-]].
      destruct (c <? repl.len a); simpl.
      * destruct (repl.from a c); [| discriminate]. simpl.
        destruct (0 <? c) eqn:Hc; simpl.
        -- destruct (repl.upto a (c - 1)); [| discriminate]. simpl.
           rewrite Hc. by intros [= <-].
        -- rewrite Hc. by intros [= <-].
      * destruct (repl.upto a (repl.len a - 1)); [| discriminate]. simpl.
        destruct (0 <? c); by intros [= <-].
    + unfold repl.onUp. cbn -[repl.recall].
      destruct (Z.ltb_spec 0 hi) as [Hpos | Hzero];
        unfold repl.with_historyIndex; cbn -[repl.recall].
      * unfold repl.dec. rewrite wrap_id by lia.
        replace (hi - 1 <? repl.len h) with true
          by (symmetry; apply Z.ltb_lt; lia).
        apply Hmove. lia.
      * replace (hi <? repl.len h) with true by (symmetry; apply Z.ltb_lt; lia).
        apply Hmove. lia.
    + unfold repl.onDown. cbn -[repl.recall].
      destruct (Z.ltb_spec hi (repl.len h - 1)) as [Hin | Hlast];
        unfold repl.with_historyIndex; cbn -[repl.recall].
      * unfold repl.inc. rewrite wrap_id by lia.
        replace (hi + 1 <? repl.len h) with true
          by (symmetry; apply Z.ltb_lt; lia).
        apply Hmove. lia.
      * replace (hi <? repl.len h) with true by (symmetry; apply Z.ltb_lt; lia).
        apply Hmove. lia.
    + apply Hkeep. unfold repl.onLeft. simpl. intros s.
      destruct (0 <? c); by intros [= <-].
    + apply Hkeep. unfold repl.onRight. simpl. intros s.
      destruct (c <? repl.len a); by intros [= <-].
    + apply Hkeep. unfold repl.onCtrlA. simpl. intros s. by intros [= <-].
    + apply Hkeep. unfold repl.onCtrlE. simpl. intros s. by intros [= <-].
    + by intros [= <-].
Qed.

Lemma history_navigation_witness :
  let fs : list Ascii.ascii -> list repl.Effect -> bool := fun _ _ => true in
  let st := {| repl.column := 0; repl.historyIndex := 2;
               repl.history := [repl.text "a"; repl.text "b"];
               repl.accumulate := []; repl.historyPath := [];
               repl.effects := [] |} in
  exists st1 st2,
    repl.handle fs (repl.pressed repl.Up) st = repl.Continue st1 /\
    repl.accumulate st1 = repl.text "b" /\
    repl.handle fs (repl.pressed repl.Down) st1 = repl.Continue st2 /\
    repl.accumulate st2 = repl.text "b" /\ repl.historyIndex st2 = 1.
Proof.
  intros fs st.
  destruct (history_navigation fs st) as (Hup & _); [by vm_compute .. |].
  destruct Hup as (st1 & H1 & Hi1 & Hl1 & Hc1 & Hh1); [discriminate |].
  assert (Hs1 : st1 = {| repl.column := 1; repl.historyIndex := 1;
                         repl.history := [repl.text "a"; repl.text "b"];
                         repl.accumulate := repl.text "b";
                         repl.historyPath := [];
                         repl.effects :=
                           [repl.PrintFormat (repl.clearLine ++ repl.prompt
                                         ++ repl.text "b") []] |}).
  { vm_compute in H1. injection H1 as <-. reflexivity. }
  destruct (history_navigation fs st1) as (_ & Hdown & _);
    [rewrite Hs1; by vm_compute .. |].
  destruct Hdown as (st2 & H2 & Hi2 & Hl2 & _); [rewrite Hs1; by vm_compute |].
  exists st1, st2. split; [exact H1 |]. split; [by rewrite Hs1 |].
  split; [exact H2 |].
  rewrite Hs1 in Hi2, Hl2. rewrite Hi2 in Hl2.
  change (Some (repl.text "b") = Some (repl.accumulate st2)) in Hl2.
  injection Hl2 as Hacc. split; [by symmetry | exact Hi2].
Defined.

(** ** Ranging over what is not a container (Evaluate, evalRange,
    evalIteratorForLoop) *)




(** X23: the cursor keys only move the cursor, and never out of the line:
    Left moves it one byte back but not before the start, Right one byte
    on but not behind the end, Ctrl-A to the start and Ctrl-E to the end;
    the line, the history and the history index stay as they are. *)
Theorem cursor_keys_move_the_cursor_only :
  forall (fs : list Ascii.ascii -> list repl.Effect -> bool) (code : repl.KeyCode) (st : repl.Session),
    repl.inLine st ->
    repl.len (repl.accumulate st) < 2 ^ 63 ->
    code = repl.Left \/ code = repl.Right \/ code = repl.CtrlA \/ code = repl.CtrlE ->
    exists st',
      repl.handle fs (repl.pressed code) st = repl.Continue st' /\
      repl.accumulate st' = repl.accumulate st /\
      repl.history st' = repl.history st /\
      repl.historyIndex st' = repl.historyIndex st /\
      repl.column st' =
        match code with
        | repl.Left => Z.max 0 (repl.column st - 1)
        | repl.Right => Z.min (repl.len (repl.accumulate st)) (repl.column st + 1)
        | repl.CtrlA => 0
        | _ => repl.len (repl.accumulate st)
        end.
Proof.
  intros fs code [c hi h a p eff]. unfold repl.inLine. simpl.
  intros [[Hc0 Hc1] _] Hfit [-> | [-> | [-> | ->]]];
    unfold repl.handle, repl.pressed; cbn [repl.Code].
  - unfold repl.onLeft. simpl.
    destruct (Z.ltb_spec 0 c); simpl; eexists; (split; [reflexivity |]); simpl;
      repeat split; try done.
    + unfold repl.dec. rewrite wrap_id by lia. lia.
    + lia.
  - unfold repl.onRight. simpl.
    destruct (Z.ltb_spec c (repl.len a)); simpl; eexists;
      (split; [reflexivity |]); simpl; repeat split; try done.
    + unfold repl.inc. rewrite wrap_id by lia. lia.
    + lia.
  - unfold repl.onCtrlA. simpl. eexists. split; [reflexivity |]. by repeat split.
  - unfold repl.onCtrlE. simpl. eexists. split; [reflexivity |]. by repeat split.
Qed.

Lemma cursor_keys_move_the_cursor_only_witness :
  let fs : list Ascii.ascii -> list repl.Effect -> bool := fun _ _ => true in
  let st := {| repl.column := 0; repl.historyIndex := 0; repl.history := [];
               repl.accumulate := repl.text "ab"; repl.historyPath := [];
               repl.effects := [] |} in
  exists st',
    repl.handle fs (repl.pressed repl.Left) st = repl.Continue st' /\
    repl.accumulate st' = repl.text "ab" /\ repl.column st' = 0.
Proof.
  intros fs st.
  destruct (cursor_keys_move_the_cursor_only fs repl.Left st)
    as (st' & Hrun & Hacc & _ & _ & Hcol).
  - by vm_compute.
  - by vm_compute.
  - by left.
  - exists st'. split; [exact Hrun |]. split; [exact Hacc | exact Hcol].
Defined.
